(** * Rhyme Lab: a shallow embedding of the rhyme engines

    The repository ships several builds of one phonetic rhyme engine.
    Two of them are embedded here, function by function:

    - [Minimal]: the build with inline highlighting ([wordToPhones],
      [getRhymeTail], [scoreRhyme], [analyzeText]);
    - [Main]: the class [RhymeAnalyzer] of main.js.  The class
      [EnhancedRhymeAnalyzer] of main-hiphop.js repeats its methods
      [cleanWord], [g2pHeuristic], [syllabify] and [normalizePhone]
      character for character; [Hiphop] holds the guard of its
      [analyzeText].

    JavaScript strings are [string]s (sequences of 8-bit code units,
    enough for the ASCII letters the tokenizers accept), arrays are
    lists, object literals used as tables are association lists in
    source order, [null] and [undefined] are [None], and numbers that
    can be fractional are exact rationals in [Q] whose literals are
    the decimal literals of the source.  Loops are folds over the
    indices or the elements they visit, with the variables they
    assign as the state.

    main.js writes its two regular expressions and its line separator
    with a doubled backslash ([/[^\\w']/g], [/\\d/g], ['\\n']); the
    minimal build writes them with one.  They are embedded as they
    are written.  Lines 417-419 of main.js repeat the end of
    [isLineEnd] after the method is closed; the methods are embedded
    as they are written.

    Tables are read with phoneme codes and single letters.  Where a
    key can be a name that every object literal inherits, the
    embedding says so ([JS.inherited]). *)

From Stdlib Require Import String Ascii List Bool Arith ZArith QArith Lia Lqa Sorted Permutation.
Import ListNotations.
Open Scope string_scope.
Open Scope list_scope.
Open Scope nat_scope.

(* ================================================================== *)
(** ** JavaScript string primitives *)
(* ================================================================== *)

Module JS.

Definition code (c : ascii) : nat := nat_of_ascii c.

Definition is_upper (c : ascii) : bool := (65 <=? code c) && (code c <=? 90).
Definition is_lower (c : ascii) : bool := (97 <=? code c) && (code c <=? 122).
Definition is_digit (c : ascii) : bool := (48 <=? code c) && (code c <=? 57).
Definition is_letter (c : ascii) : bool := is_upper c || is_lower c.

(** The class [\w] of a regular expression: [A-Za-z0-9_]. *)
Definition is_word_char (c : ascii) : bool :=
  is_letter c || is_digit c || (code c =? 95).

Definition apostrophe : ascii := Eval cbv in ascii_of_nat 39.
Definition backslash : ascii := Eval cbv in ascii_of_nat 92.
Definition newline : ascii := Eval cbv in ascii_of_nat 10.
Definition space : ascii := Eval cbv in ascii_of_nat 32.

(** The class [[A-Za-z']] used by every tokenizer. *)
Definition in_token_class (c : ascii) : bool :=
  is_letter c || Ascii.eqb c apostrophe.

(** White space as [String.prototype.trim] sees it, among the code
    units below 256: TAB, LF, VT, FF, CR, SP and NBSP. *)
Definition is_space (c : ascii) : bool :=
  ((9 <=? code c) && (code c <=? 13)) || (code c =? 32) || (code c =? 160).

Definition lower_char (c : ascii) : ascii :=
  if is_upper c then ascii_of_nat (code c + 32) else c.

Fixpoint toLowerCase (s : string) : string :=
  match s with
  | EmptyString => EmptyString
  | String c r => String (lower_char c) (toLowerCase r)
  end.

(** [s.replace(/[^...]/g, '')] for a negated class: keep the
    characters of the class, drop the others. *)
Fixpoint keep_chars (keep : ascii -> bool) (s : string) : string :=
  match s with
  | EmptyString => EmptyString
  | String c r =>
      if keep c then String c (keep_chars keep r) else keep_chars keep r
  end.

Fixpoint trimStart (s : string) : string :=
  match s with
  | EmptyString => EmptyString
  | String c r => if is_space c then trimStart r else s
  end.

Fixpoint all_space (s : string) : bool :=
  match s with
  | EmptyString => true
  | String c r => is_space c && all_space r
  end.

Fixpoint trimEnd (s : string) : string :=
  match s with
  | EmptyString => EmptyString
  | String c r => if all_space s then EmptyString else String c (trimEnd r)
  end.

Definition trim (s : string) : string := trimEnd (trimStart s).

(** Last character of a string. *)
Fixpoint last_char (s : string) : option ascii :=
  match s with
  | EmptyString => None
  | String c EmptyString => Some c
  | String _ r => last_char r
  end.

(** [s.endsWith(c)] for a one-character argument. *)
Definition endsWith (s : string) (c : ascii) : bool :=
  match last_char s with
  | Some d => Ascii.eqb d c
  | None => false
  end.

Fixpoint drop_last (s : string) : string :=
  match s with
  | EmptyString => EmptyString
  | String _ EmptyString => EmptyString
  | String c r => String c (drop_last r)
  end.

(** [s.split(sep)] for a non-empty separator.  [skip] counts the
    characters of a separator occurrence still to be passed over. *)
Fixpoint split_go (sep s : string) (skip : nat) (cur : string) : list string :=
  match s with
  | EmptyString => [cur]
  | String c r =>
      match skip with
      | S k => split_go sep r k cur
      | O =>
          if prefix sep s
          then cur :: split_go sep r (String.length sep - 1) EmptyString
          else split_go sep r 0 (cur ++ String c EmptyString)%string
      end
  end.

Definition split (sep s : string) : list string := split_go sep s 0 EmptyString.

(** [s.indexOf(w, from)], [-1] when there is no occurrence. *)
Definition indexOf (s w : string) (from : nat) : Z :=
  match index from w s with
  | Some i => Z.of_nat i
  | None => (-1)%Z
  end.

(** [arr.join(sep)]. *)
Definition join (sep : string) (l : list string) : string := String.concat sep l.

(** [arr.slice(-2)]. *)
Definition slice_last2 {A} (l : list A) : list A := skipn (length l - 2) l.

(** [arr.slice(i)] for [0 <= i]. *)
Definition slice_from {A} (i : nat) (l : list A) : list A := skipn i l.

(** [set.has(x)] / [arr.includes(x)] on strings. *)
Definition has (x : string) (l : list string) : bool := existsb (String.eqb x) l.

(** [obj[k]] on a table given in source order. *)
Fixpoint lookup {V} (k : string) (t : list (string * V)) : option V :=
  match t with
  | [] => None
  | (k', v) :: r => if String.eqb k k' then Some v else lookup k r
  end.

(** The property names every object literal inherits from
    [Object.prototype]: [obj[k]] is not [undefined] for them. *)
Definition objectPrototypeNames : list string :=
  ["constructor"; "__defineGetter__"; "__defineSetter__"; "hasOwnProperty";
   "__lookupGetter__"; "__lookupSetter__"; "isPrototypeOf";
   "propertyIsEnumerable"; "toString"; "valueOf"; "__proto__"; "toLocaleString"].

Definition inherited (k : string) : bool := has k objectPrototypeNames.

Definition one (c : ascii) : string := String c EmptyString.

(** Every character of the string passes the test. *)
Fixpoint all_chars (P : ascii -> bool) (s : string) : bool :=
  match s with
  | EmptyString => true
  | String c r => P c && all_chars P r
  end.

(** [s.includes(c)] for one character. *)
Fixpoint contains_char (c : ascii) (s : string) : bool :=
  match s with
  | EmptyString => false
  | String d r => Ascii.eqb d c || contains_char c r
  end.

(** Maximal runs of [[A-Za-z']]: [line.matchAll(/[A-Za-z']+/g)] and
    [line.match(/[A-Za-z']+/g) || []], each run with the index
    where it starts. *)
Fixpoint runs_go (s : string) (pos : nat) (cur : option (nat * string))
  : list (nat * string) :=
  match s with
  | EmptyString => match cur with Some m => [m] | None => [] end
  | String c r =>
      if in_token_class c then
        match cur with
        | Some (p, w) => runs_go r (S pos) (Some (p, (w ++ one c)%string))
        | None => runs_go r (S pos) (Some (pos, one c))
        end
      else
        match cur with
        | Some m => m :: runs_go r (S pos) None
        | None => runs_go r (S pos) None
        end
  end.

Definition matchAll_token (line : string) : list (nat * string) :=
  runs_go line 0 None.

(** [\b]: exactly one of the two neighbours is a [\w] character. *)
Definition is_w (c : option ascii) : bool :=
  match c with Some c => is_word_char c | None => false end.

Definition word_boundary (prev next : option ascii) : bool :=
  xorb (is_w prev) (is_w next).

Fixpoint class_run (s : string) : nat :=
  match s with
  | String c r => if in_token_class c then S (class_run r) else 0
  | EmptyString => 0
  end.

(** The greedy [+] gives back characters until [\b] holds at the
    end: lengths [k], [k-1], ..., [1] are tried in turn. *)
Fixpoint backtrack (s : string) (k : nat) : option nat :=
  match k with
  | O => None
  | S k' =>
      if word_boundary (get k' s) (get k s) then Some k else backtrack s k'
  end.

(** [line.match(/\b[A-Za-z']+\b/g) || []]. *)
Fixpoint bounded_go (prev : option ascii) (s : string) (skip : nat) : list string :=
  match s with
  | EmptyString => []
  | String c r =>
      match skip with
      | S k => bounded_go (Some c) r k
      | O =>
          if word_boundary prev (Some c) then
            match backtrack s (class_run s) with
            | Some len => substring 0 len s :: bounded_go (Some c) r (len - 1)
            | None => bounded_go (Some c) r 0
            end
          else bounded_go (Some c) r 0
      end
  end.

Definition match_bounded_token (line : string) : list string :=
  bounded_go None line 0.

End JS.

(** Decimal literals of the source. *)
Notation "'q0_05'" := (5 # 100)%Q.
Notation "'q0_25'" := (25 # 100)%Q.
Notation "'q0_3'" := (3 # 10)%Q.
Notation "'q0_35'" := (35 # 100)%Q.
Notation "'q0_5'" := (5 # 10)%Q.
Notation "'q0_6'" := (6 # 10)%Q.
Notation "'q0_7'" := (7 # 10)%Q.
Notation "'q0_95'" := (95 # 100)%Q.

(** [Math.min]. *)
Definition Math_min (a b : Q) : Q := if Qle_bool a b then a else b.

(** The vowel tables are the same in every build. *)
Definition ARPA_VOWELS : list string :=
  ["AA"; "AE"; "AH"; "AO"; "AW"; "AY"; "EH"; "ER"; "EY"; "IH"; "IY"; "OW"; "OY"; "UH"; "UW"].

Definition VOWEL_CLASSES : list (string * string) :=
  [("IY", "EE"); ("IH", "I"); ("EH", "E"); ("AE", "A"); ("AA", "AH"); ("AH", "UH");
   ("AO", "OR"); ("OW", "O"); ("UH", "U"); ("UW", "OO"); ("EY", "AY"); ("AY", "EYE");
   ("OY", "OY"); ("AW", "OW"); ("ER", "ER")].

(* ================================================================== *)
(** ** The minimal engine *)
(* ================================================================== *)

Module Minimal.

Definition CUSTOM_ARPA : list (string * list string) :=
  [("ya", ["Y"; "AA1"]);
   ("gonna", ["G"; "AH1"; "N"; "AH0"]);
   ("wanna", ["W"; "AA1"; "N"; "AH0"]);
   ("ain't", ["EY1"; "N"; "T"]);
   ("bruh", ["B"; "R"; "AH1"]);
   ("nah", ["N"; "AA1"]);
   ("yo", ["Y"; "OW1"]);
   ("playin'", ["P"; "L"; "EY1"; "IH0"; "N"]);
   ("playin", ["P"; "L"; "EY1"; "IH0"; "N"]);
   ("puttin'", ["P"; "UH1"; "T"; "IH0"; "N"]);
   ("puttin", ["P"; "UH1"; "T"; "IH0"; "N"]);
   ("messin'", ["M"; "EH1"; "S"; "IH0"; "N"]);
   ("messin", ["M"; "EH1"; "S"; "IH0"; "N"]);
   ("comin'", ["K"; "AH1"; "M"; "IH0"; "N"]);
   ("comin", ["K"; "AH1"; "M"; "IH0"; "N"]);
   ("swimmin'", ["S"; "W"; "IH1"; "M"; "IH0"; "N"]);
   ("swimmin", ["S"; "W"; "IH1"; "M"; "IH0"; "N"]);
   ("sittin'", ["S"; "IH1"; "T"; "IH0"; "N"]);
   ("sittin", ["S"; "IH1"; "T"; "IH0"; "N"])].

Definition consonantMap : list (string * string) :=
  [("b", "B"); ("c", "K"); ("d", "D"); ("f", "F"); ("g", "G"); ("h", "HH");
   ("j", "JH"); ("k", "K"); ("l", "L"); ("m", "M"); ("n", "N"); ("p", "P");
   ("r", "R"); ("s", "S"); ("t", "T"); ("v", "V"); ("w", "W"); ("z", "Z")].

(** The chain of conditionals choosing the vowel of a letter. *)
Definition letter_vowel (ch : string) : string :=
  if String.eqb ch "a" then "AE"
  else if String.eqb ch "e" then "EH"
  else if String.eqb ch "i" then "IH"
  else if String.eqb ch "o" then "AO"
  else if String.eqb ch "u" then "AH"
  else "IH".

(** The loop over the characters of [cleaned]; [stressed] is the flag
    of the same name. *)
Fixpoint phones_loop (cleaned : string) (stressed : bool) : list string :=
  match cleaned with
  | EmptyString => []
  | String c r =>
      let ch := JS.one c in
      if JS.has ch ["a"; "e"; "i"; "o"; "u"; "y"] then
        let stress := if negb stressed then "1" else "0" in
        (letter_vowel ch ++ stress)%string :: phones_loop r true
      else
        match JS.lookup ch consonantMap with
        | Some p => p :: phones_loop r stressed
        | None => phones_loop r stressed
        end
  end.

(** [word.toLowerCase().replace(/[^\w']/g, '')]. *)
Definition clean (word : string) : string :=
  JS.keep_chars (fun c => JS.is_word_char c || Ascii.eqb c JS.apostrophe)
                (JS.toLowerCase word).

(** [CUSTOM_ARPA[cleaned]] also finds what an object literal inherits:
    for such a name ([constructor] is the one a token can be) the
    lookup gives a function or an object, which is truthy and is
    returned as it is.  [None] stands for that value. *)
Definition wordToPhones (word : string) : option (list string) :=
  let cleaned := clean word in
  if JS.inherited cleaned then None
  else
    match JS.lookup cleaned CUSTOM_ARPA with
    | Some phones => Some phones
    | None => Some (phones_loop cleaned false)
    end.

(** [p.replace(/[0-2]$/, '')]: a final stress digit is removed. *)
Definition strip_stress (p : string) : string :=
  match JS.last_char p with
  | Some d => if (48 <=? JS.code d) && (JS.code d <=? 50) then JS.drop_last p else p
  | None => p
  end.

Definition is_vowel (phone : string) : bool :=
  JS.has (strip_stress phone) ARPA_VOWELS.

(** The loop [for (i = phones.length - 1; i >= 0; i--)]: [n] indices
    remain to be visited, the next one is [n - 1]. *)
Fixpoint last_vowel_index (phones : list string) (n : nat) : option nat :=
  match n with
  | O => None
  | S i =>
      if is_vowel (nth i phones "") then Some i else last_vowel_index phones i
  end.

Definition getRhymeTail (phones : list string) : list string :=
  match last_vowel_index phones (length phones) with
  | Some i => JS.slice_from i phones
  | None => JS.slice_last2 phones
  end.

(** One turn of the loop of [scoreRhyme]. *)
Definition score_step (tail1 tail2 : list string) (score : Q) (i : nat) : Q :=
  let p1 := strip_stress (nth (length tail1 - 1 - i) tail1 "") in
  let p2 := strip_stress (nth (length tail2 - 1 - i) tail2 "") in
  if String.eqb p1 p2 then
    (score + 1 / inject_Z (Z.of_nat (i + 1)))%Q
  else if
    (* VOWEL_CLASSES[p1] === VOWEL_CLASSES[p2], with p1 !== p2: the same
       label, or undefined twice; two inherited values differ *)
    match JS.lookup p1 VOWEL_CLASSES, JS.lookup p2 VOWEL_CLASSES with
    | Some a, Some b => String.eqb a b
    | None, None => negb (JS.inherited p1) && negb (JS.inherited p2)
    | _, _ => false
    end
  then (score + q0_5 / inject_Z (Z.of_nat (i + 1)))%Q
  else score.

Definition scoreRhyme (tail1 tail2 : list string) : Q :=
  if (length tail1 =? 0) || (length tail2 =? 0) then 0%Q
  else
    let t1 := JS.join " " tail1 in
    let t2 := JS.join " " tail2 in
    if String.eqb t1 t2 then 1%Q
    else
      let minLen := Nat.min (length tail1) (length tail2) in
      Math_min q0_95 (fold_left (score_step tail1 tail2) (seq 0 minLen) 0%Q).

Record word := {
  text : string;
  line : nat;
  start : Z;
  end_ : Z;
  phones : list string;
  tail : list string
}.

(** [words.forEach] inside one line: the state is the list of words
    so far and [linePos].  On an inherited value [getRhymeTail] raises
    a [TypeError] ([phones[0]] is [undefined]): [None]. *)
Definition word_step (ln : string) (lineIndex : nat) (globalPos : Z)
  (st : option (list word * Z)) (w : string) : option (list word * Z) :=
  match st with
  | None => None
  | Some (allWords, linePos) =>
      let wordStart := JS.indexOf ln w (Z.to_nat linePos) in
      let start := (globalPos + wordStart)%Z in
      match wordToPhones w with
      | None => None
      | Some phones =>
          Some (allWords ++ [{| text := w; line := lineIndex; start := start;
                                end_ := (start + Z.of_nat (String.length w))%Z;
                                phones := phones; tail := getRhymeTail phones |}],
                (wordStart + Z.of_nat (String.length w))%Z)
      end
  end.

(** [lines.forEach]: the state is the list of words, [globalPos] and
    the index of the line. *)
Definition line_step (st : option (list word * Z * nat)) (ln : string)
  : option (list word * Z * nat) :=
  match st with
  | None => None
  | Some (allWords, globalPos, lineIndex) =>
      let words := JS.match_bounded_token ln in
      match fold_left (word_step ln lineIndex globalPos) words
                      (Some (allWords, 0%Z)) with
      | None => None
      | Some (allWords', _) =>
          Some (allWords',
                (globalPos + Z.of_nat (String.length ln) + 1)%Z, S lineIndex)
      end
  end.

Definition tokenize (text : string) : option (list word) :=
  let lines := JS.split (JS.one JS.newline) text in
  match fold_left line_step lines (Some ([], 0%Z, 0)) with
  | Some (allWords, _, _) => Some allWords
  | None => None
  end.

Definition lowerText (allWords : list word) (i : nat) : string :=
  match nth_error allWords i with
  | Some w => JS.toLowerCase (text w)
  | None => ""
  end.

Definition tailOf (allWords : list word) (i : nat) : list string :=
  match nth_error allWords i with
  | Some w => tail w
  | None => []
  end.

(** The inner loop over [j]: the state is [group] and [assigned]. *)
Definition inner_step (allWords : list word) (threshold : Q) (i : nat)
  (st : list nat * list nat) (j : nat) : list nat * list nat :=
  let '(group, assigned) := st in
  if existsb (Nat.eqb j) assigned then st
  else
    let score := scoreRhyme (tailOf allWords i) (tailOf allWords j) in
    if Qle_bool threshold score
       && negb (String.eqb (lowerText allWords i) (lowerText allWords j))
    then (group ++ [j], j :: assigned)
    else st.

(** The outer loop over [i]: the state is [groups] and [assigned]. *)
Definition outer_step (allWords : list word) (threshold : Q)
  (st : list (list nat) * list nat) (i : nat) : list (list nat) * list nat :=
  let '(groups, assigned) := st in
  if existsb (Nat.eqb i) assigned then st
  else
    let n := length allWords in
    let '(group, assigned') :=
      fold_left (inner_step allWords threshold i)
                (seq (i + 1) (n - (i + 1))) ([i], i :: assigned) in
    if 2 <=? length group then (groups ++ [group], assigned')
    else (groups, assigned').

Definition findGroups (allWords : list word) (threshold : Q) : list (list nat) :=
  fst (fold_left (outer_step allWords threshold)
                 (seq 0 (length allWords)) ([], [])).

Record analysis := {
  words : list word;
  groups : list (list nat)
}.

(** [None]: the call raises. *)
Definition analyzeText (text : string) (threshold : Q) : option analysis :=
  match tokenize text with
  | Some allWords =>
      Some {| words := allWords; groups := findGroups allWords threshold |}
  | None => None
  end.

Definition nl : string := JS.one JS.newline.

(** Two tokens with the same lower-cased text never share a group:
    the property of self-exclusion, on a result of [analyzeText]. *)
Definition selfExclusive (r : analysis) : Prop :=
  forall g i j, In g (groups r) -> In i g -> In j g -> i <> j ->
    lowerText (words r) i <> lowerText (words r) j.

(** A phoneme code holds no blank. *)
Definition noSpace (p : string) : bool := negb (JS.contains_char JS.space p).

End Minimal.

(* ================================================================== *)
(** ** The engine of main.js: class RhymeAnalyzer *)
(* ================================================================== *)

Module Main.

Definition CONSONANT_PAIRS : list (string * string) :=
  [("S", "Z"); ("F", "V"); ("T", "D"); ("K", "G"); ("P", "B");
   ("SH", "ZH"); ("CH", "JH"); ("TH", "DH"); ("M", "N")].

Definition STOP_WORDS : list string :=
  ["the"; "and"; "a"; "an"; "in"; "on"; "of"; "is"; "to"; "for"; "with"; "that";
   "this"; "these"; "those"; "are"; "be"; "i"; "you"; "he"; "she"; "it"; "we";
   "they"; "at"; "from"; "as"; "by"; "or"; "if"; "then"; "but"; "my"; "me";
   "your"; "our"; "their"; "his"; "her"; "im"; "i'm"; "ya"; "'em"; "em";
   "ain't"; "aint"; "uh"; "yeah"].

Definition CUSTOM_ARPA : list (string * list string) :=
  [("ya", ["Y"; "AA1"]); ("yall", ["Y"; "AO1"; "L"]); ("y'all", ["Y"; "AO1"; "L"]);
   ("gon", ["G"; "AA1"; "N"]); ("gonna", ["G"; "AH1"; "N"; "AH0"]);
   ("wanna", ["W"; "AA1"; "N"; "AH0"]); ("bru", ["B"; "R"; "UW1"]);
   ("'em", ["AH0"; "M"]); ("em", ["AH0"; "M"]); ("lekker", ["L"; "EH1"; "K"; "ER0"]);
   ("kak", ["K"; "AA1"; "K"]); ("finna", ["F"; "IH1"; "N"; "AH0"]);
   ("tryna", ["T"; "R"; "AY1"; "N"; "AH0"]); ("boutta", ["B"; "AW1"; "T"; "AH0"]);
   ("hella", ["HH"; "EH1"; "L"; "AH0"]); ("ayy", ["EY1"]); ("bruh", ["B"; "R"; "AH1"]);
   ("nah", ["N"; "AA1"]); ("aight", ["AY1"; "T"]); ("yo", ["Y"; "OW1"]);
   ("wassup", ["W"; "AH1"; "S"; "AH0"; "P"]); ("whatchu", ["W"; "AH1"; "CH"; "UW0"]);
   ("cuz", ["K"; "AH1"; "Z"]); ("homie", ["HH"; "OW1"; "M"; "IY0"]);
   ("thru", ["TH"; "R"; "UW1"]); ("tho", ["DH"; "OW1"])].

Definition VOWEL_PATTERNS : list (string * string) :=
  [("eigh", "EY"); ("ough", "AO"); ("augh", "AO"); ("eau", "OW"); ("igh", "AY");
   ("oi", "OY"); ("oy", "OY"); ("ow", "AW"); ("ou", "AW"); ("ai", "EY");
   ("ay", "EY"); ("ey", "EY"); ("ea", "IY"); ("ee", "IY"); ("ie", "IY");
   ("oa", "OW"); ("oo", "UW"); ("eu", "UW"); ("au", "AO"); ("aw", "AO");
   ("ur", "ER"); ("ir", "ER"); ("er", "ER"); ("ar", "AA"); ("or", "AO")].

Definition CONSONANT_DIGRAPHS : list (string * string) :=
  [("ch", "CH"); ("sh", "SH"); ("th", "TH"); ("ph", "F"); ("wh", "W"); ("gh", "G");
   ("ng", "NG"); ("qu", "KW"); ("ck", "K"); ("kn", "N"); ("wr", "R"); ("ps", "S")].

Definition SIMPLE_VOWELS : list (string * string) :=
  [("a", "AE"); ("e", "EH"); ("i", "IH"); ("o", "AO"); ("u", "AH"); ("y", "IH")].

Definition CONSONANT_MAP : list (string * string) :=
  [("b", "B"); ("c", "K"); ("d", "D"); ("f", "F"); ("g", "G"); ("h", "HH");
   ("j", "JH"); ("k", "K"); ("l", "L"); ("m", "M"); ("n", "N"); ("p", "P");
   ("q", "K"); ("r", "R"); ("s", "S"); ("t", "T"); ("v", "V"); ("w", "W");
   ("x", "K"); ("z", "Z")].

(** [buildConsonantEquivalence]: the map from a consonant to the set of
    its partners, filled pair by pair. *)
Fixpoint equiv_add (a b : string) (m : list (string * list string))
  : list (string * list string) :=
  match m with
  | [] => [(a, [b])]
  | (k, v) :: r =>
      if String.eqb k a then (k, if JS.has b v then v else v ++ [b]) :: r
      else (k, v) :: equiv_add a b r
  end.

Definition buildConsonantEquivalence : list (string * list string) :=
  fold_left (fun m '(a, b) => equiv_add b a (equiv_add a b m)) CONSONANT_PAIRS [].

Definition consonantEquivalence : list (string * list string) :=
  Eval cbv in buildConsonantEquivalence.

(** [cleanWord]: [word.toLowerCase().replace(/[^\\w']/g, '').trim()].
    In the regular-expression literal the two characters [\\] are an
    escaped backslash, so the negated class lists three characters:
    backslash, [w] and apostrophe.  Every other character is removed.
    (The minimal build writes the class as [[^\w']].) *)
Definition cleanWord_class (c : ascii) : bool :=
  Ascii.eqb c JS.backslash || Ascii.eqb c "w"%char || Ascii.eqb c JS.apostrophe.

Definition cleanWord (word : string) : string :=
  JS.trim (JS.keep_chars cleanWord_class (JS.toLowerCase word)).

(** [normalizePhone]: [phone.replace(/\\d/g, '')].  The literal is an
    escaped backslash followed by the letter [d]: every occurrence of
    these two characters is removed, from left to right.  Digits stay. *)
Fixpoint normalizePhone (phone : string) : string :=
  match phone with
  | EmptyString => EmptyString
  | String c1 r1 =>
      match r1 with
      | String c2 r2 =>
          if Ascii.eqb c1 JS.backslash && Ascii.eqb c2 "d"%char
          then normalizePhone r2
          else String c1 (normalizePhone r1)
      | EmptyString => String c1 EmptyString
      end
  end.

Definition isVowelPhone (phone : string) : bool :=
  JS.has (normalizePhone phone) ARPA_VOWELS.

(** [for (const [pattern, phoneme] of table)
       if (w.substr(i, pattern.length) === pattern) ...; break]:
    the first entry whose pattern starts the rest of the word. *)
Fixpoint first_prefix (table : list (string * string)) (rest : string)
  : option (string * string) :=
  match table with
  | [] => None
  | (pattern, phoneme) :: t =>
      if prefix pattern rest then Some (pattern, phoneme) else first_prefix t rest
  end.

(** The [while (i < w.length)] loop of [g2pHeuristic] on the rest of
    the word from [i]; [skip] characters were consumed by the last
    pattern and are passed over. *)
Fixpoint g2p_loop (w : string) (skip : nat) (stressed : bool) : list string :=
  match w with
  | EmptyString => []
  | String c r =>
      match skip with
      | S k => g2p_loop r k stressed
      | O =>
          let stress := if negb stressed then "1" else "0" in
          match first_prefix VOWEL_PATTERNS w with
          | Some (pattern, phoneme) =>
              (phoneme ++ stress)%string
                :: g2p_loop r (String.length pattern - 1) true
          | None =>
              match first_prefix CONSONANT_DIGRAPHS w with
              | Some (digraph, phoneme) =>
                  phoneme :: g2p_loop r (String.length digraph - 1) stressed
              | None =>
                  let ch := JS.one c in
                  if JS.has ch ["a"; "e"; "i"; "o"; "u"; "y"] then
                    let phoneme :=
                      match JS.lookup ch SIMPLE_VOWELS with
                      | Some p => p
                      | None => "AH"
                      end in
                    (phoneme ++ stress)%string :: g2p_loop r 0 true
                  else
                    match JS.lookup ch CONSONANT_MAP with
                    | Some phoneme => phoneme :: g2p_loop r 0 stressed
                    | None => g2p_loop r 0 stressed
                    end
              end
          end
      end
  end.

(** The clean-up loop: a phone equal to the last one kept is dropped
    unless it is a vowel. *)
Definition dedupe_step (result : list string) (phone : string) : list string :=
  if (length result =? 0)
     || negb (String.eqb (last result "") phone)
     || isVowelPhone phone
  then result ++ [phone]
  else result.

Definition g2pHeuristic (word : string) : list string :=
  let w := JS.toLowerCase word in
  let phones := g2p_loop w 0 false in
  let filtered := filter (fun p => negb (String.eqb p "")) phones in
  fold_left dedupe_step filtered [].

Definition wordToPhones (word : string) : list string :=
  let cleaned := cleanWord word in
  match JS.lookup cleaned CUSTOM_ARPA with
  | Some phones => phones
  | None => g2pHeuristic cleaned
  end.

(** [syllabify]: the state of the loop is [syllables], [current] and
    [stressIndex]. *)
Definition syllabify_step (st : list (list string) * list string * option nat)
  (phone : string) : list (list string) * list string * option nat :=
  let '(syllables, current, stressIndex) := st in
  if isVowelPhone phone then
    let syllables' :=
      if 0 <? length current then syllables ++ [current] else syllables in
    (syllables', [phone],
     if JS.endsWith phone "1" then Some (length syllables') else stressIndex)
  else (syllables, current ++ [phone], stressIndex).

Definition syllabify (phones : list string) : list (list string) * option nat :=
  let '(syllables, current, stressIndex) :=
    fold_left syllabify_step phones ([], [], None) in
  let syllables' :=
    if 0 <? length current then syllables ++ [current] else syllables in
  let stressIndex' :=
    match stressIndex with
    | None => if 0 <? length syllables' then Some (length syllables' - 1) else None
    | Some i => Some i
    end in
  (syllables', stressIndex').

Definition fold_table : list (string * string) :=
  [("Z", "S"); ("V", "F"); ("D", "T"); ("G", "K"); ("B", "P");
   ("ZH", "SH"); ("JH", "CH"); ("DH", "TH")].

Definition normalizeCoda (coda : list string) : list string :=
  let result :=
    map (fun c => match JS.lookup (normalizePhone c) fold_table with
                  | Some v => v
                  | None => normalizePhone c
                  end) coda in
  if (0 <? length result) && String.eqb (last result "") "HH"
  then removelast result
  else result.

Definition families : list (list string) :=
  [["EE"; "I"; "E"];
   ["A"; "AH"; "ER"; "UH"];
   ["O"; "OR"; "OO"; "U"];
   ["EYE"; "OW"; "OY"; "AY"]].

Fixpoint family_loop (fs : list (list string)) (i : nat) (vowel : string) : nat :=
  match fs with
  | [] => 9
  | f :: r => if JS.has vowel f then i else family_loop r (S i) vowel
  end.

Definition getVowelFamily (vowel : string) : nat := family_loop families 0 vowel.

(** A JavaScript condition on a string or [null]: [null] and the empty
    string are falsy. *)
Definition truthy (o : option string) : bool :=
  match o with
  | Some s => negb (String.eqb s "")
  | None => false
  end.

Definition extract_step (st : option string * list string) (phone : string)
  : option string * list string :=
  let '(nucleus, coda) := st in
  let base := normalizePhone phone in
  if JS.has base ARPA_VOWELS then
    (Some (match JS.lookup base VOWEL_CLASSES with
           | Some v => v
           | None => base
           end), coda)
  else
    match nucleus with
    | Some _ => (nucleus, coda ++ [base])
    | None => (nucleus, coda)
    end.

Definition extractNucleusAndCoda (syllable : list string)
  : option string * list string :=
  fold_left extract_step syllable (None, []).

Definition weakCodeas : list (list string) :=
  [["S"]; ["Z"]; ["R"]; ["L"]; ["T"]; ["D"]; ["N"]; ["M"]].

(** [JSON.stringify(a) === JSON.stringify(b)] on arrays of strings:
    the two arrays are equal. *)
Definition same_array (a b : list string) : bool :=
  if list_eq_dec string_dec a b then true else false.

Definition rhymeKey : Type := string * list string.

Definition getRhymeKey (syllables : list (list string)) (stressIndex : option nat)
  : option rhymeKey :=
  if length syllables =? 0 then None
  else
    let index := match stressIndex with
                 | Some i => i
                 | None => length syllables - 1
                 end in
    let clampedIndex := Nat.max 0 (Nat.min index (length syllables - 1)) in
    let '(nucleus, coda) := extractNucleusAndCoda (nth clampedIndex syllables []) in
    let isWeakCoda := (length coda <=? 1) || existsb (fun weak => same_array weak coda) weakCodeas in
    let '(finalNucleus, finalCoda) :=
      if isWeakCoda && (0 <? clampedIndex) then
        let '(prevNucleus, prevCoda) :=
          extractNucleusAndCoda (nth (clampedIndex - 1) syllables []) in
        (if truthy prevNucleus then
           Some (match prevNucleus with Some p => p | None => "" end
                 ++ "+" ++ match nucleus with Some n => n | None => "" end)%string
         else nucleus,
         prevCoda ++ coda)
      else (nucleus, coda) in
    if truthy finalNucleus then
      match finalNucleus with
      | Some n => Some (n, normalizeCoda finalCoda)
      | None => None
      end
    else None.

Definition keyPart (phone : string) : string :=
  let base := normalizePhone phone in
  if JS.has base ARPA_VOWELS then
    match JS.lookup base VOWEL_CLASSES with
    | Some v => v
    | None => base
    end
  else base.

Definition getMultisyllabicKey (syllables : list (list string)) (tail : nat)
  : option string :=
  if (length syllables =? 0) || (tail <=? 0) then None
  else
    let actualTail := Nat.min tail (length syllables) in
    let keyParts :=
      flat_map (map keyPart) (skipn (length syllables - actualTail) syllables) in
    if 0 <? length keyParts then Some (JS.join "-" keyParts) else None.

(** [n.split("+").pop() || n]: what follows the last separator, or
    the whole label when nothing follows it. *)
Definition finalComponent (n : string) : string :=
  let lastPart := last (JS.split "+" n) "" in
  if String.eqb lastPart "" then n else lastPart.

Definition nucleusDistance (n1 n2 : string) : Q :=
  if String.eqb n1 n2 then 0%Q
  else
    let a := finalComponent n1 in
    let b := finalComponent n2 in
    if String.eqb a b then q0_05
    else if getVowelFamily a =? getVowelFamily b then q0_25
    else q0_6.

(** [this.consonantEquivalence.get(a)?.has(b) ?? false]. *)
Definition equivalent (a b : string) : bool :=
  match JS.lookup a consonantEquivalence with
  | Some partners => JS.has b partners
  | None => false
  end.

Definition coda_step (c1 c2 : list string) (mismatches : Q) (i : nat) : Q :=
  let a := nth (length c1 - 1 - i) c1 "" in
  let b := nth (length c2 - 1 - i) c2 "" in
  if String.eqb a b || equivalent a b then mismatches
  else (mismatches + 1)%Q.

Definition codaDistance (c1 c2 : list string) : Q :=
  if same_array c1 c2 then 0%Q
  else if (length c1 =? 0) || (length c2 =? 0) then q0_6
  else
    let minLength := Nat.min (length c1) (length c2) in
    let mismatches := fold_left (coda_step c1 c2) (seq 0 minLength) 0%Q in
    let mismatches' :=
      (mismatches
       + inject_Z (Z.abs (Z.of_nat (length c1) - Z.of_nat (length c2))) * q0_5)%Q in
    Math_min 1%Q (mismatches' * q0_35)%Q.

Definition rhymeDistance (k1 k2 : rhymeKey) : Q :=
  (q0_7 * nucleusDistance (fst k1) (fst k2)
   + q0_3 * codaDistance (snd k1) (snd k2))%Q.

Record word := {
  line : nat;
  text : string;
  lower : string;
  phones : list string;
  syllables : list (list string);
  stress : option nat;
  position : nat
}.

Definition dummy_word : word :=
  {| line := 0; text := ""; lower := ""; phones := []; syllables := [];
     stress := None; position := 0 |}.

Fixpoint firstVowelClass (syllable : list string) : option string :=
  match syllable with
  | [] => None
  | phone :: r =>
      let base := normalizePhone phone in
      if JS.has base ARPA_VOWELS then
        Some (match JS.lookup base VOWEL_CLASSES with
              | Some v => v
              | None => base
              end)
      else firstVowelClass r
  end.

Definition getStressedVowel (w : word) : option string :=
  let stressIndex := match stress w with
                     | Some i => i
                     | None => length (syllables w) - 1
                     end in
  if stressIndex <? length (syllables w)
  then firstVowelClass (nth stressIndex (syllables w) [])
  else None.

Definition detectAssonance (w1 w2 : word) : bool :=
  if (length (syllables w1) =? 0) || (length (syllables w2) =? 0) then false
  else
    match getStressedVowel w1, getStressedVowel w2 with
    | Some v1, Some v2 =>
        String.eqb v1 v2 || (getVowelFamily v1 =? getVowelFamily v2)
    | _, _ => false
    end.

(** [isLineEnd]: the loop starts after [wordIndex]; its body returns
    in the first turn. *)
Fixpoint isLineEnd_loop (ln : nat) (rest : list word) : bool :=
  match rest with
  | [] => true
  | w :: r =>
      if negb (line w =? ln) then true
      else if line w =? ln then false
      else isLineEnd_loop ln r
  end.

Definition isLineEnd (wordIndex : nat) (words : list word) : bool :=
  isLineEnd_loop (line (nth wordIndex words dummy_word)) (skipn (wordIndex + 1) words).

Inductive rhymeType := rhyme | assonance.

Definition rhymeType_eqb (a b : rhymeType) : bool :=
  match a, b with
  | rhyme, rhyme | assonance, assonance => true
  | _, _ => false
  end.

(** An entry [[groupId, tail, type]] of [wordToGroup]. *)
Definition entry : Type := nat * nat * rhymeType.

(** [wordToGroup] is an object keyed by word index: here the list of
    the entries of each word, empty for a key that is not set (the
    code reads a key as [wordToGroup[i] || []]). *)
Definition wordToGroupMap : Type := list (list entry).

Definition entriesOf (wordToGroup : wordToGroupMap) (i : nat) : list entry :=
  nth i wordToGroup [].

Fixpoint pushEntry (wordToGroup : wordToGroupMap) (i : nat) (e : entry)
  : wordToGroupMap :=
  match wordToGroup, i with
  | [], _ => []
  | es :: r, O => (es ++ [e]) :: r
  | es :: r, S k => es :: pushEntry r k e
  end.

(** [Math.max(...xs, -1)] on line numbers. *)
Definition maxLine (words : list word) : Z :=
  fold_left Z.max (map (fun w => Z.of_nat (line w)) words) (-1)%Z.

(** The search [for (i = words.length - 1; i >= 0; i--)] for the last
    word of a line: [n] indices remain, the next one is [n - 1]. *)
Fixpoint lastWordOfLine (words : list word) (ln : nat) (n : nat) : option nat :=
  match n with
  | O => None
  | S i =>
      if line (nth i words dummy_word) =? ln then Some i
      else lastWordOfLine words ln i
  end.

Fixpoint lookupNat {V} (k : nat) (t : list (nat * V)) : option V :=
  match t with
  | [] => None
  | (k', v) :: r => if k =? k' then Some v else lookupNat k r
  end.

(** [String.fromCharCode] on the codes the scheme uses. *)
Definition fromCharCode (n : nat) : string := JS.one (ascii_of_nat n).

(** [buildScheme]: the state of the loop over the lines is
    [groupIdToLetter], [nextCharCode] and [sequence]. *)
Definition scheme_step (words : list word) (wordToGroup : wordToGroupMap)
  (st : list (nat * string) * nat * list string) (ln : nat)
  : list (nat * string) * nat * list string :=
  let '(groupIdToLetter, nextCharCode, sequence) := st in
  match lastWordOfLine words ln (length words) with
  | None => (groupIdToLetter, nextCharCode, sequence ++ ["-"])
  | Some lastWordIndex =>
      match entriesOf wordToGroup lastWordIndex with
      | [] => (groupIdToLetter, nextCharCode, sequence ++ ["-"])
      | (groupId, _, _) :: _ =>
          match lookupNat groupId groupIdToLetter with
          | Some letter => (groupIdToLetter, nextCharCode, sequence ++ [letter])
          | None =>
              let letter := fromCharCode nextCharCode in
              (groupIdToLetter ++ [(groupId, letter)], S nextCharCode,
               sequence ++ [letter])
          end
      end
  end.

Definition buildScheme (words : list word) (wordToGroup : wordToGroupMap) : string :=
  let lines := seq 0 (Z.to_nat (maxLine words + 1)) in
  let '(_, _, sequence) :=
    fold_left (scheme_step words wordToGroup) lines ([], 65, []) in
  JS.join "" sequence.

Record settings := {
  perfectThreshold : Q;
  slantThreshold : Q;
  highlightAssonance : bool;
  showInternalRhymes : bool
}.

(** The body of the loop over the matches of one line. *)
Definition match_step (lineIndex : nat) (words : list word) (m : nat * string)
  : list word :=
  let '(index, w) := m in
  let cleaned := cleanWord w in
  if JS.has cleaned STOP_WORDS && (String.length cleaned <=? 2) then words
  else
    let phones := wordToPhones cleaned in
    let '(syllables, stress) := syllabify phones in
    words ++ [{| line := lineIndex; text := w; lower := cleaned;
                 phones := phones; syllables := syllables; stress := stress;
                 position := index |}].

Definition line_step (st : list word * nat) (ln : string) : list word * nat :=
  let '(words, lineIndex) := st in
  (fold_left (match_step lineIndex) (JS.matchAll_token ln) words, S lineIndex).

(** [text.split('\\n')]: in the string literal [\\] is an escaped
    backslash, so the separator is the two characters backslash and
    [n], not a line feed. *)
Definition lineSeparator : string := String JS.backslash "n".

Definition splitLines (text : string) : list string := JS.split lineSeparator text.

Definition tokenize (text : string) : list word :=
  fst (fold_left line_step (splitLines text) ([], 0)).

Record span := {
  wordIndex : nat;
  spanLine : nat;
  key : rhymeKey;
  tail : nat;
  multiKeys : list (nat * string)
}.

Definition dummy_span : span :=
  {| wordIndex := 0; spanLine := 0; key := ("", []); tail := 0; multiKeys := [] |}.

(** [for (t = 2; t < Math.min(4, word.syllables.length + 1); t++)]. *)
Definition multiKeys_of (syls : list (list string)) : list (nat * string) :=
  fold_left
    (fun acc t =>
       match getMultisyllabicKey syls t with
       | Some multiKey => if truthy (Some multiKey) then acc ++ [(t, multiKey)] else acc
       | None => acc
       end)
    (seq 2 (Nat.min 4 (length syls + 1) - 2)) [].

Definition span_step (words : list word) (spans : list span) (i : nat) : list span :=
  let w := nth i words dummy_word in
  match getRhymeKey (syllables w) (stress w) with
  | Some k =>
      let stressIndex := match stress w with
                         | Some s => s
                         | None => length (syllables w) - 1
                         end in
      spans ++ [{| wordIndex := i; spanLine := line w; key := k;
                   tail := Nat.max 1 (length (syllables w) - stressIndex);
                   multiKeys := multiKeys_of (syllables w) |}]
  | None => spans
  end.

Definition buildSpans (words : list word) : list span :=
  fold_left (span_step words) (seq 0 (length words)) [].

(** [used[i] = true] on the array of flags. *)
Fixpoint setUsed (used : list bool) (i : nat) : list bool :=
  match used, i with
  | [], _ => []
  | _ :: r, O => true :: r
  | b :: r, S k => b :: setUsed r k
  end.

(** [for (const tail of [3, 2])]: the two spans carry the same
    multi-syllable key for one of the tails. *)
Definition multiMatch (si sj : span) : bool :=
  existsb
    (fun t =>
       match lookupNat t (multiKeys si), lookupNat t (multiKeys sj) with
       | Some a, Some b => truthy (Some a) && truthy (Some b) && String.eqb a b
       | _, _ => false
       end)
    [3; 2].

Definition lowerOfSpan (words : list word) (spans : list span) (i : nat) : string :=
  lower (nth (wordIndex (nth i spans dummy_span)) words dummy_word).

Definition pairThreshold (cfg : settings) (isLineEndI isLineEndJ : bool) : Q :=
  if isLineEndI && isLineEndJ then perfectThreshold cfg
  else if isLineEndI || isLineEndJ
       then ((perfectThreshold cfg + slantThreshold cfg) / 2)%Q
       else slantThreshold cfg.

(** The inner loop over [j]: the state is [groupIndices] and [used]. *)
Definition group_inner_step (cfg : settings) (words : list word)
  (spans : list span) (i : nat) (st : list nat * list bool) (j : nat)
  : list nat * list bool :=
  let '(groupIndices, used) := st in
  if nth j used false then st
  else if String.eqb (lowerOfSpan words spans i) (lowerOfSpan words spans j) then st
  else
    let si := nth i spans dummy_span in
    let sj := nth j spans dummy_span in
    if multiMatch si sj then (groupIndices ++ [j], setUsed used j)
    else
      let distance := rhymeDistance (key si) (key sj) in
      let isLineEndI := isLineEnd (wordIndex si) words in
      let isLineEndJ := isLineEnd (wordIndex sj) words in
      let threshold := pairThreshold cfg isLineEndI isLineEndJ in
      if Qle_bool distance threshold then (groupIndices ++ [j], setUsed used j)
      else st.

(** The outer loop over [i]: the state is the list of the groups (as
    lists of span indices) and [used]. *)
Definition group_outer_step (cfg : settings) (words : list word)
  (spans : list span) (st : list (list nat) * list bool) (i : nat)
  : list (list nat) * list bool :=
  let '(groups, used) := st in
  if nth i used false then st
  else
    let '(groupIndices, used') :=
      fold_left (group_inner_step cfg words spans i)
                (seq (i + 1) (length spans - (i + 1)))
                ([i], setUsed used i) in
    if 2 <=? length groupIndices then (groups ++ [groupIndices], used')
    else (groups, used').

Definition groupIndices (cfg : settings) (words : list word) (spans : list span)
  : list (list nat) :=
  fst (fold_left (group_outer_step cfg words spans)
                 (seq 0 (length spans))
                 ([], repeat false (length spans))).

Record group := {
  spans : list span;
  type : rhymeType
}.

Definition rhymeGroups (cfg : settings) (words : list word) (sps : list span)
  : list group :=
  map (fun g => {| spans := map (fun idx => nth idx sps dummy_span) g;
                   type := rhyme |})
      (groupIndices cfg words sps).

(** The assonance pass, on word indices. *)
Definition isStop (words : list word) (i : nat) : bool :=
  JS.has (lower (nth i words dummy_word)) STOP_WORDS.

Definition asso_inner_step (words : list word) (i : nat)
  (st : list nat * list bool) (j : nat) : list nat * list bool :=
  let '(grp, used) := st in
  if nth j used false || isStop words j then st
  else if String.eqb (lower (nth j words dummy_word)) (lower (nth i words dummy_word))
  then st
  else if detectAssonance (nth i words dummy_word) (nth j words dummy_word)
  then (grp ++ [j], setUsed used j)
  else st.

Definition asso_outer_step (words : list word)
  (st : list (list nat) * list bool) (i : nat) : list (list nat) * list bool :=
  let '(groups, used) := st in
  if nth i used false || isStop words i then st
  else
    let '(grp, used') :=
      fold_left (asso_inner_step words i)
                (seq (i + 1) (length words - (i + 1)))
                ([i], setUsed used i) in
    if 3 <=? length grp then (groups ++ [grp], used') else (groups, used').

Definition assonancePass (cfg : settings) (words : list word) : list (list nat) :=
  if highlightAssonance cfg then
    fst (fold_left (asso_outer_step words) (seq 0 (length words))
                   ([], repeat false (length words)))
  else [].

(** [groups.forEach] and [assonanceGroups.forEach] filling
    [wordToGroup]. *)
Definition buildWordToGroup (words : list word) (groups : list group)
  (assonanceGroups : list (list nat)) : wordToGroupMap :=
  let w0 : wordToGroupMap := repeat [] (length words) in
  let w1 :=
    fold_left
      (fun w '(groupId, g) =>
         fold_left (fun w sp => pushEntry w (wordIndex sp) (groupId, tail sp, rhyme))
                   (spans g) w)
      (combine (seq 0 (length groups)) groups) w0 in
  fold_left
    (fun w '(assonanceId, g) =>
       fold_left (fun w wi => pushEntry w wi (length groups + assonanceId, 1, assonance))
                 g w)
    (combine (seq 0 (length assonanceGroups)) assonanceGroups) w1.

(** The pairs of one line for [internalRhymes]. *)
Definition linePairs (cfg : settings) (lineWords : list (nat * word))
  : list (nat * nat) :=
  let n := length lineWords in
  let dflt := (0, dummy_word) in
  fold_left
    (fun pairs i =>
       fold_left
         (fun pairs j =>
            let '(wi1, w1) := nth i lineWords dflt in
            let '(wi2, w2) := nth j lineWords dflt in
            if String.eqb (lower w1) (lower w2) then pairs
            else
              match getRhymeKey (syllables w1) (stress w1),
                    getRhymeKey (syllables w2) (stress w2) with
              | Some k1, Some k2 =>
                  if Qle_bool (rhymeDistance k1 k2) (slantThreshold cfg)
                  then pairs ++ [(wi1, wi2)] else pairs
              | _, _ => pairs
              end)
         (seq (i + 1) (n - (i + 1))) pairs)
    (seq 0 n) [].

Definition internalPass (cfg : settings) (words : list word)
  : list (nat * list (nat * nat)) :=
  if showInternalRhymes cfg then
    fold_left
      (fun acc lineIndex =>
         let lineWords :=
           filter (fun iw => line (snd iw) =? lineIndex)
                  (combine (seq 0 (length words)) words) in
         let pairs := linePairs cfg lineWords in
         if 0 <? length pairs then acc ++ [(lineIndex, pairs)] else acc)
      (seq 0 (Z.to_nat (maxLine words + 1))) []
  else [].

Definition tailOf (e : entry) : nat := snd (fst e).
Definition typeOf (e : entry) : rhymeType := snd e.

(** [Math.max(...xs)] on a list of tails, [0] for the fallback. *)
Definition maxTail (es : list entry) : nat := fold_left Nat.max (map tailOf es) 0.

Fixpoint bump {K} (eqb : K -> K -> bool) (k : K) (d : nat) (t : list (K * nat))
  : list (K * nat) :=
  match t with
  | [] => [(k, d)]
  | (k', v) :: r => if eqb k k' then (k', v + d) :: r else (k', v) :: bump eqb k d r
  end.

Definition ratio (a b : nat) : Q :=
  (inject_Z (Z.of_nat a) / inject_Z (Z.of_nat b))%Q.

Record metrics := {
  totalSyllables : nat;
  rhymingSyllables : nat;
  density : Q;
  multiRatio : Q;
  avgPerLine : Q;
  scheme : string;
  rhymeTypes : list (rhymeType * nat);
  uniqueRhymeGroups : nat;
  uniqueAssonanceGroups : nat
}.

Definition buildMetrics (words : list word) (groups : list group)
  (assonanceGroups : list (list nat)) (wordToGroup : wordToGroupMap) : metrics :=
  let totalSyllables :=
    fold_left (fun sum w => sum + length (syllables w)) words 0 in
  let rhymingSyllables :=
    fold_left (fun sum i => sum + maxTail (entriesOf wordToGroup i))
              (seq 0 (length words)) 0 in
  (* Object.values / Object.entries visit the keys that are set *)
  let present :=
    filter (fun ie => 0 <? length (snd ie))
           (combine (seq 0 (length wordToGroup)) wordToGroup) in
  let multiSyllables :=
    fold_left
      (fun sum ie =>
         sum + fold_left (fun groupSum e =>
                            groupSum + (if 2 <=? tailOf e then tailOf e else 0))
                         (snd ie) 0)
      present 0 in
  let linesWithRhymes :=
    fold_left
      (fun acc ie =>
         bump Nat.eqb (line (nth (fst ie) words dummy_word)) (maxTail (snd ie)) acc)
      present [] in
  let avgPerLine :=
    if 0 <? length linesWithRhymes
    then ratio (fold_left (fun a kv => a + snd kv) linesWithRhymes 0)
               (length linesWithRhymes)
    else 0%Q in
  let density :=
    if 0 <? totalSyllables then ratio rhymingSyllables totalSyllables else 0%Q in
  let multiRatio :=
    if 0 <? rhymingSyllables then ratio multiSyllables rhymingSyllables else 0%Q in
  let rhymeTypes :=
    fold_left
      (fun acc ie => fold_left (fun acc e => bump rhymeType_eqb (typeOf e) 1 acc)
                               (snd ie) acc)
      present [] in
  {| totalSyllables := totalSyllables;
     rhymingSyllables := rhymingSyllables;
     density := density;
     multiRatio := multiRatio;
     avgPerLine := avgPerLine;
     scheme := buildScheme words wordToGroup;
     rhymeTypes := rhymeTypes;
     uniqueRhymeGroups := length groups;
     uniqueAssonanceGroups := length assonanceGroups |}.

Record analysis := {
  lines : list string;
  words : list word;
  allSpans : list span;
  groups : list group;
  assonanceGroups : list (list nat);
  internalRhymes : list (nat * list (nat * nat));
  wordToGroup : wordToGroupMap;
  metricsOf : metrics
}.

(** Everything [analyze] does once the words are collected. *)
Definition analyzeWords (cfg : settings) (lns : list string) (ws : list word)
  : analysis :=
  let sps := buildSpans ws in
  let gs := rhymeGroups cfg ws sps in
  let ags := assonancePass cfg ws in
  let wtg := buildWordToGroup ws gs ags in
  {| lines := lns;
     words := ws;
     allSpans := sps;
     groups := gs;
     assonanceGroups := ags;
     internalRhymes := internalPass cfg ws;
     wordToGroup := wtg;
     metricsOf := buildMetrics ws gs ags wtg |}.

(** [analyze] is an [async] method: the value is the one its promise
    resolves to. *)
Definition analyze (cfg : settings) (text : string) : analysis :=
  analyzeWords cfg (splitLines text) (tokenize text).

(** The number of word tokens that belong to some rhyme group. *)
Definition inSomeGroup (gs : list group) (i : nat) : bool :=
  existsb (fun g => existsb (fun sp => wordIndex sp =? i) (spans g)) gs.

Definition groupedWords (r : analysis) : nat :=
  length (filter (inSomeGroup (groups r)) (seq 0 (length (words r)))).

Definition defaults : settings :=
  {| perfectThreshold := (10 # 100)%Q; slantThreshold := (25 # 100)%Q;
     highlightAssonance := true; showInternalRhymes := true |}.

End Main.

(* ================================================================== *)
(** ** The guard of [EnhancedRhymeAnalyzer.analyzeText] (main-hiphop.js) *)
(* ================================================================== *)

Module Hiphop.

Record stats := {
  totalWords : nat;
  rhymedWords : nat;
  rhymeGroups : nat;
  avgGroupSize : Q;
  perfectRhymes : nat;
  slantRhymes : nat
}.

Section Guard.

(** The element types of the lists of a result, and the analysis of a
    text that passes the guard ([performStandardAnalysis] and the
    passes of the hip-hop module), are left open here: only the branch
    taken for an empty text is written out. *)
Variables Group Internal Compound Chain Flow Profile : Type.

Record result := {
  groups : list Group;
  statsOf : stats;
  internalRhymes : list Internal;
  compoundRhymes : list Compound;
  multisyllabicChains : list Chain;
  flowPatterns : list Flow;
  artistProfile : option Profile
}.

Variable analyzeNonEmpty : string -> result.

Definition emptyResult : result :=
  {| groups := [];
     statsOf := {| totalWords := 0; rhymedWords := 0; rhymeGroups := 0;
                   avgGroupSize := 0%Q; perfectRhymes := 0; slantRhymes := 0 |};
     internalRhymes := [];
     compoundRhymes := [];
     multisyllabicChains := [];
     flowPatterns := [];
     artistProfile := None |}.

(** [if (!text || text.trim().length === 0) return {...}]. *)
Definition analyzeText (text : string) : result :=
  if String.eqb text "" || (String.length (JS.trim text) =? 0)
  then emptyResult
  else analyzeNonEmpty text.

End Guard.

End Hiphop.

(* ================================================================== *)
(** ** The distance as the specification words it *)
(* ================================================================== *)

Module Spec.

(** The labels of the vowel-classification table. *)
Definition labels : list string := map snd VOWEL_CLASSES.

(** "The trailing element after the separator": the characters that
    follow the last [+] of a label, the whole label when it has none. *)
Fixpoint afterSeparator (n : string) : string :=
  match n with
  | EmptyString => EmptyString
  | String c r =>
      if JS.contains_char "+"%char r
      then afterSeparator r
      else if Ascii.eqb c "+"%char then r else n
  end.

(** "In the same vowel family (front/central/back/diphthong)": some
    member of the 4-way partition holds both. *)
Definition front : list string := ["EE"; "I"; "E"].
Definition central : list string := ["A"; "AH"; "ER"; "UH"].
Definition back : list string := ["O"; "OR"; "OO"; "U"].
Definition diphthong : list string := ["EYE"; "OW"; "OY"; "AY"].

Definition sameFamily (a b : string) : bool :=
  existsb (fun family => JS.has a family && JS.has b family)
          [front; central; back; diphthong].

Definition nucleusDistance (n1 n2 : string) : Q :=
  if string_dec n1 n2 then 0%Q
  else if string_dec (afterSeparator n1) (afterSeparator n2) then q0_05
  else if sameFamily (afterSeparator n1) (afterSeparator n2) then q0_25
  else q0_6.

(** "A recognized equivalent pair (voicing pairs, sibilant pairs,
    nasal pair)", in either order. *)
Definition recognizedPair (a b : string) : bool :=
  existsb (fun p => (String.eqb a (fst p) && String.eqb b (snd p))
                    || (String.eqb a (snd p) && String.eqb b (fst p)))
          Main.CONSONANT_PAIRS.

(** "Compare consonants pairwise from the end of each list up to the
    shorter length, counting a mismatch unless ...". *)
Definition mismatch (ab : string * string) : bool :=
  negb (String.eqb (fst ab) (snd ab) || recognizedPair (fst ab) (snd ab)).

Definition mismatchCount (c1 c2 : list string) : nat :=
  length (filter mismatch (combine (rev c1) (rev c2))).

Definition lengthDifference (c1 c2 : list string) : nat :=
  Nat.max (length c1) (length c2) - Nat.min (length c1) (length c2).

Definition codaDistance (c1 c2 : list string) : Q :=
  if list_eq_dec string_dec c1 c2 then 0%Q
  else
    match c1, c2 with
    | [], _ | _, [] => q0_6
    | _, _ =>
        let total :=
          (inject_Z (Z.of_nat (mismatchCount c1 c2))
           + q0_5 * inject_Z (Z.of_nat (lengthDifference c1 c2)))%Q in
        let scaled := (q0_35 * total)%Q in
        if Qle_bool scaled 1%Q then scaled else 1%Q
    end.

Definition distance (k1 k2 : Main.rhymeKey) : Q :=
  (q0_7 * nucleusDistance (fst k1) (fst k2)
   + q0_3 * codaDistance (snd k1) (snd k2))%Q.

(** A rhyme key of the data model: the nucleus label is drawn from the
    classification table, possibly behind a separator. *)
Definition wellFormedKey (k : Main.rhymeKey) : bool :=
  JS.has (afterSeparator (fst k)) labels.

End Spec.

(** The empty result: no word, no group, every metric zero and an
    empty scheme. *)
Definition emptyAnalysis (lns : list string) : Main.analysis :=
  {| Main.lines := lns;
     Main.words := [];
     Main.allSpans := [];
     Main.groups := [];
     Main.assonanceGroups := [];
     Main.internalRhymes := [];
     Main.wordToGroup := [];
     Main.metricsOf :=
       {| Main.totalSyllables := 0;
          Main.rhymingSyllables := 0;
          Main.density := 0%Q;
          Main.multiRatio := 0%Q;
          Main.avgPerLine := 0%Q;
          Main.scheme := "";
          Main.rhymeTypes := [];
          Main.uniqueRhymeGroups := 0;
          Main.uniqueAssonanceGroups := 0 |} |}.

(** Shapes of a syllable, with the vowel test of [syllabify]. *)
Definition noVowel (syl : list string) : Prop :=
  Forall (fun p => Main.isVowelPhone p = false) syl.

Definition vowelLed (syl : list string) : Prop :=
  exists v rest, syl = v :: rest /\ Main.isVowelPhone v = true /\ noVowel rest.

Definition onsetOnly (syl : list string) : Prop := syl <> [] /\ noVowel syl.


(** Three words with phonemes the vowel test of main.js recognises
    (no stress digit), one per line. *)
Definition three_words : list Main.word :=
  [{| Main.line := 0; Main.text := "cat"; Main.lower := "cat";
      Main.phones := ["K"; "AE"; "T"];
      Main.syllables := [["K"]; ["AE"; "T"]]; Main.stress := Some 1;
      Main.position := 0 |};
   {| Main.line := 1; Main.text := "hat"; Main.lower := "hat";
      Main.phones := ["HH"; "AE"; "T"];
      Main.syllables := [["HH"]; ["AE"; "T"]]; Main.stress := Some 1;
      Main.position := 0 |};
   {| Main.line := 2; Main.text := "hat"; Main.lower := "hat";
      Main.phones := ["HH"; "AE"; "T"];
      Main.syllables := [["HH"]; ["AE"; "T"]]; Main.stress := Some 1;
      Main.position := 0 |}].

(** "cat" and "hat" on two lines, with phonemes the vowel test
    recognises. *)
Definition two_words : list Main.word :=
  [{| Main.line := 0; Main.text := "cat"; Main.lower := "cat";
      Main.phones := ["K"; "AE"; "T"];
      Main.syllables := [["K"]; ["AE"; "T"]]; Main.stress := Some 1;
      Main.position := 0 |};
   {| Main.line := 1; Main.text := "hat"; Main.lower := "hat";
      Main.phones := ["HH"; "AE"; "T"];
      Main.syllables := [["HH"]; ["AE"; "T"]]; Main.stress := Some 1;
      Main.position := 0 |}].

(** Four words of one line with rhyme keys, and a last word without
    a key that keeps all of them inside the line. *)
Definition mk_word (lw : string) (syls : list (list string)) : Main.word :=
  {| Main.line := 0; Main.text := lw; Main.lower := lw;
     Main.phones := List.concat syls; Main.syllables := syls;
     Main.stress := match syls with [] => None | _ => Some 0 end;
     Main.position := 0 |}.

Definition five_words : list Main.word :=
  [mk_word "apks" [["AE"; "P"; "K"; "S"]];
   mk_word "at" [["AE"; "T"]];
   mk_word "aat" [["AA"; "T"]];
   mk_word "ast" [["AE"; "S"; "T"]];
   mk_word "w" []].

Definition with_slant (slant : Q) : Main.settings :=
  {| Main.perfectThreshold := (10 # 100)%Q; Main.slantThreshold := slant;
     Main.highlightAssonance := false; Main.showInternalRhymes := false |}.

Definition startsWithVowel (syl : list string) : bool :=
  match syl with
  | p :: _ => Main.isVowelPhone p
  | [] => false
  end.

(** The shape of a list of syllables: the first is led by a vowel or
    is an onset without a vowel, the others are led by a vowel. *)
Definition syllablesShape (syls : list (list string)) : Prop :=
  Forall (fun syl => vowelLed syl \/ onsetOnly syl) syls
  /\ Forall vowelLed (tl syls).

(** The state of the loop of [syllabify]: either no vowel was met yet, or the
    syllable being built is led by a vowel. *)
Definition loopShape (syls : list (list string)) (cur : list string) : Prop :=
  (syls = [] /\ noVowel cur) \/ (vowelLed cur /\ syllablesShape syls).

(** A word for which [getRhymeKey] gives [null]. *)
Definition keyless (w : Main.word) : Prop :=
  Main.getRhymeKey (Main.syllables w) (Main.stress w) = None.

(** A group is a seed followed by members none of which has the
    normalized text of the seed. *)
Definition seedExclusive (lowerOf : nat -> string) (g : list nat) : Prop :=
  exists seed rest,
    g = seed :: rest /\ forall j, In j rest -> lowerOf j <> lowerOf seed.

(* ================================================================== *)
(** ** The standard analysis of main-hiphop.js *)
(* ================================================================== *)

Module Enhanced.

(** The dictionary of the hip-hop module, spread into the enhanced
    one after the entries of main.js. *)
Definition HIPHOP_CUSTOM_ARPA : list (string * list string) :=
  [("orange", ["AO1"; "R"; "IH0"; "N"; "JH"]);
   ("doorhinge", ["D"; "AO1"; "R"; "HH"; "IH0"; "N"; "JH"]);
   ("fourinch", ["F"; "AO1"; "R"; "IH0"; "N"; "CH"]);
   ("syringe", ["S"; "ER0"; "IH1"; "N"; "JH"]);
   ("nigga", ["N"; "IH1"; "G"; "AH0"]);
   ("niggas", ["N"; "IH1"; "G"; "AH0"; "Z"]);
   ("playa", ["P"; "L"; "EY1"; "AH0"]);
   ("gangsta", ["G"; "AE1"; "NG"; "S"; "T"; "AH0"]);
   ("hustla", ["HH"; "AH1"; "S"; "L"; "AH0"]);
   ("baller", ["B"; "AO1"; "L"; "ER0"]);
   ("realest", ["R"; "IY1"; "L"; "IH0"; "S"; "T"]);
   ("illest", ["IH1"; "L"; "IH0"; "S"; "T"]);
   ("dopest", ["D"; "OW1"; "P"; "IH0"; "S"; "T"]);
   ("villain", ["V"; "IH1"; "L"; "AH0"; "N"]);
   ("chillin", ["CH"; "IH1"; "L"; "IH0"; "N"]);
   ("illin", ["IH1"; "L"; "IH0"; "N"]);
   ("spillin", ["S"; "P"; "IH1"; "L"; "IH0"; "N"]);
   ("choppa", ["CH"; "AA1"; "P"; "AH0"]);
   ("poppa", ["P"; "AA1"; "P"; "AH0"]);
   ("stoppa", ["S"; "T"; "AA1"; "P"; "AH0"]);
   ("foshizzle", ["F"; "AO1"; "SH"; "IH1"; "Z"; "AH0"; "L"]);
   ("nizzle", ["N"; "IH1"; "Z"; "AH0"; "L"]);
   ("dizzle", ["D"; "IH1"; "Z"; "AH0"; "L"]);
   ("bizzle", ["B"; "IH1"; "Z"; "AH0"; "L"]);
   ("microphone", ["M"; "AY1"; "K"; "R"; "AH0"; "F"; "OW2"; "N"]);
   ("cyclone", ["S"; "AY1"; "K"; "L"; "OW2"; "N"]);
   ("milestone", ["M"; "AY1"; "L"; "S"; "T"; "OW2"; "N"]);
   ("whatup", ["W"; "AH1"; "T"; "AH0"; "P"]);
   ("holup", ["HH"; "OW1"; "L"; "AH0"; "P"]);
   ("hinge", ["HH"; "IH1"; "N"; "JH"]);
   ("door", ["D"; "AO1"; "R"]);
   ("four", ["F"; "AO1"; "R"]);
   ("more", ["M"; "AO1"; "R"]);
   ("store", ["S"; "T"; "AO1"; "R"]);
   ("turnt", ["T"; "ER1"; "N"; "T"]);
   ("crunk", ["K"; "R"; "AH1"; "NG"; "K"]);
   ("trill", ["T"; "R"; "IH1"; "L"]);
   ("swag", ["S"; "W"; "AE1"; "G"]);
   ("dope", ["D"; "OW1"; "P"]);
   ("whack", ["W"; "AE1"; "K"]);
   ("phat", ["F"; "AE1"; "T"]);
   ("lit", ["L"; "IH1"; "T"]);
   ("fire", ["F"; "AY1"; "ER0"]);
   ("bars", ["B"; "AA1"; "R"; "Z"]);
   ("spittin", ["S"; "P"; "IH1"; "T"; "IH0"; "N"]);
   ("flowin", ["F"; "L"; "OW1"; "IH0"; "N"]);
   ("ballin", ["B"; "AO1"; "L"; "IH0"; "N"]);
   ("stackin", ["S"; "T"; "AE1"; "K"; "IH0"; "N"]);
   ("grindin", ["G"; "R"; "AY1"; "N"; "D"; "IH0"; "N"])].

Definition ENHANCED_CUSTOM_ARPA : list (string * list string) :=
  Main.CUSTOM_ARPA ++ HIPHOP_CUSTOM_ARPA.

(** [cleanWord], [g2pHeuristic], [syllabify], [normalizePhone],
    [normalizeCoda], [getVowelFamily] and the inner function
    [extractNucleusAndCoda] are those of main.js. *)
Definition wordToPhones (word : string) : list string :=
  let cleaned := Main.cleanWord word in
  match JS.lookup cleaned ENHANCED_CUSTOM_ARPA with
  | Some phones => phones
  | None => Main.g2pHeuristic cleaned
  end.

Record rhymeKey := {
  nucleus : option string;
  coda : list string;
  vowelFamily : nat
}.

(** [getVowelFamily(finalNucleus)], also for [null], which no family
    holds. *)
Definition familyOf (n : option string) : nat :=
  match n with
  | Some v => Main.getVowelFamily v
  | None => 9
  end.

Definition getRhymeKey (syllables : list (list string)) (stressIndex : option nat)
  : option rhymeKey :=
  if length syllables =? 0 then None
  else
    let index := match stressIndex with
                 | Some i => i
                 | None => length syllables - 1
                 end in
    let clampedIndex := Nat.max 0 (Nat.min index (length syllables - 1)) in
    let '(nucleus, coda) :=
      Main.extractNucleusAndCoda (nth clampedIndex syllables []) in
    Some {| nucleus := nucleus;
            coda := Main.normalizeCoda coda;
            vowelFamily := familyOf nucleus |}.

Definition nonEmpty (s : string) : bool := negb (String.eqb s "").

(** One turn of the loop of [calculateCodaSimilarity]; an index past
    the end of a coda reads [undefined]. *)
Definition similarity_step (coda1 coda2 : list string) (similarity : Q) (i : nat) : Q :=
  match nth_error coda1 i, nth_error coda2 i with
  | Some c1, Some c2 =>
      if String.eqb c1 c2 then (similarity + 1)%Q
      else if nonEmpty c1 && nonEmpty c2 && Main.equivalent c1 c2
           then (similarity + (7 # 10))%Q
           else similarity
  | None, None => (similarity + 1)%Q
  | _, _ => similarity
  end.

Definition calculateCodaSimilarity (coda1 coda2 : list string) : Q :=
  if (length coda1 =? 0) && (length coda2 =? 0) then 1%Q
  else if (length coda1 =? 0) || (length coda2 =? 0) then q0_3
  else
    let maxLen := Nat.max (length coda1) (length coda2) in
    let similarity := fold_left (similarity_step coda1 coda2) (seq 0 maxLen) 0%Q in
    (similarity / inject_Z (Z.of_nat maxLen))%Q.

Definition sameNucleus (a b : option string) : bool :=
  match a, b with
  | Some x, Some y => String.eqb x y
  | None, None => true
  | _, _ => false
  end.

Definition calculateRhymeDistance (key1 key2 : option rhymeKey) : Q :=
  match key1, key2 with
  | Some k1, Some k2 =>
      let distance := 0%Q in
      let distance :=
        if negb (sameNucleus (nucleus k1) (nucleus k2)) then
          if vowelFamily k1 =? vowelFamily k2
          then (distance + q0_25)%Q
          else (distance + q0_6)%Q
        else distance in
      let distance :=
        if negb (Main.same_array (coda k1) (coda k2)) then
          let codaSimilarity := calculateCodaSimilarity (coda k1) (coda k2) in
          (distance + (1 - codaSimilarity) * (4 # 10))%Q
        else distance in
      Math_min 1%Q distance
  | _, _ => 1%Q
  end.

Record wordSpan := {
  text : string;
  cleaned : string;
  start : Z;
  end_ : Z;
  key : rhymeKey;
  phones : list string;
  syllables : list (list string);
  stressIndex : option nat;
  lineNumber : nat
}.

Definition dummy_span : wordSpan :=
  {| text := ""; cleaned := ""; start := 0; end_ := 0;
     key := {| nucleus := None; coda := []; vowelFamily := 9 |};
     phones := []; syllables := []; stressIndex := None; lineNumber := 0 |}.

(** [line.split(/\\s+/)]: in the literal [\\] is an escaped backslash,
    so a separator is a backslash followed by one or more letters s.
    [eating] holds while the letters s of a separator are passed. *)
Fixpoint splitWords (s : string) (eating : bool) (cur : string) : list string :=
  match s with
  | EmptyString => [cur]
  | String c r =>
      if eating && Ascii.eqb c "s" then splitWords r true cur
      else if Ascii.eqb c JS.backslash && prefix "s" r
           then cur :: splitWords r true EmptyString
           else splitWords r false (cur ++ String c EmptyString)%string
  end.

(** The loop over the words of a line: the state is [wordSpans] and
    [wordOffset]. *)
Definition word_step (ln : string) (lineNum : nat) (charOffset : Z)
  (st : list wordSpan * nat) (word : string) : list wordSpan * nat :=
  let '(wordSpans, wordOffset) := st in
  let cleaned := Main.cleanWord word in
  let wordSpans' :=
    if (0 <? String.length cleaned) && negb (JS.has cleaned Main.STOP_WORDS) then
      let phones := wordToPhones cleaned in
      if 0 <? length phones then
        let '(syllables, stressIndex) := Main.syllabify phones in
        match getRhymeKey syllables stressIndex with
        | Some rhymeKey =>
            if Main.truthy (nucleus rhymeKey) then
              let wordStart := (charOffset + JS.indexOf ln word wordOffset)%Z in
              wordSpans ++ [{| text := word; cleaned := cleaned;
                               start := wordStart;
                               end_ := (wordStart + Z.of_nat (String.length word))%Z;
                               key := rhymeKey; phones := phones;
                               syllables := syllables; stressIndex := stressIndex;
                               lineNumber := lineNum |}]
            else wordSpans
        | None => wordSpans
        end
      else wordSpans
    else wordSpans in
  (wordSpans', wordOffset + String.length word + 1).

Definition line_step (st : list wordSpan * Z * nat) (ln : string)
  : list wordSpan * Z * nat :=
  let '(wordSpans, charOffset, lineNum) := st in
  let words := splitWords ln false EmptyString in
  let '(wordSpans', _) :=
    fold_left (word_step ln lineNum charOffset) words (wordSpans, 0) in
  (wordSpans', (charOffset + Z.of_nat (String.length ln) + 1)%Z, S lineNum).

Definition collectSpans (text : string) : list wordSpan :=
  fst (fst (fold_left line_step (Main.splitLines text) ([], 0%Z, 0))).

Definition keyOf (spans : list wordSpan) (i : nat) : option rhymeKey :=
  option_map key (nth_error spans i).

(** The loops of [groupRhymes], on indices; [used] is a set. *)
Definition inner_step (perfectThreshold : Q) (spans : list wordSpan) (i : nat)
  (st : list nat * list nat) (j : nat) : list nat * list nat :=
  let '(group, used) := st in
  if existsb (Nat.eqb j) used then st
  else
    let distance := calculateRhymeDistance (keyOf spans i) (keyOf spans j) in
    if Qle_bool distance perfectThreshold then (group ++ [j], j :: used)
    else st.

Definition outer_step (perfectThreshold : Q) (spans : list wordSpan)
  (st : list (list nat) * list nat) (i : nat) : list (list nat) * list nat :=
  let '(groups, used) := st in
  if existsb (Nat.eqb i) used then st
  else
    let '(group, used') :=
      fold_left (inner_step perfectThreshold spans i)
                (seq (i + 1) (length spans - (i + 1))) ([i], i :: used) in
    if 2 <=? length group then (groups ++ [group], used') else (groups, used').

Definition groupLoop (perfectThreshold : Q) (spans : list wordSpan)
  : list (list nat) :=
  fst (fold_left (outer_step perfectThreshold spans)
                 (seq 0 (length spans)) ([], [])).

(** [groups.sort((a, b) => b.length - a.length)]: the sort of an
    array is stable, the longer groups come first. *)
Fixpoint insertByLength {A} (g : list A) (sorted : list (list A)) : list (list A) :=
  match sorted with
  | [] => [g]
  | h :: t =>
      if length h <? length g then g :: h :: t
      else h :: insertByLength g t
  end.

Definition sortByLength {A} (groups : list (list A)) : list (list A) :=
  fold_left (fun sorted g => insertByLength g sorted) groups [].

Definition groupRhymes (perfectThreshold : Q) (spans : list wordSpan)
  : list (list wordSpan) :=
  if length spans =? 0 then []
  else
    sortByLength
      (map (map (fun i => nth i spans dummy_span))
           (groupLoop perfectThreshold spans)).

Record stats := {
  totalWords : nat;
  rhymedWords : nat;
  rhymeGroups : nat;
  avgGroupSize : Q;
  perfectRhymes : nat;
  slantRhymes : nat
}.

Definition calculateStats (spans : list wordSpan) (groups : list (list wordSpan))
  : stats :=
  let rhymedWords := fold_left (fun sum g => sum + length g) groups 0 in
  {| totalWords := length spans;
     rhymedWords := rhymedWords;
     rhymeGroups := length groups;
     avgGroupSize := if 0 <? length groups
                     then Main.ratio rhymedWords (length groups) else 0%Q;
     perfectRhymes := length (filter (fun g => 2 <=? length g) groups);
     slantRhymes := 0 |}.

Definition performStandardAnalysis (perfectThreshold : Q) (text : string)
  : list (list wordSpan) * stats :=
  let wordSpans := collectSpans text in
  let groups := groupRhymes perfectThreshold wordSpans in
  (groups, calculateStats wordSpans groups).

End Enhanced.

(* ================================================================== *)
(** ** The simplified build (main-simple.js) *)
(* ================================================================== *)

Module Simple.

Definition CUSTOM_ARPA : list (string * list string) :=
  [("ya", ["Y"; "AA1"]); ("gonna", ["G"; "AH1"; "N"; "AH0"]);
   ("wanna", ["W"; "AA1"; "N"; "AH0"]); ("bruh", ["B"; "R"; "AH1"]);
   ("nah", ["N"; "AA1"]); ("yo", ["Y"; "OW1"]);
   ("lekker", ["L"; "EH1"; "K"; "ER0"])].

(** [wordToPhones]: the cleaning and the loop over the characters are
    those of the minimal build, only the table differs.  [None] stands
    for the value the table inherits for a name such as
    [constructor]. *)
Definition wordToPhones (word : string) : option (list string) :=
  let cleaned := Minimal.clean word in
  if JS.inherited cleaned then None
  else
    match JS.lookup cleaned CUSTOM_ARPA with
    | Some phones => Some phones
    | None => Some (Minimal.phones_loop cleaned false)
    end.

Record word := {
  text : string;
  line : nat;
  phones : option (list string);
  position : nat
}.

Definition dummy_word : word :=
  {| text := ""; line := 0; phones := Some []; position := 0 |}.

(** [matches.forEach((word, pos) => ...)] on the matches of
    [/[A-Za-z']+/g] in one line. *)
Definition match_words (lineIndex : nat) (ln : string) : list word :=
  let matches := map snd (JS.matchAll_token ln) in
  map (fun pw => {| text := snd pw; line := lineIndex;
                    phones := wordToPhones (snd pw); position := fst pw |})
      (combine (seq 0 (length matches)) matches).

Definition line_step (st : list word * nat) (ln : string) : list word * nat :=
  let '(words, lineIndex) := st in
  (words ++ match_words lineIndex ln, S lineIndex).

Definition extractWords (text : string) : list word :=
  fst (fold_left line_step (JS.split Minimal.nl text) ([], 0)).

(** The inner loop over [j]: the state is [group] and [used].  An
    inherited value is the function [Object], of length 1, or an
    object without a length: the test [length >= 2] fails on it. *)
Definition inner_step (words : list word) (i : nat)
  (st : list nat * list nat) (j : nat) : list nat * list nat :=
  let '(group, used) := st in
  if existsb (Nat.eqb j) used then st
  else
    let wi := nth i words dummy_word in
    let wj := nth j words dummy_word in
    match phones wi, phones wj with
    | Some phones1, Some phones2 =>
        if (2 <=? length phones1) && (2 <=? length phones2) then
          let end1 := JS.join "" (JS.slice_last2 phones1) in
          let end2 := JS.join "" (JS.slice_last2 phones2) in
          if String.eqb end1 end2 && negb (String.eqb (text wi) (text wj))
          then (group ++ [j], j :: used)
          else st
        else st
    | _, _ => st
    end.

Definition outer_step (words : list word)
  (st : list (list nat) * list nat) (i : nat) : list (list nat) * list nat :=
  let '(rhymeGroups, used) := st in
  if existsb (Nat.eqb i) used then st
  else
    let '(group, used') :=
      fold_left (inner_step words i)
                (seq (i + 1) (length words - (i + 1))) ([i], i :: used) in
    if 2 <=? length group then (rhymeGroups ++ [group], used')
    else (rhymeGroups, used').

Definition findGroups (words : list word) : list (list nat) :=
  fst (fold_left (outer_step words) (seq 0 (length words)) ([], [])).

Record metrics := {
  totalWords : nat;
  rhymeGroups : nat;
  density : Q
}.

Record analysis := {
  words : list word;
  groups : list (list nat);
  metricsOf : metrics
}.

Definition analyzeWords (ws : list word) : analysis :=
  let gs := findGroups ws in
  {| words := ws;
     groups := gs;
     metricsOf := {| totalWords := length ws;
                     rhymeGroups := length gs;
                     density := Main.ratio (length gs) (Nat.max 1 (length ws)) |} |}.

Definition analyzeRhymes (text : string) : analysis :=
  analyzeWords (extractWords text).

End Simple.

(* ================================================================== *)
(** ** Helpers of [HipHopRhymeAnalyzer] (hip-hop-enhancements.js) *)
(* ================================================================== *)

Module Enhancements.

Definition similarPairs : list (string * string) :=
  [("P", "B"); ("T", "D"); ("K", "G");
   ("F", "V"); ("S", "Z"); ("SH", "ZH");
   ("CH", "JH"); ("TH", "DH");
   ("M", "N"); ("N", "NG");
   ("L", "R"); ("W", "Y")].

Definition areConsonantsSimilar (c1 c2 : string) : bool :=
  existsb (fun ab => (String.eqb c1 (fst ab) && String.eqb c2 (snd ab))
                     || (String.eqb c1 (snd ab) && String.eqb c2 (fst ab)))
          similarPairs.

Definition vowelClasses : list (string * list string) :=
  [("IY", ["IH"; "EH"]);
   ("IH", ["IY"; "EH"]);
   ("EH", ["IH"; "AE"]);
   ("AE", ["EH"; "AA"]);
   ("AA", ["AE"; "AH"]);
   ("AH", ["AA"; "UH"]);
   ("UH", ["AH"; "UW"]);
   ("UW", ["UH"; "OW"]);
   ("OW", ["UW"; "AO"]);
   ("AO", ["OW"; "AA"])].

(** [vowelClasses[p] && vowelClasses[p].includes(q)] for a name [p]
    the table does not inherit. *)
Definition listed (p q : string) : bool :=
  match JS.lookup p vowelClasses with
  | Some l => JS.has q l
  | None => false
  end.

(** [arePhonemesSimilar]: for a name the table inherits the lookup
    gives a function or an object, which is truthy and has no method
    [includes]; the call raises a [TypeError]: [None]. *)
Definition arePhonemesSimilar (p1 p2 : string) : option bool :=
  if JS.inherited p1 then None
  else if listed p1 p2 then Some true
  else if JS.inherited p2 then None
  else if listed p2 p1 then Some true
  else Some (areConsonantsSimilar p1 p2).

Inductive style :=
  bounce | triplet | chopper | laidBack | syncopated
| aggressive | conversational | standard.

Definition digit (stress : bool) : string := if stress then "1" else "0".

(** [s.includes(sub)]. *)
Fixpoint includes (sub s : string) : bool :=
  prefix sub s
  || match s with
     | EmptyString => false
     | String _ r => includes sub r
     end.

(** One turn of the loop that counts consecutive stresses: the state
    is [maxConsecutive] and [current]. *)
Definition consecutive_step (st : nat * nat) (stress : bool) : nat * nat :=
  let '(maxConsecutive, current) := st in
  if stress then (Nat.max maxConsecutive (S current), S current)
  else (maxConsecutive, 0).

Definition classifyFlowStyle (stressPattern : list bool) : style :=
  let patternStr := JS.join "" (map digit stressPattern) in
  if includes "1010" patternStr then bounce
  else if includes "1001" patternStr then triplet
  else if includes "111" patternStr then chopper
  else if includes "10001000" patternStr then laidBack
  else if includes "110110" patternStr then syncopated
  else
    let '(maxConsecutive, _) := fold_left consecutive_step stressPattern (0, 0) in
    if 3 <=? maxConsecutive then aggressive
    else if maxConsecutive =? 0 then conversational
    else standard.

(** [analyzeFlowPattern]: the stress pattern of one word's syllables,
    [i === stressIndex ? 1 : 0]. *)
Definition wordPattern (syllables : list (list string)) (stressIndex : option nat)
  : list bool :=
  map (fun i => match stressIndex with
                | Some s => i =? s
                | None => false
                end)
      (seq 0 (length syllables)).

End Enhancements.

(* ================================================================== *)
(** ** The greedy pass, once for all builds *)
(* ================================================================== *)

(** Every build groups in the same way: the first free index seeds a
    group and claims each later free index it accepts.  [U] is the
    record of the claimed indices (an array of flags or a set). *)
Section Greedy.

Variables (U : Type) (mem : nat -> U -> bool) (add : nat -> U -> U).
Variables (minSize : nat) (skip : nat -> bool) (accept : nat -> nat -> bool).
Variable n : nat.

Definition claim_step (i : nat) (st : list nat * U) (j : nat) : list nat * U :=
  if mem j (snd st) then st
  else if accept i j then (fst st ++ [j], add j (snd st))
  else st.

Definition seed_step (st : list (list nat) * U) (i : nat) : list (list nat) * U :=
  if mem i (snd st) || skip i then st
  else
    let st' := fold_left (claim_step i) (seq (i + 1) (n - (i + 1)))
                         ([i], add i (snd st)) in
    if minSize <=? length (fst st') then (fst st ++ [fst st'], snd st')
    else (fst st, snd st').

Definition greedy (u0 : U) : list (list nat) :=
  fst (fold_left seed_step (seq 0 n) ([], u0)).

End Greedy.

(** What a partition into groups looks like: every group has the
    minimal size, lists indices below [n] in increasing order, starts
    with a seed that is not skipped and accepts every other member;
    no index is in two groups. *)
Definition goodGroup (minSize : nat) (skip : nat -> bool)
  (accept : nat -> nat -> bool) (n : nat) (g : list nat) : Prop :=
  minSize <= length g
  /\ StronglySorted lt g
  /\ Forall (fun j => j < n) g
  /\ exists seed rest,
       g = seed :: rest /\ skip seed = false
       /\ Forall (fun j => accept seed j = true) rest.

Definition goodGroups (minSize : nat) (skip : nat -> bool)
  (accept : nat -> nat -> bool) (n : nat) (gs : list (list nat)) : Prop :=
  Forall (goodGroup minSize skip accept n) gs /\ NoDup (List.concat gs).

(** The state of the outer loop of the greedy pass: the groups so far
    are good and their members are recorded as claimed. *)
Definition greedyState (U : Type) (mem : nat -> U -> bool) (ok : U -> Prop)
  (minSize : nat) (skip : nat -> bool) (accept : nat -> nat -> bool) (n : nat)
  (st : list (list nat) * U) : Prop :=
  ok (snd st)
  /\ goodGroups minSize skip accept n (fst st)
  /\ forall x, In x (List.concat (fst st)) -> mem x (snd st) = true.

(** The order of the sorted groups: the longer one first. *)
Definition longerFirst {A} (a b : list A) : Prop := length b <= length a.

(** The tests with which a seed accepts a later index. *)
Definition minimalAccept (allWords : list Minimal.word) (threshold : Q)
  (i j : nat) : bool :=
  Qle_bool threshold
           (Minimal.scoreRhyme (Minimal.tailOf allWords i) (Minimal.tailOf allWords j))
  && negb (String.eqb (Minimal.lowerText allWords i) (Minimal.lowerText allWords j)).

Definition mainAccept (cfg : Main.settings) (words : list Main.word)
  (spans : list Main.span) (i j : nat) : bool :=
  let si := nth i spans Main.dummy_span in
  let sj := nth j spans Main.dummy_span in
  negb (String.eqb (Main.lowerOfSpan words spans i) (Main.lowerOfSpan words spans j))
  && (Main.multiMatch si sj
      || Qle_bool (Main.rhymeDistance (Main.key si) (Main.key sj))
                  (Main.pairThreshold cfg (Main.isLineEnd (Main.wordIndex si) words)
                                      (Main.isLineEnd (Main.wordIndex sj) words))).

Definition assonanceAccept (words : list Main.word) (i j : nat) : bool :=
  negb (Main.isStop words j)
  && negb (String.eqb (Main.lower (nth j words Main.dummy_word))
                      (Main.lower (nth i words Main.dummy_word)))
  && Main.detectAssonance (nth i words Main.dummy_word) (nth j words Main.dummy_word).

Definition enhancedAccept (perfectThreshold : Q) (spans : list Enhanced.wordSpan)
  (i j : nat) : bool :=
  Qle_bool (Enhanced.calculateRhymeDistance (Enhanced.keyOf spans i)
                                            (Enhanced.keyOf spans j))
           perfectThreshold.

Definition simpleAccept (words : list Simple.word) (i j : nat) : bool :=
  let wi := nth i words Simple.dummy_word in
  let wj := nth j words Simple.dummy_word in
  match Simple.phones wi, Simple.phones wj with
  | Some phones1, Some phones2 =>
      (2 <=? length phones1) && (2 <=? length phones2)
      && String.eqb (JS.join "" (JS.slice_last2 phones1))
                    (JS.join "" (JS.slice_last2 phones2))
      && negb (String.eqb (Simple.text wi) (Simple.text wj))
  | _, _ => false
  end.

(** A phoneme code that carries the mark of the primary stress. *)
Definition primaryStress (p : string) : bool := JS.endsWith p "1"%char.

(** The test ['aeiouy'.includes(ch)] on a character. *)
Definition vowelLetter (c : ascii) : bool :=
  JS.has (JS.one c) ["a"; "e"; "i"; "o"; "u"; "y"].

(** A consonant the folding table of [normalizeCoda] rewrites. *)
Definition voiced (c : string) : bool :=
  match JS.lookup c Main.fold_table with
  | Some _ => true
  | None => false
  end.

(** The line numbers of a list of words never decrease. *)
Definition linesAscend (words : list Main.word) : Prop :=
  StronglySorted (fun a b => Main.line a <= Main.line b) words.

(** The word has a rhyme key. *)
Definition hasKey (w : Main.word) : bool :=
  match Main.getRhymeKey (Main.syllables w) (Main.stress w) with
  | Some _ => true
  | None => false
  end.

(** No syllable of the word holds a phoneme that passes the vowel
    test. *)
Definition vowelless (w : Main.word) : Prop :=
  Forall noVowel (Main.syllables w).




(* ================================================================== *)
(** * Properties *)
(* ================================================================== *)

(** ** Loops as folds *)

Section FoldInvariant.

Variables (S X : Type) (f : S -> X -> S) (P : S -> Prop).

Lemma fold_left_invariant (l : list X) (s : S) :
  P s -> (forall s x, P s -> In x l -> P (f s x)) -> P (fold_left f l s).
Proof.
  revert s. induction l as [|x l IH]; intros s Hs Hstep; simpl.
  - exact Hs.
  - apply IH.
    + apply Hstep; [exact Hs | now left].
    + intros s' y Hs' Hy. apply Hstep; [exact Hs' | now right].
Qed.

End FoldInvariant.

Lemma Math_min_le_l (a b : Q) : (Math_min a b <= a)%Q.
Proof.
  unfold Math_min. destruct (Qle_bool a b) eqn:E.
  - apply Qle_refl.
  - apply Qlt_le_weak. apply Qnot_le_lt. intro H.
    apply Qle_bool_iff in H. congruence.
Qed.

(** ** The minimal engine: rhyme tails *)

Lemma last_vowel_index_none (phones : list string) (n : nat) :
  Forall (fun p => Minimal.is_vowel p = false) phones ->
  n <= length phones ->
  Minimal.last_vowel_index phones n = None.
Proof.
  intros Hall. rewrite Forall_forall in Hall.
  induction n as [|i IH]; intros Hn; simpl.
  - reflexivity.
  - rewrite (Hall (nth i phones "")) by (apply nth_In; lia).
    apply IH. lia.
Qed.

Lemma slice_last2_length {A} (l : list A) :
  length (JS.slice_last2 l) = Nat.min 2 (length l).
Proof. unfold JS.slice_last2. rewrite length_skipn. lia. Qed.

(** C10. When no phoneme of the sequence is a vowel, [getRhymeTail]
    returns the last two phonemes (all of them when there are fewer),
    which is a non-empty tail as soon as there is a phoneme; and two
    vowel-less words, "hmm" and "mm", are put into one rhyme group by
    [analyzeText]. *)
Theorem C10_vowelless_tail (phones : list string) :
  Forall (fun p => Minimal.is_vowel p = false) phones ->
  Minimal.getRhymeTail phones = JS.slice_last2 phones
  /\ length (Minimal.getRhymeTail phones) = Nat.min 2 (length phones)
  /\ (phones <> [] -> Minimal.getRhymeTail phones <> [])
  /\ option_map Minimal.groups (Minimal.analyzeText "hmm mm" q0_5) = Some [[0; 1]].
Proof.
  intros Hall.
  assert (E : Minimal.getRhymeTail phones = JS.slice_last2 phones).
  { unfold Minimal.getRhymeTail.
    now rewrite (last_vowel_index_none phones _ Hall (Nat.le_refl _)). }
  split; [exact E | split; [| split]].
  - rewrite E. apply slice_last2_length.
  - intros Hne Hnil.
    assert (L : length (Minimal.getRhymeTail phones) = 0) by now rewrite Hnil.
    rewrite E, slice_last2_length in L.
    destruct phones as [|p [|q r]]; simpl in L; congruence.
  - vm_compute. reflexivity.
Qed.

Lemma C10_vowelless_tail_witness :
  Forall (fun p => Minimal.is_vowel p = false) ["HH"; "M"; "M"]
  /\ Minimal.getRhymeTail ["HH"; "M"; "M"] = ["M"; "M"].
Proof.
  assert (H : Forall (fun p => Minimal.is_vowel p = false) ["HH"; "M"; "M"])
    by (repeat constructor).
  split; [exact H |].
  exact (proj1 (C10_vowelless_tail _ H)).
Defined.

(** ** The minimal engine: the positional scorer *)

Lemma noSpace_cons (c : ascii) (s : string) :
  Minimal.noSpace (String c s) = true ->
  Ascii.eqb c JS.space = false /\ Minimal.noSpace s = true.
Proof.
  unfold Minimal.noSpace. simpl. intros H.
  apply negb_true_iff in H. apply orb_false_iff in H.
  destruct H as [H1 H2]. split; [exact H1 | now rewrite H2].
Qed.

Lemma noSpace_not_app (b a y : string) :
  Minimal.noSpace a = true -> a <> (b ++ String JS.space y)%string.
Proof.
  revert a. induction b as [|d b IH]; intros a Ha E; subst a.
  - apply noSpace_cons in Ha. destruct Ha as [Ha _].
    now rewrite Ascii.eqb_refl in Ha.
  - simpl in Ha. apply noSpace_cons in Ha. destruct Ha as [_ Ha].
    now apply (IH _ Ha eq_refl).
Qed.

Lemma app_space_inj (a b x y : string) :
  Minimal.noSpace a = true -> Minimal.noSpace b = true ->
  (a ++ String JS.space x)%string = (b ++ String JS.space y)%string ->
  a = b /\ x = y.
Proof.
  revert b. induction a as [|c a IH]; intros [|d b] Ha Hb E; simpl in E.
  - injection E as E. now split.
  - injection E as E1 E2. subst d.
    apply noSpace_cons in Hb. destruct Hb as [Hb _].
    now rewrite Ascii.eqb_refl in Hb.
  - injection E as E1 E2. subst c.
    apply noSpace_cons in Ha. destruct Ha as [Ha _].
    now rewrite Ascii.eqb_refl in Ha.
  - injection E as E1 E2. subst d.
    apply noSpace_cons in Ha. apply noSpace_cons in Hb.
    destruct (IH b (proj2 Ha) (proj2 Hb) E2) as [-> ->]. now split.
Qed.

(** [join(' ')] tells apart two non-empty arrays of codes without
    blanks. *)
Lemma join_space_inj (l1 l2 : list string) :
  l1 <> [] -> l2 <> [] ->
  Forall (fun p => Minimal.noSpace p = true) l1 ->
  Forall (fun p => Minimal.noSpace p = true) l2 ->
  JS.join " " l1 = JS.join " " l2 -> l1 = l2.
Proof.
  unfold JS.join. revert l2.
  induction l1 as [|a l1 IH]; intros l2 N1 N2 F1 F2 E; [congruence |].
  destruct l2 as [|b l2]; [congruence |].
  inversion F1 as [|? ? Ha F1']; subst. inversion F2 as [|? ? Hb F2']; subst.
  destruct l1 as [|a' l1], l2 as [|b' l2].
  - simpl in E. now subst.
  - exfalso. change (a = (b ++ String JS.space (String.concat " " (b' :: l2)))%string) in E.
    now apply (noSpace_not_app b _ _ Ha) in E.
  - exfalso. change ((a ++ String JS.space (String.concat " " (a' :: l1)))%string = b) in E.
    symmetry in E. now apply (noSpace_not_app a _ _ Hb) in E.
  - change ((a ++ String JS.space (String.concat " " (a' :: l1)))%string
            = (b ++ String JS.space (String.concat " " (b' :: l2)))%string) in E.
    destruct (app_space_inj _ _ _ _ Ha Hb E) as [-> E'].
    f_equal. apply IH; [discriminate | discriminate | assumption | assumption | exact E'].
Qed.

Lemma scoreRhyme_distinct (tail1 tail2 : list string) :
  tail1 <> [] -> tail2 <> [] ->
  JS.join " " tail1 <> JS.join " " tail2 ->
  (Minimal.scoreRhyme tail1 tail2 <= q0_95)%Q.
Proof.
  intros N1 N2 E. unfold Minimal.scoreRhyme.
  destruct tail1 as [|p1 r1]; [congruence |].
  destruct tail2 as [|p2 r2]; [congruence |].
  cbn [length Nat.eqb orb].
  destruct (String.eqb_spec (JS.join " " (p1 :: r1)) (JS.join " " (p2 :: r2)))
    as [Heq | _]; [contradiction |].
  apply Math_min_le_l.
Qed.

(** C9. On tails of phoneme codes (no code holds a blank):
    [scoreRhyme] is 0 when a tail is empty, exactly 1 when the two
    non-empty tails are the same list, stress digits included, and at
    most 0.95 otherwise; so a threshold above 0.95 is reached by
    identical non-empty tails only. *)
Theorem C9_scoreRhyme_levels (tail1 tail2 : list string) :
  Forall (fun p => Minimal.noSpace p = true) tail1 ->
  Forall (fun p => Minimal.noSpace p = true) tail2 ->
  (tail1 = [] \/ tail2 = [] -> Minimal.scoreRhyme tail1 tail2 = 0%Q)
  /\ (tail1 <> [] -> tail1 = tail2 -> Minimal.scoreRhyme tail1 tail2 = 1%Q)
  /\ (tail1 <> [] -> tail2 <> [] -> tail1 <> tail2 ->
      (Minimal.scoreRhyme tail1 tail2 <= q0_95)%Q)
  /\ (forall threshold : Q,
        (q0_95 < threshold)%Q ->
        Qle_bool threshold (Minimal.scoreRhyme tail1 tail2) = true ->
        tail1 <> [] /\ tail1 = tail2).
Proof.
  intros F1 F2.
  assert (Hzero : tail1 = [] \/ tail2 = [] -> Minimal.scoreRhyme tail1 tail2 = 0%Q).
  { intros [-> | ->]; unfold Minimal.scoreRhyme; [reflexivity |].
    now rewrite orb_true_r. }
  assert (Hlow : tail1 <> [] -> tail2 <> [] -> tail1 <> tail2 ->
                 (Minimal.scoreRhyme tail1 tail2 <= q0_95)%Q).
  { intros N1 N2 D. apply scoreRhyme_distinct; try assumption.
    intro E. apply D. now apply join_space_inj. }
  split; [exact Hzero | split; [| split; [exact Hlow |]]].
  - intros N1 <-. unfold Minimal.scoreRhyme.
    destruct tail1 as [|p r]; [congruence |].
    cbn [length Nat.eqb orb]. now rewrite String.eqb_refl.
  - intros threshold Hthr Hle. apply Qle_bool_iff in Hle.
    assert (Hhigh : (q0_95 < Minimal.scoreRhyme tail1 tail2)%Q)
      by (eapply Qlt_le_trans; eassumption).
    destruct tail1 as [|p1 r1].
    { rewrite Hzero in Hhigh by now left. discriminate Hhigh. }
    split; [discriminate |].
    destruct tail2 as [|p2 r2].
    { rewrite Hzero in Hhigh by now right. discriminate Hhigh. }
    destruct (list_eq_dec string_dec (p1 :: r1) (p2 :: r2)) as [E | D]; [exact E |].
    exfalso. apply (Qlt_not_le _ _ Hhigh). apply Hlow; [discriminate | discriminate | exact D].
Qed.

Lemma C9_scoreRhyme_levels_witness :
  Forall (fun p => Minimal.noSpace p = true) ["AE1"; "T"]
  /\ Forall (fun p => Minimal.noSpace p = true) ["AE0"; "T"]
  /\ (Minimal.scoreRhyme ["AE1"; "T"] ["AE0"; "T"] <= q0_95)%Q.
Proof.
  assert (F1 : Forall (fun p => Minimal.noSpace p = true) ["AE1"; "T"])
    by (repeat constructor).
  assert (F2 : Forall (fun p => Minimal.noSpace p = true) ["AE0"; "T"])
    by (repeat constructor).
  split; [exact F1 | split; [exact F2 |]].
  apply (proj1 (proj2 (proj2 (C9_scoreRhyme_levels _ _ F1 F2)))); discriminate.
Defined.

Example scoreRhyme_stress_differs :
  Minimal.scoreRhyme ["AE1"; "T"] ["AE0"; "T"] = q0_95.
Proof. vm_compute. reflexivity. Qed.

Example scoreRhyme_consonants_only :
  (Minimal.scoreRhyme ["K"] ["T"] == q0_5)%Q.
Proof. vm_compute. reflexivity. Qed.

(** The codes the minimal engine produces hold no blank. *)

Lemma lookup_In {V} (k : string) (t : list (string * V)) (v : V) :
  JS.lookup k t = Some v -> In (k, v) t.
Proof.
  induction t as [|[k' v'] t IH]; simpl; [discriminate |].
  destruct (String.eqb_spec k k') as [-> | _].
  - intros [= ->]. now left.
  - intros H. right. now apply IH.
Qed.

Lemma phones_loop_noSpace (cleaned : string) (stressed : bool) :
  Forall (fun p => Minimal.noSpace p = true) (Minimal.phones_loop cleaned stressed).
Proof.
  revert stressed.
  induction cleaned as [|c r IH]; intros stressed; cbn [Minimal.phones_loop].
  - constructor.
  - destruct (JS.has (JS.one c) ["a"; "e"; "i"; "o"; "u"; "y"]).
    + constructor; [| apply IH].
      unfold Minimal.letter_vowel.
      destruct stressed;
        repeat match goal with
               | |- context [String.eqb ?a ?b] => destruct (String.eqb a b)
               end; reflexivity.
    + destruct (JS.lookup (JS.one c) Minimal.consonantMap) as [p |] eqn:E; [| apply IH].
      constructor; [| apply IH].
      apply lookup_In in E.
      assert (T : forallb (fun kv => Minimal.noSpace (snd kv)) Minimal.consonantMap = true)
        by reflexivity.
      rewrite forallb_forall in T. exact (T _ E).
Qed.

Lemma wordToPhones_noSpace (w : string) (ps : list string) :
  Minimal.wordToPhones w = Some ps ->
  Forall (fun p => Minimal.noSpace p = true) ps.
Proof.
  unfold Minimal.wordToPhones.
  destruct (JS.inherited (Minimal.clean w)); [discriminate |].
  destruct (JS.lookup (Minimal.clean w) Minimal.CUSTOM_ARPA) as [v |] eqn:E.
  - intros [= <-]. apply lookup_In in E.
    assert (T : forallb (fun kv => forallb Minimal.noSpace (snd kv))
                        Minimal.CUSTOM_ARPA = true) by reflexivity.
    rewrite forallb_forall in T. specialize (T _ E). simpl in T.
    rewrite forallb_forall in T. now apply Forall_forall.
  - intros [= <-]. apply phones_loop_noSpace.
Qed.

Lemma Forall_skipn_keep {A} (P : A -> Prop) (n : nat) (l : list A) :
  Forall P l -> Forall P (skipn n l).
Proof.
  revert l. induction n as [|n IH]; intros [|x l] H; simpl; auto.
  inversion H; subst. now apply IH.
Qed.

Lemma getRhymeTail_noSpace (ps : list string) :
  Forall (fun p => Minimal.noSpace p = true) ps ->
  Forall (fun p => Minimal.noSpace p = true) (Minimal.getRhymeTail ps).
Proof.
  intros H. unfold Minimal.getRhymeTail, JS.slice_from, JS.slice_last2.
  destruct (Minimal.last_vowel_index ps (length ps)); now apply Forall_skipn_keep.
Qed.

(** ** Self-exclusion in the grouping loops *)

Lemma seed_inner_minimal (allWords : list Minimal.word) (threshold : Q) (i : nat)
  (js : list nat) (assigned : list nat) :
  exists rest,
    fst (fold_left (Minimal.inner_step allWords threshold i) js ([i], assigned))
    = i :: rest
    /\ forall j, In j rest ->
         Minimal.lowerText allWords j <> Minimal.lowerText allWords i.
Proof.
  apply (fold_left_invariant _ _ _
           (fun st : list nat * list nat =>
              exists rest, fst st = i :: rest
                /\ forall j, In j rest ->
                     Minimal.lowerText allWords j <> Minimal.lowerText allWords i)).
  - exists []. split; [reflexivity | intros j []].
  - intros [grp asg] j [rest [E H]] _. simpl in E. subst grp.
    unfold Minimal.inner_step.
    destruct (existsb (Nat.eqb j) asg); [now exists rest |].
    destruct (Qle_bool threshold _); simpl; [| now exists rest].
    destruct (String.eqb_spec (Minimal.lowerText allWords i)
                              (Minimal.lowerText allWords j)) as [_ | Hne];
      simpl; [now exists rest |].
    exists (rest ++ [j]). split; [reflexivity |].
    intros k Hk. apply in_app_or in Hk. destruct Hk as [Hk | [<- | []]].
    + now apply H.
    + congruence.
Qed.

Lemma seed_outer_minimal (allWords : list Minimal.word) (threshold : Q) :
  Forall (seedExclusive (Minimal.lowerText allWords))
         (Minimal.findGroups allWords threshold).
Proof.
  unfold Minimal.findGroups.
  apply (fold_left_invariant _ _ _
           (fun st : list (list nat) * list nat =>
              Forall (seedExclusive (Minimal.lowerText allWords)) (fst st))).
  - constructor.
  - intros [gs asg] i H _. simpl in H. unfold Minimal.outer_step.
    destruct (existsb (Nat.eqb i) asg); [exact H |].
    destruct (seed_inner_minimal allWords threshold i
                (seq (i + 1) (length allWords - (i + 1))) (i :: asg))
      as [rest [E Hrest]].
    destruct (fold_left _ _ _) as [grp asg'] eqn:F. simpl in E. subst grp.
    destruct (2 <=? length (i :: rest)); simpl; [| exact H].
    apply Forall_app. split; [exact H |].
    constructor; [| constructor]. now exists i, rest.
Qed.

Lemma seed_inner_main (cfg : Main.settings) (words : list Main.word)
  (spans : list Main.span) (i : nat) (js : list nat) (used : list bool) :
  exists rest,
    fst (fold_left (Main.group_inner_step cfg words spans i) js ([i], used))
    = i :: rest
    /\ forall j, In j rest ->
         Main.lowerOfSpan words spans j <> Main.lowerOfSpan words spans i.
Proof.
  apply (fold_left_invariant _ _ _
           (fun st : list nat * list bool =>
              exists rest, fst st = i :: rest
                /\ forall j, In j rest ->
                     Main.lowerOfSpan words spans j <> Main.lowerOfSpan words spans i)).
  - exists []. split; [reflexivity | intros j []].
  - intros [grp used'] j [rest [E H]] _. simpl in E. subst grp.
    assert (Hadd : Main.lowerOfSpan words spans i <> Main.lowerOfSpan words spans j ->
                   exists rest', fst (i :: rest ++ [j], Main.setUsed used' j) = i :: rest'
                     /\ forall k, In k rest' ->
                          Main.lowerOfSpan words spans k <> Main.lowerOfSpan words spans i).
    { intros Hne. exists (rest ++ [j]). split; [reflexivity |].
      intros k Hk. apply in_app_or in Hk. destruct Hk as [Hk | [<- | []]].
      - now apply H.
      - congruence. }
    unfold Main.group_inner_step.
    destruct (nth j used' false); [now exists rest |].
    destruct (String.eqb_spec (Main.lowerOfSpan words spans i)
                              (Main.lowerOfSpan words spans j)) as [_ | Hne];
      [now exists rest |].
    destruct (Main.multiMatch _ _); [now apply Hadd |].
    destruct (Qle_bool _ _); [now apply Hadd | now exists rest].
Qed.

Lemma seed_outer_main (cfg : Main.settings) (words : list Main.word)
  (spans : list Main.span) :
  Forall (seedExclusive (Main.lowerOfSpan words spans))
         (Main.groupIndices cfg words spans).
Proof.
  unfold Main.groupIndices.
  apply (fold_left_invariant _ _ _
           (fun st : list (list nat) * list bool =>
              Forall (seedExclusive (Main.lowerOfSpan words spans)) (fst st))).
  - constructor.
  - intros [gs used] i H _. simpl in H. unfold Main.group_outer_step.
    destruct (nth i used false); [exact H |].
    destruct (seed_inner_main cfg words spans i
                (seq (i + 1) (length spans - (i + 1))) (Main.setUsed used i))
      as [rest [E Hrest]].
    destruct (fold_left _ _ _) as [grp used'] eqn:F. simpl in E. subst grp.
    destruct (2 <=? length (i :: rest)); simpl; [| exact H].
    apply Forall_app. split; [exact H |].
    constructor; [| constructor]. now exists i, rest.
Qed.

(** C1, as stated, fails: in "cat hat hat" the two tokens "hat" both
    rhyme with the seed "cat" and land in its group. *)
Lemma C1_counterexample :
  exists r, Minimal.analyzeText "cat hat hat" q0_5 = Some r
            /\ ~ Minimal.selfExclusive r.
Proof.
  eexists. split; [vm_compute; reflexivity |].
  intros H. apply (H [0; 1; 2] 1 2); simpl; auto.
Qed.

(** C1, amended. In every rhyme group no member has the normalized
    text of the first member of the group (its seed): for every text
    and threshold in the minimal engine, and for every list of words
    and spans handed to the grouping loop of [RhymeAnalyzer.analyze]. *)
Theorem C1_seed_exclusion (text : string) (threshold : Q) (r : Minimal.analysis)
  (cfg : Main.settings) (words : list Main.word) (spans : list Main.span) :
  Minimal.analyzeText text threshold = Some r ->
  (forall g, In g (Minimal.groups r) ->
             seedExclusive (Minimal.lowerText (Minimal.words r)) g)
  /\ (forall g, In g (Main.groupIndices cfg words spans) ->
                seedExclusive (Main.lowerOfSpan words spans) g).
Proof.
  intros Hr. split.
  - unfold Minimal.analyzeText in Hr.
    destruct (Minimal.tokenize text) as [allWords |]; [| discriminate].
    injection Hr as <-. simpl.
    apply Forall_forall. apply seed_outer_minimal.
  - apply Forall_forall. apply seed_outer_main.
Qed.

Lemma C1_seed_exclusion_witness :
  exists r, Minimal.analyzeText "cat hat hat" q0_5 = Some r
    /\ forall g, In g (Minimal.groups r) ->
         seedExclusive (Minimal.lowerText (Minimal.words r)) g.
Proof.
  eexists. split.
  - vm_compute. reflexivity.
  - apply (C1_seed_exclusion "cat hat hat" q0_5 _ Main.defaults [] []).
    vm_compute. reflexivity.
Defined.

(** The grouping loop of main.js behaves in the same way on words that
    carry rhyme keys: two later members may share their text. *)
Example main_loop_groups_duplicates :
  Main.groupIndices Main.defaults three_words (Main.buildSpans three_words)
  = [[0; 1; 2]].
Proof. vm_compute. reflexivity. Qed.

(** ** What main.js does with a word *)

(** C4. On the two-line text "cat", "hat" [analyze] removes every
    letter of both words in [cleanWord] (its class keeps backslash, w
    and apostrophe only), so both get no phoneme, no syllable and no
    rhyme key; there is no span and no rhyme group, and since the text
    is split at backslash-n, not at the line feed, both words are on
    line 0 and the scheme is "-". *)
Theorem C4_cat_hat (cfg : Main.settings) :
  let r := Main.analyze cfg ("cat" ++ Minimal.nl ++ "hat")%string in
  map Main.text (Main.words r) = ["cat"; "hat"]
  /\ map Main.lower (Main.words r) = [""; ""]
  /\ map Main.phones (Main.words r) = [[]; []]
  /\ map Main.line (Main.words r) = [0; 0]
  /\ Main.allSpans r = []
  /\ Main.groups r = []
  /\ Main.scheme (Main.metricsOf r) = "-".
Proof.
  destruct cfg as [p s [] []]; vm_compute; repeat split.
Qed.

(** Past the tokenizer the engine does group the two words: handed
    "cat" and "hat" with phonemes it recognises, it gives both the key
    (A, [T]), one group of two and the scheme "AA". *)
Remark engine_groups_cat_hat :
  let r := Main.analyzeWords Main.defaults [] two_words in
  map Main.key (Main.allSpans r) = [("A", ["T"]); ("A", ["T"])]
  /\ map (fun g => map Main.wordIndex (Main.spans g)) (Main.groups r) = [[0; 1]]
  /\ Main.scheme (Main.metricsOf r) = "AA".
Proof. vm_compute. repeat split. Qed.

(** The text is split where it holds a backslash followed by n. *)
Example lines_of_backslash_n :
  map Main.line
      (Main.words (Main.analyze Main.defaults
                     ("wow" ++ Main.lineSeparator ++ "wow")%string))
  = [0; 1]
  /\ map Main.line
       (Main.words (Main.analyze Main.defaults ("wow" ++ Minimal.nl ++ "wow")%string))
     = [0; 0].
Proof. vm_compute. split; reflexivity. Qed.

(** C8. "gonna" is a key of the exception dictionary, yet
    [wordToPhones] does not return its entry: [cleanWord] leaves the
    empty string, the lookup misses and the heuristic converter is
    run on the empty string. *)
Theorem C8_gonna :
  JS.lookup "gonna" Main.CUSTOM_ARPA = Some ["G"; "AH1"; "N"; "AH0"]
  /\ Main.cleanWord "gonna" = ""
  /\ Main.wordToPhones "gonna" = Main.g2pHeuristic ""
  /\ Main.wordToPhones "gonna" = [].
Proof. vm_compute. repeat split. Qed.

(** C6. The first phoneme carries the stress digit 1, but the vowel
    test of [syllabify] does not recognise a phoneme with a digit
    ([normalizePhone] removes backslash-d, not digits): the marked
    phoneme is kept as a consonant and the index falls back to the
    final syllable. *)
Theorem C6_stress_marker :
  Main.isVowelPhone "AE1" = false
  /\ Main.syllabify ["AE1"; "T"; "IY"] = ([["AE1"; "T"]; ["IY"]], Some 1).
Proof. vm_compute. split; reflexivity. Qed.


(** ** Texts without a word *)

Lemma space_is_no_token (c : ascii) :
  JS.is_space c = true ->
  JS.in_token_class c = false /\ Ascii.eqb c JS.backslash = false.
Proof.
  destruct c as [[] [] [] [] [] [] [] []]; intros H;
    try discriminate H; split; reflexivity.
Qed.

Lemma append_assoc (a b c : string) :
  ((a ++ b) ++ c)%string = (a ++ (b ++ c))%string.
Proof. induction a as [|x a IH]; simpl; [reflexivity | now rewrite IH]. Qed.

Lemma split_no_backslash (s cur : string) :
  JS.all_chars (fun c => negb (Ascii.eqb c JS.backslash)) s = true ->
  JS.split_go Main.lineSeparator s 0 cur = [(cur ++ s)%string].
Proof.
  revert cur. induction s as [|c r IH]; intros cur H.
  - simpl. f_equal.
    induction cur as [|x cur IHc]; simpl; [reflexivity | now f_equal].
  - simpl in H. apply andb_true_iff in H. destruct H as [Hc Hr].
    apply negb_true_iff in Hc.
    cbn [JS.split_go]. unfold Main.lineSeparator. cbn [prefix].
    destruct (ascii_dec JS.backslash c) as [<- | _].
    + now rewrite Ascii.eqb_refl in Hc.
    + rewrite (IH _ Hr). now rewrite append_assoc.
Qed.

Lemma all_space_no_backslash (s : string) :
  JS.all_space s = true ->
  JS.all_chars (fun c => negb (Ascii.eqb c JS.backslash)) s = true.
Proof.
  induction s as [|c r IH]; simpl; [reflexivity |].
  intros H. apply andb_true_iff in H. destruct H as [Hc Hr].
  destruct (space_is_no_token c Hc) as [_ ->]. simpl. now apply IH.
Qed.

Lemma runs_of_blank (s : string) (pos : nat) :
  JS.all_space s = true -> JS.runs_go s pos None = [].
Proof.
  revert pos. induction s as [|c r IH]; intros pos H; simpl; [reflexivity |].
  simpl in H. apply andb_true_iff in H. destruct H as [Hc Hr].
  destruct (space_is_no_token c Hc) as [-> _]. now apply IH.
Qed.

Lemma tokenize_blank (text : string) :
  JS.all_space text = true ->
  Main.splitLines text = [text] /\ Main.tokenize text = [].
Proof.
  intros H.
  assert (E : Main.splitLines text = [text]).
  { unfold Main.splitLines, JS.split.
    now rewrite split_no_backslash by now apply all_space_no_backslash. }
  split; [exact E |].
  unfold Main.tokenize. rewrite E. simpl.
  unfold JS.matchAll_token. now rewrite runs_of_blank.
Qed.

Lemma trimStart_blank (s : string) :
  JS.all_space s = true -> JS.trimStart s = "".
Proof.
  induction s as [|c r IH]; simpl; [reflexivity |].
  intros H. apply andb_true_iff in H. destruct H as [-> Hr]. now apply IH.
Qed.

(** C2. For an empty or white-space-only text, [analyze] of main.js
    returns the empty result: no word, no span, no rhyme group, no
    assonance group, no internal pair, all counts and ratios zero
    (density 0) and an empty scheme; no step of [analyze] can raise.
    The guard of [analyzeText] in main-hiphop.js returns its empty
    result, whatever the analysis of other texts is. *)
Theorem C2_empty_input (cfg : Main.settings) (text : string) :
  JS.all_space text = true ->
  Main.analyze cfg text = emptyAnalysis [text]
  /\ forall (G I C K F P : Type) (rest : string -> Hiphop.result G I C K F P),
       Hiphop.analyzeText G I C K F P rest text = Hiphop.emptyResult G I C K F P.
Proof.
  intros H. split.
  - unfold Main.analyze. destruct (tokenize_blank text H) as [-> ->].
    destruct cfg as [p s [] []]; reflexivity.
  - intros G I C K F P rest. unfold Hiphop.analyzeText, JS.trim.
    rewrite (trimStart_blank text H). simpl. now rewrite orb_true_r.
Qed.

Lemma C2_empty_input_witness :
  JS.all_space (String JS.space Minimal.nl) = true
  /\ Main.analyze Main.defaults (String JS.space Minimal.nl)
     = emptyAnalysis [String JS.space Minimal.nl].
Proof.
  split; [reflexivity |].
  apply (C2_empty_input Main.defaults (String JS.space Minimal.nl)). reflexivity.
Defined.

Example analyze_empty_string :
  Main.analyze Main.defaults "" = emptyAnalysis [""].
Proof. vm_compute. reflexivity. Qed.

(** ** No word of main.js gets a rhyme key *)

Lemma class_cases (c : ascii) :
  Main.cleanWord_class c = true ->
  c = JS.backslash \/ c = "w"%char \/ c = JS.apostrophe.
Proof.
  unfold Main.cleanWord_class. intros H.
  apply orb_true_iff in H. destruct H as [H | H].
  - apply orb_true_iff in H. destruct H as [H | H].
    + left. now apply Ascii.eqb_eq.
    + right. left. now apply Ascii.eqb_eq.
  - right. right. now apply Ascii.eqb_eq.
Qed.

Lemma keep_chars_all (P : ascii -> bool) (s : string) :
  JS.all_chars P (JS.keep_chars P s) = true.
Proof.
  induction s as [|c r IH]; simpl; [reflexivity |].
  destruct (P c) eqn:E; simpl; [now rewrite E | exact IH].
Qed.

Lemma trimStart_all (P : ascii -> bool) (s : string) :
  JS.all_chars P s = true -> JS.all_chars P (JS.trimStart s) = true.
Proof.
  induction s as [|c r IH]; simpl; [reflexivity |].
  intros H. destruct (JS.is_space c); [| exact H].
  apply andb_true_iff in H. now apply IH.
Qed.

Lemma trimEnd_all (P : ascii -> bool) (s : string) :
  JS.all_chars P s = true -> JS.all_chars P (JS.trimEnd s) = true.
Proof.
  induction s as [|c r IH]; [reflexivity |].
  intros H. cbn [JS.trimEnd]. destruct (JS.all_space (String c r)); [reflexivity |].
  simpl in H. apply andb_true_iff in H. destruct H as [Hc Hr].
  simpl. rewrite Hc. now apply IH.
Qed.

Lemma cleanWord_in_class (word : string) :
  JS.all_chars Main.cleanWord_class (Main.cleanWord word) = true.
Proof.
  unfold Main.cleanWord, JS.trim.
  apply trimEnd_all, trimStart_all, keep_chars_all.
Qed.

Lemma toLowerCase_in_class (s : string) :
  JS.all_chars Main.cleanWord_class s = true -> JS.toLowerCase s = s.
Proof.
  induction s as [|c r IH]; simpl; [reflexivity |].
  intros H. apply andb_true_iff in H. destruct H as [Hc Hr].
  rewrite (IH Hr). f_equal.
  destruct (class_cases c Hc) as [-> | [-> | ->]]; reflexivity.
Qed.

Lemma lookup_outside {V} (P : ascii -> bool) (t : list (string * V)) (s : string) :
  forallb (fun kv => negb (JS.all_chars P (fst kv))) t = true ->
  JS.all_chars P s = true ->
  JS.lookup s t = None.
Proof.
  intros Ht Hs. induction t as [|[k v] t IH]; simpl; [reflexivity |].
  simpl in Ht. apply andb_true_iff in Ht. destruct Ht as [Hk Ht].
  destruct (String.eqb_spec s k) as [-> | _].
  - rewrite Hs in Hk. discriminate Hk.
  - now apply IH.
Qed.

(** The dictionary is never hit: none of its keys is made of
    backslash, w and apostrophe only. *)
Lemma wordToPhones_is_heuristic (word : string) :
  Main.wordToPhones word = Main.g2pHeuristic (Main.cleanWord word).
Proof.
  unfold Main.wordToPhones.
  rewrite (lookup_outside Main.cleanWord_class Main.CUSTOM_ARPA);
    [reflexivity | reflexivity | apply cleanWord_in_class].
Qed.

Lemma g2p_loop_skip (c : ascii) (r : string) (k : nat) (stressed : bool) :
  Main.g2p_loop (String c r) (S k) stressed = Main.g2p_loop r k stressed.
Proof. reflexivity. Qed.

Lemma g2p_loop_in_class (c : ascii) (r : string) (stressed : bool) :
  Main.cleanWord_class c = true ->
  JS.all_chars Main.cleanWord_class r = true ->
  Main.g2p_loop (String c r) 0 stressed
  = (if Ascii.eqb c "w"%char then ["W"] else []) ++ Main.g2p_loop r 0 stressed.
Proof.
  intros Hc Hr.
  destruct r as [|c2 r2].
  - destruct (class_cases c Hc) as [-> | [-> | ->]]; reflexivity.
  - simpl in Hr. apply andb_true_iff in Hr. destruct Hr as [Hc2 _].
    destruct (class_cases c Hc) as [-> | [-> | ->]];
      destruct (class_cases c2 Hc2) as [-> | [-> | ->]]; reflexivity.
Qed.

Lemma g2p_loop_only_W (w : string) (skip : nat) (stressed : bool) :
  JS.all_chars Main.cleanWord_class w = true ->
  Forall (eq "W") (Main.g2p_loop w skip stressed).
Proof.
  revert skip stressed. induction w as [|c r IH]; intros skip stressed H.
  - constructor.
  - simpl in H. apply andb_true_iff in H. destruct H as [Hc Hr].
    destruct skip as [|k].
    + rewrite (g2p_loop_in_class c r stressed Hc Hr).
      apply Forall_app. split; [| now apply IH].
      destruct (Ascii.eqb c "w"); repeat constructor.
    + rewrite g2p_loop_skip. now apply IH.
Qed.

Lemma Forall_filter_keep {A} (P : A -> Prop) (f : A -> bool) (l : list A) :
  Forall P l -> Forall P (filter f l).
Proof.
  induction 1 as [|x l Hx Hl IH]; simpl; [constructor |].
  destruct (f x); [now constructor | exact IH].
Qed.

Lemma dedupe_keeps (P : string -> Prop) (l acc : list string) :
  Forall P acc -> Forall P l -> Forall P (fold_left Main.dedupe_step l acc).
Proof.
  revert acc. induction l as [|x l IH]; intros acc Ha Hl; simpl; [exact Ha |].
  inversion Hl; subst. apply IH; [| assumption].
  unfold Main.dedupe_step.
  destruct (_ || _); [| exact Ha].
  apply Forall_app. split; [exact Ha | now repeat constructor].
Qed.

Lemma g2pHeuristic_only_W (s : string) :
  JS.all_chars Main.cleanWord_class s = true ->
  Forall (eq "W") (Main.g2pHeuristic s).
Proof.
  intros H. unfold Main.g2pHeuristic.
  apply dedupe_keeps; [constructor |].
  apply Forall_filter_keep. rewrite (toLowerCase_in_class s H).
  now apply g2p_loop_only_W.
Qed.

Lemma only_W_noVowel (ps : list string) : Forall (eq "W") ps -> noVowel ps.
Proof.
  unfold noVowel. intros H. eapply Forall_impl; [| exact H].
  intros p <-. reflexivity.
Qed.

Lemma syllabify_step_consonant (syls : list (list string)) (cur : list string)
  (st : option nat) (p : string) :
  Main.isVowelPhone p = false ->
  Main.syllabify_step (syls, cur, st) p = (syls, cur ++ [p], st).
Proof. intros H. unfold Main.syllabify_step. now rewrite H. Qed.

Lemma syllabify_fold_noVowel (ps cur : list string) :
  noVowel ps ->
  fold_left Main.syllabify_step ps ([], cur, None) = ([], cur ++ ps, None).
Proof.
  revert cur. induction ps as [|p ps IH]; intros cur H; cbn [fold_left].
  - now rewrite app_nil_r.
  - inversion H as [|? ? Hp Hps]; subst.
    rewrite (syllabify_step_consonant _ _ _ _ Hp).
    rewrite (IH _ Hps). now rewrite <- app_assoc.
Qed.

Lemma syllabify_noVowel (ps : list string) :
  noVowel ps ->
  Main.syllabify ps
  = match ps with
    | [] => ([], None)
    | _ => ([ps], Some 0)
    end.
Proof.
  intros H. unfold Main.syllabify.
  rewrite (syllabify_fold_noVowel ps [] H). simpl.
  destruct ps; reflexivity.
Qed.

Lemma extract_step_onset (coda : list string) (p : string) :
  Main.isVowelPhone p = false ->
  Main.extract_step (None, coda) p = (None, coda).
Proof.
  intros H. unfold Main.extract_step.
  unfold Main.isVowelPhone in H. now rewrite H.
Qed.

Lemma extract_fold_noVowel (syl : list string) :
  noVowel syl -> Main.extractNucleusAndCoda syl = (None, []).
Proof.
  unfold Main.extractNucleusAndCoda.
  induction 1 as [|p syl Hp Hsyl IH]; cbn [fold_left]; [reflexivity |].
  now rewrite (extract_step_onset _ _ Hp).
Qed.

Lemma getRhymeKey_noVowel (ps : list string) :
  noVowel ps ->
  Main.getRhymeKey (fst (Main.syllabify ps)) (snd (Main.syllabify ps)) = None.
Proof.
  intros H. rewrite (syllabify_noVowel ps H).
  destruct ps as [|p ps]; [reflexivity |].
  unfold Main.getRhymeKey. cbn [fst snd length Nat.eqb Nat.sub Nat.min Nat.max nth].
  rewrite (extract_fold_noVowel _ H). rewrite andb_false_r. reflexivity.
Qed.

Lemma word_of_main_keyless (word : string) :
  Main.getRhymeKey (fst (Main.syllabify (Main.wordToPhones word)))
                   (snd (Main.syllabify (Main.wordToPhones word))) = None.
Proof.
  apply getRhymeKey_noVowel, only_W_noVowel.
  rewrite wordToPhones_is_heuristic.
  apply g2pHeuristic_only_W, cleanWord_in_class.
Qed.

Lemma match_step_keyless (lineIndex : nat) (words : list Main.word) (m : nat * string) :
  Forall keyless words -> Forall keyless (Main.match_step lineIndex words m).
Proof.
  intros H. destruct m as [index w]. unfold Main.match_step.
  destruct (_ && _); [exact H |].
  pose proof (word_of_main_keyless (Main.cleanWord w)) as K.
  destruct (Main.syllabify (Main.wordToPhones (Main.cleanWord w))) as [syls st].
  apply Forall_app. split; [exact H |].
  constructor; [exact K | constructor].
Qed.

Lemma tokenize_keyless (text : string) : Forall keyless (Main.tokenize text).
Proof.
  unfold Main.tokenize.
  apply (fold_left_invariant _ _ _
           (fun st : list Main.word * nat => Forall keyless (fst st))).
  - constructor.
  - intros [ws n] ln H _. simpl in H. unfold Main.line_step. simpl.
    apply (fold_left_invariant _ _ _ (Forall keyless)); [exact H |].
    intros ws' m H' _. now apply match_step_keyless.
Qed.

Lemma buildSpans_keyless (words : list Main.word) :
  Forall keyless words -> Main.buildSpans words = [].
Proof.
  intros H. unfold Main.buildSpans.
  apply (fold_left_invariant _ _ _ (fun sps : list Main.span => sps = [])).
  - reflexivity.
  - intros sps i -> _. unfold Main.span_step.
    assert (K : keyless (nth i words Main.dummy_word)).
    { destruct (Nat.lt_ge_cases i (length words)) as [Hi | Hi].
      - rewrite Forall_forall in H. apply H. now apply nth_In.
      - rewrite nth_overflow by exact Hi. reflexivity. }
    unfold keyless in K. now rewrite K.
Qed.

(** Whatever the text and the settings, [analyze] builds no span and
    no rhyme group. *)
Lemma analyze_no_group (cfg : Main.settings) (text : string) :
  Main.allSpans (Main.analyze cfg text) = []
  /\ Main.groups (Main.analyze cfg text) = []
  /\ Main.groupedWords (Main.analyze cfg text) = 0.
Proof.
  assert (E : Main.buildSpans (Main.tokenize text) = [])
    by apply buildSpans_keyless, tokenize_keyless.
  unfold Main.groupedWords, Main.analyze, Main.analyzeWords. cbn [Main.allSpans Main.groups Main.words].
  rewrite E. split; [reflexivity | split; [reflexivity |]].
  cbn [Main.rhymeGroups Main.groupIndices length seq fold_left fst map repeat].
  induction (seq 0 (length (Main.tokenize text))) as [|i l IH]; [reflexivity | exact IH].
Qed.


(** The grouping loop by itself is not monotone: handed words that do
    carry rhyme keys, a larger [slantThreshold] lets the first word
    claim the seed of a group of three, whose other members then stay
    alone. *)
Remark grouping_loop_not_monotone :
  Main.groupIndices (with_slant (18 # 100)) five_words (Main.buildSpans five_words)
  = [[1; 2; 3]]
  /\ Main.groupIndices (with_slant (22 # 100)) five_words (Main.buildSpans five_words)
     = [[0; 1]]
  /\ Main.groupedWords (Main.analyzeWords (with_slant (18 # 100)) [] five_words) = 3
  /\ Main.groupedWords (Main.analyzeWords (with_slant (22 # 100)) [] five_words) = 2.
Proof. vm_compute. repeat split. Qed.

(** ** Syllables *)

Lemma syllabify_step_vowel (syls : list (list string)) (cur : list string)
  (st : option nat) (p : string) :
  Main.isVowelPhone p = true ->
  exists st',
    Main.syllabify_step (syls, cur, st) p
    = (if 0 <? length cur then syls ++ [cur] else syls, [p], st').
Proof. intros H. unfold Main.syllabify_step. rewrite H. eauto. Qed.

Lemma noVowel_app (a b : list string) : noVowel a -> noVowel b -> noVowel (a ++ b).
Proof. intros Ha Hb. apply Forall_app. now split. Qed.

Lemma vowelLed_snoc (syl : list string) (p : string) :
  vowelLed syl -> Main.isVowelPhone p = false -> vowelLed (syl ++ [p]).
Proof.
  intros [v [rest [-> [Hv Hrest]]]] Hp.
  exists v, (rest ++ [p]). split; [reflexivity | split; [exact Hv |]].
  apply noVowel_app; [exact Hrest | now repeat constructor].
Qed.

Lemma vowelLed_single (p : string) : Main.isVowelPhone p = true -> vowelLed [p].
Proof. intros H. exists p, []. repeat split; [exact H | constructor]. Qed.

Lemma shape_snoc (syls : list (list string)) (cur : list string) :
  syllablesShape syls -> vowelLed cur -> syllablesShape (syls ++ [cur]).
Proof.
  intros [Hall Htl] Hcur. split.
  - apply Forall_app. split; [exact Hall | constructor; [now left | constructor]].
  - destruct syls as [|s0 syls]; simpl; [constructor |].
    apply Forall_app. split; [exact Htl | now repeat constructor].
Qed.

Lemma syllabify_fold_shape (ps : list string) (syls : list (list string))
  (cur : list string) (st : option nat) :
  loopShape syls cur ->
  exists syls' cur' st',
    fold_left Main.syllabify_step ps (syls, cur, st) = (syls', cur', st')
    /\ loopShape syls' cur'
    /\ List.concat syls' ++ cur' = List.concat syls ++ cur ++ ps.
Proof.
  revert syls cur st. induction ps as [|p ps IH]; intros syls cur st Inv.
  - exists syls, cur, st. rewrite app_nil_r. now repeat split.
  - cbn [fold_left]. destruct (Main.isVowelPhone p) eqn:Hp.
    + destruct (syllabify_step_vowel syls cur st p Hp) as [st1 ->].
      assert (Inv1 : loopShape (if 0 <? length cur then syls ++ [cur] else syls) [p]).
      { right. split; [now apply vowelLed_single |].
        destruct Inv as [[-> Hcur] | [Hcur Hshape]].
        - destruct cur as [|c cur]; simpl.
          + split; constructor.
          + split; [| constructor].
            constructor; [| constructor]. right. split; [discriminate | exact Hcur].
        - destruct Hcur as [v [rest [-> Hv]]]. simpl.
          apply shape_snoc; [exact Hshape | now exists v, rest]. }
      destruct (IH _ _ st1 Inv1) as [syls' [cur' [st' [E [Inv' C]]]]].
      exists syls', cur', st'. split; [exact E | split; [exact Inv' |]].
      rewrite C. destruct cur as [|c cur]; simpl.
      * reflexivity.
      * rewrite concat_app. simpl. rewrite app_nil_r, <- !app_assoc. reflexivity.
    + rewrite (syllabify_step_consonant _ _ _ _ Hp).
      assert (Inv1 : loopShape syls (cur ++ [p])).
      { destruct Inv as [[-> Hcur] | [Hcur Hshape]].
        - left. split; [reflexivity |].
          apply noVowel_app; [exact Hcur | now repeat constructor].
        - right. split; [now apply vowelLed_snoc | exact Hshape]. }
      destruct (IH _ _ st Inv1) as [syls' [cur' [st' [E [Inv' C]]]]].
      exists syls', cur', st'. split; [exact E | split; [exact Inv' |]].
      rewrite C, <- !app_assoc. reflexivity.
Qed.

Lemma syllabify_shape (phones : list string) :
  List.concat (fst (Main.syllabify phones)) = phones
  /\ syllablesShape (fst (Main.syllabify phones)).
Proof.
  destruct (syllabify_fold_shape phones [] [] None) as [syls [cur [st [E [Inv C]]]]].
  { left. split; [reflexivity | constructor]. }
  unfold Main.syllabify. rewrite E. cbn [fst]. simpl in C.
  destruct Inv as [[-> Hcur] | [Hcur Hshape]].
  - destruct cur as [|c cur]; simpl in *.
    + split; [now symmetry | split; constructor].
    + rewrite app_nil_r. split; [exact C | split; [| constructor]].
      constructor; [| constructor]. right. split; [discriminate | exact Hcur].
  - destruct Hcur as [v [rest [-> Hv]]]. simpl.
    split.
    + rewrite concat_app. simpl. now rewrite app_nil_r.
    + apply shape_snoc; [exact Hshape | now exists v, rest].
Qed.




(** The stress digit is never seen. *)

Lemma normalizePhone_two (c1 c2 : ascii) (r : string) :
  Main.normalizePhone (String c1 (String c2 r))
  = if Ascii.eqb c1 JS.backslash && Ascii.eqb c2 "d"
    then Main.normalizePhone r
    else String c1 (Main.normalizePhone (String c2 r)).
Proof. reflexivity. Qed.

Lemma normalizePhone_keeps_last (p : string) (d : ascii) :
  d <> "d"%char ->
  (JS.last_char p = Some d -> JS.last_char (Main.normalizePhone p) = Some d)
  /\ forall c, JS.last_char (String c p) = Some d ->
               JS.last_char (Main.normalizePhone (String c p)) = Some d.
Proof.
  intros Hd. induction p as [|c2 r2 [IH1 IH2]].
  - split; [discriminate | intros c H; exact H].
  - split; [apply IH2 |].
    intros c H. rewrite normalizePhone_two.
    destruct (Ascii.eqb c JS.backslash && Ascii.eqb c2 "d") eqn:E.
    + apply IH1. destruct r2 as [|c3 r3]; [| exact H].
      simpl in H. injection H as <-.
      apply andb_true_iff in E. destruct E as [_ E].
      apply Ascii.eqb_eq in E. congruence.
    + assert (H2 : JS.last_char (String c2 r2) = Some d) by exact H.
      apply IH2 in H2.
      destruct (Main.normalizePhone (String c2 r2)) as [|x y] eqn:N;
        [discriminate H2 | exact H2].
Qed.

Lemma has_In (x : string) (l : list string) : JS.has x l = true -> In x l.
Proof.
  unfold JS.has. intros H. apply existsb_exists in H.
  destruct H as [y [Hy E]]. apply String.eqb_eq in E. now subst.
Qed.

Lemma vowel_has_no_marker (p : string) :
  Main.isVowelPhone p = true -> JS.endsWith p "1" = false.
Proof.
  intros Hv. unfold JS.endsWith.
  destruct (JS.last_char p) as [d |] eqn:L; [| reflexivity].
  destruct (Ascii.eqb_spec d "1") as [-> | _]; [| reflexivity].
  exfalso.
  assert (N : JS.last_char (Main.normalizePhone p) = Some "1"%char).
  { apply (proj1 (normalizePhone_keeps_last p "1" ltac:(discriminate))). exact L. }
  apply has_In in Hv.
  unfold ARPA_VOWELS in Hv. simpl in Hv.
  repeat (destruct Hv as [Hv | Hv]; [rewrite <- Hv in N; discriminate N |]).
  exact Hv.
Qed.

Lemma syllabify_fold_stress (ps : list string) (syls : list (list string))
  (cur : list string) :
  snd (fold_left Main.syllabify_step ps (syls, cur, None)) = None.
Proof.
  revert syls cur. induction ps as [|p ps IH]; intros syls cur; [reflexivity |].
  cbn [fold_left]. unfold Main.syllabify_step at 2.
  destruct (Main.isVowelPhone p) eqn:Hp.
  - rewrite (vowel_has_no_marker p Hp). apply IH.
  - apply IH.
Qed.

(** [syllabify] always reports the final syllable as the stressed one,
    and [null] when there is no syllable. *)
Lemma syllabify_stress_default (phones : list string) :
  snd (Main.syllabify phones)
  = match fst (Main.syllabify phones) with
    | [] => None
    | syls => Some (length syls - 1)
    end.
Proof.
  unfold Main.syllabify.
  pose proof (syllabify_fold_stress phones [] []) as H.
  destruct (fold_left Main.syllabify_step phones ([], [], None)) as [[syls cur] st].
  simpl in H. subst st. cbn [fst snd].
  destruct (if 0 <? length cur then syls ++ [cur] else syls); reflexivity.
Qed.

Lemma syllabify_nil : Main.syllabify [] = ([], None).
Proof. reflexivity. Qed.

(** ** The distance *)

Lemma split_go_nonempty (sep s : string) (skip : nat) (cur : string) :
  JS.split_go sep s skip cur <> [].
Proof.
  revert skip cur. induction s as [|c r IH]; intros skip cur.
  - intro H. discriminate H.
  - cbn [JS.split_go]. destruct skip; [| apply IH].
    destruct (prefix sep (String c r)); [intro H; discriminate H | apply IH].
Qed.

Lemma last_cons_nonempty {A} (x d : A) (l : list A) : l <> [] -> last (x :: l) d = last l d.
Proof. destruct l; [congruence | reflexivity]. Qed.

Lemma append_empty_r (s : string) : (s ++ "")%string = s.
Proof. induction s as [|c s IH]; simpl; [reflexivity | now rewrite IH]. Qed.

Lemma afterSeparator_no_plus (s : string) :
  JS.contains_char "+" s = false -> Spec.afterSeparator s = s.
Proof.
  destruct s as [|c r]; [reflexivity |].
  simpl. intros H. apply orb_false_iff in H. destruct H as [Hc Hr].
  now rewrite Hr, Hc.
Qed.

Lemma split_plus_last (s cur : string) :
  last (JS.split_go "+" s 0 cur) ""
  = if JS.contains_char "+" s then Spec.afterSeparator s else (cur ++ s)%string.
Proof.
  revert cur. induction s as [|c r IH]; intros cur.
  - simpl. now rewrite append_empty_r.
  - cbn [JS.split_go prefix String.length Nat.sub JS.contains_char Spec.afterSeparator].
    destruct (ascii_dec "+" c) as [<- | Hne].
    + replace (prefix "" r) with true by (destruct r; reflexivity).
      rewrite last_cons_nonempty by apply split_go_nonempty.
      rewrite IH. rewrite Ascii.eqb_refl. simpl.
      destruct (JS.contains_char "+" r); reflexivity.
    + assert (E : Ascii.eqb c "+" = false).
      { apply Ascii.eqb_neq. congruence. }
      rewrite E. simpl. rewrite IH.
      destruct (JS.contains_char "+" r); [reflexivity |].
      now rewrite append_assoc.
Qed.

(** [n.split("+").pop()] is what follows the last separator. *)
Lemma split_pop (n : string) :
  last (JS.split "+" n) "" = Spec.afterSeparator n.
Proof.
  unfold JS.split. rewrite split_plus_last.
  destruct (JS.contains_char "+" n) eqn:E; [reflexivity |].
  now rewrite afterSeparator_no_plus.
Qed.

Lemma finalComponent_wellFormed (n : string) (c : list string) :
  Spec.wellFormedKey (n, c) = true ->
  Main.finalComponent n = Spec.afterSeparator n
  /\ In (Spec.afterSeparator n) Spec.labels.
Proof.
  unfold Spec.wellFormedKey. cbn [fst]. intros H. apply has_In in H.
  split; [| exact H].
  unfold Main.finalComponent. rewrite split_pop.
  destruct (String.eqb_spec (Spec.afterSeparator n) "") as [E | _]; [| reflexivity].
  rewrite E in H. simpl in H.
  repeat (destruct H as [H | H]; [discriminate H |]). contradiction.
Qed.

Lemma family_test_on_labels (a b : string) :
  In a Spec.labels -> In b Spec.labels ->
  (Main.getVowelFamily a =? Main.getVowelFamily b) = Spec.sameFamily a b.
Proof.
  intros Ha Hb.
  assert (T : forallb (fun a => forallb (fun b =>
                Bool.eqb (Main.getVowelFamily a =? Main.getVowelFamily b)
                         (Spec.sameFamily a b)) Spec.labels) Spec.labels = true)
    by (vm_compute; reflexivity).
  rewrite forallb_forall in T. specialize (T a Ha).
  rewrite forallb_forall in T. specialize (T b Hb).
  now apply Bool.eqb_prop in T.
Qed.

Lemma nucleusDistance_spec (k1 k2 : Main.rhymeKey) :
  Spec.wellFormedKey k1 = true -> Spec.wellFormedKey k2 = true ->
  Main.nucleusDistance (fst k1) (fst k2) = Spec.nucleusDistance (fst k1) (fst k2).
Proof.
  destruct k1 as [n1 c1], k2 as [n2 c2]. cbn [fst]. intros W1 W2.
  destruct (finalComponent_wellFormed n1 c1 W1) as [E1 L1].
  destruct (finalComponent_wellFormed n2 c2 W2) as [E2 L2].
  unfold Main.nucleusDistance, Spec.nucleusDistance. rewrite E1, E2.
  destruct (String.eqb_spec n1 n2) as [-> | Hn];
    destruct (string_dec _ _) as [? | ?]; try congruence; try reflexivity.
  destruct (String.eqb_spec (Spec.afterSeparator n1) (Spec.afterSeparator n2)) as [Ea | Ha];
    destruct (string_dec (Spec.afterSeparator n1) (Spec.afterSeparator n2)) as [? | ?];
    try congruence; try reflexivity.
  now rewrite family_test_on_labels.
Qed.

(** The map built by [buildConsonantEquivalence] relates exactly the
    listed pairs, in both orders. *)
Lemma equivalent_spec (a b : string) :
  Main.equivalent a b = Spec.recognizedPair a b.
Proof.
  unfold Main.equivalent, Spec.recognizedPair, Main.consonantEquivalence,
    Main.CONSONANT_PAIRS.
  cbn [JS.lookup existsb fst snd].
  repeat match goal with
         | |- context [String.eqb a ?k] =>
             destruct (String.eqb_spec a k) as [-> | ?];
             [cbn; destruct (String.eqb b _); reflexivity |]
         end.
  reflexivity.
Qed.

Lemma fold_left_map {A B S} (f : S -> B -> S) (g : A -> B) (l : list A) (s : S) :
  fold_left f (map g l) s = fold_left (fun s x => f s (g x)) l s.
Proof. revert s. induction l as [|x l IH]; intros s; simpl; [reflexivity | apply IH]. Qed.

Lemma fold_left_ext {A S} (f g : S -> A -> S) (l : list A) (s : S) :
  (forall s x, f s x = g s x) -> fold_left f l s = fold_left g l s.
Proof.
  intros H. revert s. induction l as [|x l IH]; intros s; simpl; [reflexivity |].
  now rewrite H, IH.
Qed.

(** A loop over the indices below the shorter length is a loop over
    the zipped lists. *)
Lemma fold_indices_combine {S} (g : S -> string -> string -> S)
  (a b : list string) (s : S) :
  fold_left (fun s i => g s (nth i a "") (nth i b ""))
            (seq 0 (Nat.min (length a) (length b))) s
  = fold_left (fun s ab => g s (fst ab) (snd ab)) (combine a b) s.
Proof.
  revert b s. induction a as [|x a IH]; intros [|y b] s; try reflexivity.
  cbn [length Nat.min seq combine fold_left fst snd nth].
  rewrite <- seq_shift, fold_left_map. cbn [nth]. apply IH.
Qed.

Lemma nth_from_end (l : list string) (i : nat) :
  i < length l -> nth (length l - 1 - i) l "" = nth i (rev l) "".
Proof.
  intros H. rewrite rev_nth by exact H. f_equal. lia.
Qed.

Lemma count_fold (l : list (string * string)) (acc : Q) :
  (fold_left (fun m ab => if Spec.mismatch ab then m + 1 else m) l acc
   == acc + inject_Z (Z.of_nat (length (filter Spec.mismatch l))))%Q.
Proof.
  revert acc. induction l as [|ab l IH]; intros acc.
  - simpl. ring.
  - cbn [fold_left filter]. rewrite IH. destruct (Spec.mismatch ab).
    + cbn [length]. rewrite Nat2Z.inj_succ, <- Z.add_1_r, inject_Z_plus. ring.
    + reflexivity.
Qed.

Lemma coda_loop_spec (c1 c2 : list string) :
  (fold_left (Main.coda_step c1 c2)
             (seq 0 (Nat.min (length c1) (length c2))) 0
   == inject_Z (Z.of_nat (Spec.mismatchCount c1 c2)))%Q.
Proof.
  assert (E : fold_left (Main.coda_step c1 c2)
                        (seq 0 (Nat.min (length c1) (length c2))) 0%Q
              = fold_left (fun m ab => if Spec.mismatch ab then (m + 1)%Q else m)
                          (combine (rev c1) (rev c2)) 0%Q).
  { rewrite <- (fold_indices_combine
                  (fun m x y => if Spec.mismatch (x, y) then (m + 1)%Q else m)).
    rewrite !length_rev.
    assert (G : forall l (m : Q),
               Forall (fun i => i < Nat.min (length c1) (length c2)) l ->
               fold_left (Main.coda_step c1 c2) l m
               = fold_left (fun s i => if Spec.mismatch (nth i (rev c1) "", nth i (rev c2) "")
                                       then (s + 1)%Q else s) l m).
    { induction l as [|i l IH]; intros m Hl; [reflexivity |].
      inversion Hl as [|? ? Hi Hl']; subst. cbn [fold_left].
      rewrite <- (IH _ Hl'). f_equal.
      unfold Main.coda_step, Spec.mismatch. cbn [fst snd].
      rewrite !nth_from_end by lia. rewrite equivalent_spec.
      now destruct (_ || _). }
    apply G. apply Forall_forall. intros i Hi. apply in_seq in Hi. lia. }
  rewrite E, count_fold. unfold Spec.mismatchCount. ring.
Qed.

Lemma length_difference_spec (c1 c2 : list string) :
  Z.abs (Z.of_nat (length c1) - Z.of_nat (length c2))
  = Z.of_nat (Spec.lengthDifference c1 c2).
Proof. unfold Spec.lengthDifference. lia. Qed.

Lemma clamp_spec (x y : Q) :
  (x == y)%Q ->
  (Math_min 1 x == (if Qle_bool y 1 then y else 1))%Q.
Proof.
  intros E. unfold Math_min.
  destruct (Qle_bool 1 x) eqn:A; destruct (Qle_bool y 1) eqn:B; try reflexivity.
  - apply Qle_bool_iff in A. apply Qle_bool_iff in B.
    apply Qle_antisym; [rewrite <- E; exact A | exact B].
  - exact E.
  - exfalso.
    assert (A' : ~ (1 <= x)%Q) by (intro H; apply Qle_bool_iff in H; congruence).
    assert (B' : ~ (y <= 1)%Q) by (intro H; apply Qle_bool_iff in H; congruence).
    apply B'. rewrite <- E. apply Qlt_le_weak. now apply Qnot_le_lt.
Qed.

Lemma codaDistance_spec (c1 c2 : list string) :
  (Main.codaDistance c1 c2 == Spec.codaDistance c1 c2)%Q.
Proof.
  unfold Main.codaDistance, Spec.codaDistance, Main.same_array.
  destruct (list_eq_dec string_dec c1 c2) as [_ | _]; [reflexivity |].
  destruct c1 as [|x1 r1]; [reflexivity |].
  destruct c2 as [|x2 r2]; [reflexivity |].
  cbn [length Nat.eqb orb].
  change (S (length r1)) with (length (x1 :: r1)).
  change (S (length r2)) with (length (x2 :: r2)).
  apply clamp_spec.
  rewrite coda_loop_spec, length_difference_spec. ring.
Qed.

(** C3. For rhyme keys whose nucleus label comes from the
    classification table (possibly after an absorbed label and the
    separator), [rhymeDistance] is 0.7 times the nucleus distance
    plus 0.3 times the coda distance, where the nucleus distance is 0
    for equal labels, 0.05 when only the part after the separator is
    equal, 0.25 when the two parts lie in one of the four vowel
    families and 0.6 otherwise, and the coda distance is 0 for equal
    codas, 0.6 when exactly one coda is empty, and otherwise 0.35
    times the mismatch count, capped at 1; the count is the number of
    mismatches met from the end over the shorter length (equal or
    recognised equivalent consonants are no mismatch) plus 0.5 per
    unit of length difference. *)
Theorem C3_distance_formula (k1 k2 : Main.rhymeKey) :
  Spec.wellFormedKey k1 = true -> Spec.wellFormedKey k2 = true ->
  (Main.rhymeDistance k1 k2
   == q0_7 * Spec.nucleusDistance (fst k1) (fst k2)
      + q0_3 * Spec.codaDistance (snd k1) (snd k2))%Q.
Proof.
  intros W1 W2. unfold Main.rhymeDistance.
  rewrite (nucleusDistance_spec k1 k2 W1 W2).
  now rewrite codaDistance_spec.
Qed.

Lemma C3_distance_formula_witness :
  Spec.wellFormedKey ("A+UH", ["T"; "S"]) = true
  /\ Spec.wellFormedKey ("UH", ["T"]) = true
  /\ (Main.rhymeDistance ("A+UH", ["T"; "S"]) ("UH", ["T"])
      == q0_7 * Spec.nucleusDistance "A+UH" "UH"
         + q0_3 * Spec.codaDistance ["T"; "S"] ["T"])%Q.
Proof.
  split; [reflexivity | split; [reflexivity |]].
  exact (C3_distance_formula ("A+UH", ["T"; "S"]) ("UH", ["T"]) eq_refl eq_refl).
Defined.

Example distance_value :
  (Main.rhymeDistance ("A+UH", ["T"; "S"]) ("UH", ["T"]) == 1925 # 10000)%Q.
Proof. vm_compute. reflexivity. Qed.

(** Outside the table the code and the wording part: two labels that
    are in no family get the same fallback number 9 and so 0.25. *)
Example unknown_labels :
  Main.nucleusDistance "X" "Y" = q0_25 /\ Spec.nucleusDistance "X" "Y" = q0_6.
Proof. vm_compute. split; reflexivity. Qed.

(** Every key that [getRhymeKey] extracts from syllables of
    [syllabify] is well formed. *)

Lemma extract_step_coda (n : string) (coda : list string) (p : string) :
  Main.isVowelPhone p = false ->
  Main.extract_step (Some n, coda) p = (Some n, coda ++ [Main.normalizePhone p]).
Proof.
  intros H. unfold Main.extract_step.
  unfold Main.isVowelPhone in H. now rewrite H.
Qed.

Lemma extract_fold_coda (n : string) (rest coda : list string) :
  noVowel rest ->
  fst (fold_left Main.extract_step rest (Some n, coda)) = Some n.
Proof.
  revert coda. induction rest as [|p rest IH]; intros coda H; [reflexivity |].
  inversion H as [|? ? Hp Hrest]; subst. cbn [fold_left].
  rewrite (extract_step_coda _ _ _ Hp). now apply IH.
Qed.

Lemma vowel_class_is_label (v : string) :
  Main.isVowelPhone v = true ->
  exists l, Main.extract_step (None, []) v = (Some l, []) /\ In l Spec.labels.
Proof.
  intros H. unfold Main.extract_step.
  unfold Main.isVowelPhone in H. rewrite H. apply has_In in H.
  assert (T : forallb (fun b => match JS.lookup b VOWEL_CLASSES with
                                | Some l => JS.has l Spec.labels
                                | None => false
                                end) ARPA_VOWELS = true) by reflexivity.
  rewrite forallb_forall in T. specialize (T _ H).
  destruct (JS.lookup (Main.normalizePhone v) VOWEL_CLASSES) as [l |];
    [| discriminate T].
  exists l. split; [reflexivity | now apply has_In].
Qed.

Lemma extract_label (syl : list string) (n : string) (coda : list string) :
  vowelLed syl \/ onsetOnly syl ->
  Main.extractNucleusAndCoda syl = (Some n, coda) ->
  In n Spec.labels.
Proof.
  intros [[v [rest [-> [Hv Hrest]]]] | [_ Hno]] E.
  - unfold Main.extractNucleusAndCoda in E. cbn [fold_left] in E.
    destruct (vowel_class_is_label v Hv) as [l [El Hl]]. rewrite El in E.
    pose proof (extract_fold_coda l rest [] Hrest) as F.
    rewrite E in F. simpl in F. now injection F as ->.
  - rewrite (extract_fold_noVowel syl Hno) in E. discriminate E.
Qed.

Lemma extract_vowelLed (syl : list string) :
  vowelLed syl ->
  exists n coda, Main.extractNucleusAndCoda syl = (Some n, coda) /\ In n Spec.labels.
Proof.
  intros H. pose proof H as [v [rest [-> [Hv Hrest]]]].
  destruct (Main.extractNucleusAndCoda (v :: rest)) as [nuc coda] eqn:E.
  assert (F : nuc = fst (Main.extractNucleusAndCoda (v :: rest))) by now rewrite E.
  unfold Main.extractNucleusAndCoda in F. cbn [fold_left] in F.
  destruct (vowel_class_is_label v Hv) as [l [El Hl]]. rewrite El in F.
  rewrite (extract_fold_coda l rest [] Hrest) in F. subst nuc.
  exists l, coda. now split.
Qed.

Lemma label_has_no_plus (l : string) :
  In l Spec.labels -> JS.contains_char "+" l = false.
Proof.
  intros H.
  assert (T : forallb (fun l => negb (JS.contains_char "+" l)) Spec.labels = true)
    by reflexivity.
  rewrite forallb_forall in T. apply negb_true_iff. now apply T.
Qed.

Lemma contains_plus_app (p l : string) :
  JS.contains_char "+" (p ++ String "+" l) = true.
Proof.
  induction p as [|c p IH]; simpl; [reflexivity |].
  rewrite IH. apply orb_true_r.
Qed.

Lemma afterSeparator_compound (p l : string) :
  JS.contains_char "+" l = false ->
  Spec.afterSeparator (p ++ String "+" l) = l.
Proof.
  intros H. induction p as [|c p IH].
  - simpl. now rewrite H.
  - cbn [append Spec.afterSeparator]. now rewrite contains_plus_app.
Qed.

Lemma wellFormed_label (n : string) (coda : list string) :
  In n Spec.labels -> Spec.wellFormedKey (n, coda) = true.
Proof.
  intros H. unfold Spec.wellFormedKey. cbn [fst].
  rewrite afterSeparator_no_plus by now apply label_has_no_plus.
  unfold JS.has. apply existsb_exists. exists n. split; [exact H | apply String.eqb_refl].
Qed.

Lemma wellFormed_compound (p n : string) (coda : list string) :
  In n Spec.labels -> Spec.wellFormedKey ((p ++ String "+" n)%string, coda) = true.
Proof.
  intros H. unfold Spec.wellFormedKey. cbn [fst].
  rewrite afterSeparator_compound by now apply label_has_no_plus.
  unfold JS.has. apply existsb_exists. exists n. split; [exact H | apply String.eqb_refl].
Qed.

Lemma nth_in_tail {A} (l : list A) (d : A) (i : nat) :
  0 < i -> i < length l -> In (nth i l d) (tl l).
Proof.
  intros H0 Hi. destruct l as [|x l]; [simpl in Hi; lia |].
  destruct i as [|i]; [lia |]. simpl. apply nth_In. simpl in Hi. lia.
Qed.

Lemma getRhymeKey_wellFormed (syls : list (list string)) (st : option nat)
  (k : Main.rhymeKey) :
  syllablesShape syls ->
  Main.getRhymeKey syls st = Some k ->
  Spec.wellFormedKey k = true.
Proof.
  intros [Hall Htl]. unfold Main.getRhymeKey.
  destruct (length syls =? 0) eqn:L0; [discriminate |].
  apply Nat.eqb_neq in L0.
  remember (Nat.max 0 (Nat.min match st with
                                | Some i => i
                                | None => length syls - 1
                                end (length syls - 1))) as ci eqn:Eci.
  assert (Hci : ci < length syls) by lia.
  assert (Hs : vowelLed (nth ci syls []) \/ onsetOnly (nth ci syls [])).
  { rewrite Forall_forall in Hall. apply Hall. now apply nth_In. }
  destruct (Main.extractNucleusAndCoda (nth ci syls [])) as [nuc coda] eqn:Ex.
  destruct ((length coda <=? 1) || existsb _ Main.weakCodeas) eqn:Weak;
    cbn [andb]; [destruct (0 <? ci) eqn:Pos |].
  - (* the weak coda takes in the syllable before *)
    apply Nat.ltb_lt in Pos.
    assert (Hv : vowelLed (nth ci syls [])).
    { rewrite Forall_forall in Htl. apply Htl. now apply nth_in_tail. }
    destruct (extract_vowelLed _ Hv) as [n [coda' [Ex' Hn]]].
    rewrite Ex in Ex'. injection Ex' as -> ->.
    destruct (Main.extractNucleusAndCoda (nth (ci - 1) syls [])) as [pn pc].
    destruct (Main.truthy pn) eqn:T.
    + destruct pn as [p |]; [| discriminate T].
      cbn [Main.truthy append].
      destruct (negb _); [| discriminate].
      intros [= <-]. now apply wellFormed_compound.
    + destruct (Main.truthy (Some n)); [| discriminate].
      intros [= <-]. now apply wellFormed_label.
  - destruct (Main.truthy nuc); [| discriminate].
    destruct nuc as [n |]; [| discriminate].
    intros [= <-]. apply wellFormed_label. now apply (extract_label _ _ _ Hs Ex).
  - destruct (Main.truthy nuc); [| discriminate].
    destruct nuc as [n |]; [| discriminate].
    intros [= <-]. apply wellFormed_label. now apply (extract_label _ _ _ Hs Ex).
Qed.

Lemma keys_of_syllabify_wellFormed (phones : list string) (k : Main.rhymeKey) :
  Main.getRhymeKey (fst (Main.syllabify phones)) (snd (Main.syllabify phones)) = Some k ->
  Spec.wellFormedKey k = true.
Proof.
  apply getRhymeKey_wellFormed. apply (proj2 (syllabify_shape phones)).
Qed.

Example key_of_running :
  Main.getRhymeKey (fst (Main.syllabify ["R"; "AH"; "N"; "IH"; "NG"]))
                   (snd (Main.syllabify ["R"; "AH"; "N"; "IH"; "NG"]))
  = Some ("UH+I", ["N"; "NG"]).
Proof. vm_compute. reflexivity. Qed.

(* ================================================================== *)
(** * Further properties of the engines *)
(* ================================================================== *)

(** ** The distance of main.js is a symmetric, bounded measure *)

Lemma recognizedPair_sym (a b : string) :
  Spec.recognizedPair a b = Spec.recognizedPair b a.
Proof.
  unfold Spec.recognizedPair.
  induction Main.CONSONANT_PAIRS as [|p l IH]; [reflexivity |].
  cbn [existsb]. rewrite IH. f_equal.
  rewrite orb_comm. f_equal; apply andb_comm.
Qed.

Lemma equivalent_sym (a b : string) : Main.equivalent a b = Main.equivalent b a.
Proof. rewrite !equivalent_spec. apply recognizedPair_sym. Qed.

Lemma coda_step_sym (c1 c2 : list string) (m : Q) (i : nat) :
  Main.coda_step c1 c2 m i = Main.coda_step c2 c1 m i.
Proof.
  unfold Main.coda_step.
  now rewrite String.eqb_sym, equivalent_sym.
Qed.

Lemma same_array_sym (a b : list string) : Main.same_array a b = Main.same_array b a.
Proof.
  unfold Main.same_array.
  destruct (list_eq_dec string_dec a b), (list_eq_dec string_dec b a);
    congruence.
Qed.

Lemma nucleusDistance_sym (n1 n2 : string) :
  Main.nucleusDistance n1 n2 = Main.nucleusDistance n2 n1.
Proof.
  unfold Main.nucleusDistance.
  rewrite (String.eqb_sym n1 n2).
  rewrite (String.eqb_sym (Main.finalComponent n1) (Main.finalComponent n2)).
  now rewrite (Nat.eqb_sym (Main.getVowelFamily (Main.finalComponent n1))).
Qed.

Lemma codaDistance_sym (c1 c2 : list string) :
  Main.codaDistance c1 c2 = Main.codaDistance c2 c1.
Proof.
  unfold Main.codaDistance.
  rewrite (same_array_sym c1 c2), (orb_comm (length c1 =? 0)),
    (Nat.min_comm (length c1)).
  rewrite (fold_left_ext (Main.coda_step c1 c2) (Main.coda_step c2 c1))
    by (intros; apply coda_step_sym).
  replace (Z.abs (Z.of_nat (length c1) - Z.of_nat (length c2)))
    with (Z.abs (Z.of_nat (length c2) - Z.of_nat (length c1))) by lia.
  reflexivity.
Qed.

(** X1. The distance does not depend on the order of the two keys,
    whatever the keys are. *)
Theorem rhymeDistance_symmetric (k1 k2 : Main.rhymeKey) :
  Main.rhymeDistance k1 k2 = Main.rhymeDistance k2 k1.
Proof.
  unfold Main.rhymeDistance.
  now rewrite nucleusDistance_sym, codaDistance_sym.
Qed.

Lemma nucleusDistance_range (n1 n2 : string) :
  (0 <= Main.nucleusDistance n1 n2 <= q0_6)%Q.
Proof.
  unfold Main.nucleusDistance.
  destruct (String.eqb n1 n2); [split; discriminate |].
  destruct (String.eqb _ _); [split; discriminate |].
  destruct (_ =? _); split; discriminate.
Qed.

Lemma coda_loop_nonneg (c1 c2 : list string) (l : list nat) (m : Q) :
  (0 <= m)%Q -> (0 <= fold_left (Main.coda_step c1 c2) l m)%Q.
Proof.
  revert m. induction l as [|i l IH]; intros m Hm; [exact Hm |].
  cbn [fold_left]. apply IH. unfold Main.coda_step.
  destruct (_ || _); [exact Hm | lra].
Qed.

Lemma Math_min_range (a x : Q) :
  (0 <= a)%Q -> (0 <= x)%Q -> (0 <= Math_min a x <= a)%Q.
Proof.
  intros Ha Hx. split; [| apply Math_min_le_l].
  unfold Math_min. now destruct (Qle_bool a x).
Qed.

Lemma codaDistance_range (c1 c2 : list string) :
  (0 <= Main.codaDistance c1 c2 <= 1)%Q.
Proof.
  unfold Main.codaDistance.
  destruct (Main.same_array c1 c2); [split; discriminate |].
  destruct (_ || _); [split; discriminate |].
  apply Math_min_range; [discriminate |].
  assert (H1 := coda_loop_nonneg c1 c2
                  (seq 0 (Nat.min (length c1) (length c2))) 0%Q (Qle_refl 0)).
  assert (H2 : (0 <= inject_Z (Z.abs (Z.of_nat (length c1) - Z.of_nat (length c2))))%Q).
  { change 0%Q with (inject_Z 0). rewrite <- Zle_Qle. apply Z.abs_nonneg. }
  nra.
Qed.

(** X2. The distance lies between 0 and 0.72 (so between 0 and 1), and
    the distance of a key to itself is 0. *)
Theorem rhymeDistance_bounds (k1 k2 : Main.rhymeKey) :
  (0 <= Main.rhymeDistance k1 k2 <= 72 # 100)%Q
  /\ (Main.rhymeDistance k1 k1 == 0)%Q.
Proof.
  split.
  - unfold Main.rhymeDistance.
    pose proof (nucleusDistance_range (fst k1) (fst k2)).
    pose proof (codaDistance_range (snd k1) (snd k2)).
    lra.
  - unfold Main.rhymeDistance, Main.nucleusDistance, Main.codaDistance,
      Main.same_array.
    rewrite String.eqb_refl.
    destruct (list_eq_dec string_dec (snd k1) (snd k1)); [| congruence].
    reflexivity.
Qed.

(** ** The greedy pass partitions the indices *)

Section GreedyFacts.

Variables (U : Type) (mem : nat -> U -> bool) (add : nat -> U -> U).
Variables (minSize : nat) (skip : nat -> bool) (accept : nat -> nat -> bool).
Variable n : nat.
Variable ok : U -> Prop.

Hypothesis add_ok : forall u j, ok u -> j < n -> ok (add j u).
Hypothesis mem_add_same : forall u j, ok u -> j < n -> mem j (add j u) = true.
Hypothesis mem_add_other :
  forall u j x, ok u -> j < n -> x <> j -> mem x (add j u) = mem x u.

Lemma claim_loop (i : nat) (k a : nat) (grp : list nat) (u : U) :
  ok u -> a + k <= n ->
  exists ext u',
    fold_left (claim_step U mem add accept i) (seq a k) (grp, u) = (grp ++ ext, u')
    /\ ok u'
    /\ StronglySorted lt ext
    /\ Forall (fun x => a <= x < a + k /\ mem x u = false /\ accept i x = true) ext
    /\ forall x, mem x u' = mem x u || existsb (Nat.eqb x) ext.
Proof.
  revert a grp u. induction k as [|k IH]; intros a grp u Hok Hn.
  - exists [], u. rewrite app_nil_r. repeat split; try constructor; try assumption.
    intros x. now rewrite orb_false_r.
  - cbn [seq fold_left]. unfold claim_step at 2. cbn [fst snd].
    destruct (mem a u) eqn:Ma; [| destruct (accept i a) eqn:Aa].
    + destruct (IH (S a) grp u Hok ltac:(lia)) as [ext [u' [E [Ok' [S' [F' M']]]]]].
      exists ext, u'. repeat split; try assumption.
      eapply Forall_impl; [| exact F']. cbn. intros x [? [? ?]]. repeat split; try assumption; lia.
    + assert (Ha : a < n) by lia.
      destruct (IH (S a) (grp ++ [a]) (add a u) (add_ok u a Hok Ha) ltac:(lia))
        as [ext [u' [E [Ok' [S' [F' M']]]]]].
      exists (a :: ext), u'. rewrite E, <- app_assoc. cbn [app].
      split; [reflexivity | split; [exact Ok' | split; [| split]]].
      * constructor; [exact S' |].
        eapply Forall_impl; [| exact F']. cbn. intros x [? _]. lia.
      * constructor; [repeat split; try assumption; lia |].
        eapply Forall_impl; [| exact F']. cbn. intros x [Hx [Hm Hacc]].
        repeat split; try assumption; try lia.
        rewrite mem_add_other in Hm; [exact Hm | exact Hok | exact Ha | lia].
      * intros x. rewrite M'. cbn [existsb].
        destruct (Nat.eqb_spec x a) as [-> | Hne].
        -- rewrite mem_add_same by assumption. now rewrite orb_true_r.
        -- rewrite mem_add_other by assumption. reflexivity.
    + destruct (IH (S a) grp u Hok ltac:(lia)) as [ext [u' [E [Ok' [S' [F' M']]]]]].
      exists ext, u'. repeat split; try assumption.
      eapply Forall_impl; [| exact F']. cbn. intros x [? [? ?]]. repeat split; try assumption; lia.
Qed.

Lemma existsb_eqb_In (x : nat) (l : list nat) :
  existsb (Nat.eqb x) l = true <-> In x l.
Proof.
  rewrite existsb_exists. split.
  - intros [y [Hy E]]. apply Nat.eqb_eq in E. now subst.
  - intros H. exists x. split; [exact H | apply Nat.eqb_refl].
Qed.

Lemma sorted_lt_NoDup (l : list nat) : StronglySorted lt l -> NoDup l.
Proof.
  induction 1 as [|x l Hs IH Hx]; constructor; [| exact IH].
  intros Hin. rewrite Forall_forall in Hx. specialize (Hx x Hin). lia.
Qed.

Lemma NoDup_app_disjoint {A} (l1 l2 : list A) :
  NoDup l1 -> NoDup l2 -> (forall x, In x l1 -> ~ In x l2) -> NoDup (l1 ++ l2).
Proof.
  intros H1 H2 D. induction H1 as [|x l1 Hx H1 IH]; [exact H2 |].
  cbn. constructor.
  - intros Hin. apply in_app_or in Hin. destruct Hin as [Hin | Hin].
    + contradiction.
    + apply (D x); [now left | exact Hin].
  - apply IH. intros y Hy. apply D. now right.
Qed.

Lemma seed_step_keeps (st : list (list nat) * U) (i : nat) :
  i < n -> greedyState U mem ok minSize skip accept n st ->
  greedyState U mem ok minSize skip accept n
              (seed_step U mem add minSize skip accept n st i).
Proof.
  intros Hi [Hok [[Hgood Hnd] Hmem]]. unfold seed_step, greedyState, goodGroups.
  destruct (mem i (snd st)) eqn:Mi; [now repeat split |].
  destruct (skip i) eqn:Si; [now repeat split |]. cbn [orb].
  destruct (claim_loop i (n - (i + 1)) (i + 1) [i] (add i (snd st))
              (add_ok _ _ Hok Hi) ltac:(lia)) as [ext [u' [E [Ok' [S' [F' M']]]]]].
  rewrite E. cbn [fst snd app].
  assert (Hold : forall x, In x (List.concat (fst st)) -> mem x u' = true).
  { intros x Hx. rewrite M'.
    destruct (Nat.eqb_spec x i) as [-> | Hne].
    - rewrite mem_add_same by assumption. reflexivity.
    - rewrite mem_add_other by assumption. now rewrite (Hmem x Hx). }
  destruct (minSize <=? length (i :: ext)) eqn:Sz; cbn [fst snd];
    [| now repeat split].
  apply Nat.leb_le in Sz.
  assert (Hsorted : StronglySorted lt (i :: ext)).
  { constructor; [exact S' |].
    eapply Forall_impl; [| exact F']. cbn. intros x [? _]. lia. }
  split; [exact Ok' | split; [split |]].
  - apply Forall_app. split; [exact Hgood |].
    constructor; [| constructor].
    split; [exact Sz | split; [exact Hsorted | split]].
    + constructor; [exact Hi |].
      eapply Forall_impl; [| exact F']. cbn. intros x [? _]. lia.
    + exists i, ext. split; [reflexivity | split; [exact Si |]].
      eapply Forall_impl; [| exact F']. cbn. now intros x [_ [_ ?]].
  - rewrite concat_app. cbn [List.concat]. rewrite app_nil_r.
    apply NoDup_app_disjoint; [exact Hnd | now apply sorted_lt_NoDup |].
    intros x Hx [<- | Hin].
    + rewrite (Hmem _ Hx) in Mi. discriminate Mi.
    + rewrite Forall_forall in F'. destruct (F' x Hin) as [Hr [Hm _]].
      rewrite mem_add_other in Hm; [| exact Hok | exact Hi | lia].
      rewrite (Hmem _ Hx) in Hm. discriminate Hm.
  - intros x Hx. rewrite concat_app in Hx. cbn [List.concat] in Hx.
    rewrite app_nil_r in Hx. apply in_app_or in Hx. destruct Hx as [Hx | Hx].
    + now apply Hold.
    + rewrite M'. destruct Hx as [<- | Hx].
      * rewrite mem_add_same by assumption. reflexivity.
      * apply existsb_eqb_In in Hx. rewrite Hx. apply orb_true_r.
Qed.

Lemma greedy_good (u0 : U) :
  ok u0 ->
  goodGroups minSize skip accept n (greedy U mem add minSize skip accept n u0).
Proof.
  intros H0. unfold greedy.
  apply (fold_left_invariant _ _ _ (greedyState U mem ok minSize skip accept n)).
  - split; [exact H0 | split; [split; constructor |]]. intros x [].
  - intros st i Hst Hi. apply in_seq in Hi. apply seed_step_keeps; [lia | exact Hst].
Qed.

End GreedyFacts.

(** The two records of claimed indices: an array of flags, a set. *)

Lemma setUsed_length (used : list bool) (j : nat) :
  length (Main.setUsed used j) = length used.
Proof.
  revert j. induction used as [|b used IH]; intros [|j]; simpl; auto.
Qed.

Lemma setUsed_same (used : list bool) (j : nat) :
  j < length used -> nth j (Main.setUsed used j) false = true.
Proof.
  revert j. induction used as [|b used IH]; intros [|j] H; simpl in *; try lia; auto.
  apply IH. lia.
Qed.

Lemma setUsed_other (used : list bool) (j x : nat) :
  x <> j -> nth x (Main.setUsed used j) false = nth x used false.
Proof.
  revert j x. induction used as [|b used IH]; intros [|j] [|x] H; simpl; auto.
  congruence.
Qed.

Lemma flags_good (minSize : nat) (skip : nat -> bool) (accept : nat -> nat -> bool)
  (n : nat) :
  goodGroups minSize skip accept n
    (greedy (list bool) (fun j u => nth j u false) (fun j u => Main.setUsed u j)
            minSize skip accept n (repeat false n)).
Proof.
  apply (greedy_good (list bool) _ _ minSize skip accept n (fun u => length u = n)).
  - intros u j H _. now rewrite setUsed_length.
  - intros u j H Hj. apply setUsed_same. now rewrite H.
  - intros u j x _ _ Hne. now apply setUsed_other.
  - apply repeat_length.
Qed.

Lemma set_good (minSize : nat) (skip : nat -> bool) (accept : nat -> nat -> bool)
  (n : nat) :
  goodGroups minSize skip accept n
    (greedy (list nat) (fun j u => existsb (Nat.eqb j) u) cons
            minSize skip accept n []).
Proof.
  apply (greedy_good (list nat) _ _ minSize skip accept n (fun _ => True)); auto.
  - intros u j _ _. cbn. now rewrite Nat.eqb_refl.
  - intros u j x _ _ Hne. cbn.
    destruct (Nat.eqb_spec x j); [contradiction | reflexivity].
Qed.

(** Each grouping loop is the greedy pass with its own test. *)

Lemma main_loop_is_greedy (cfg : Main.settings) (words : list Main.word)
  (spans : list Main.span) :
  Main.groupIndices cfg words spans
  = greedy (list bool) (fun j u => nth j u false) (fun j u => Main.setUsed u j)
           2 (fun _ => false) (mainAccept cfg words spans) (length spans)
           (repeat false (length spans)).
Proof.
  unfold Main.groupIndices, greedy. f_equal. apply fold_left_ext.
  intros [gs used] i. unfold Main.group_outer_step, seed_step. cbn [fst snd].
  rewrite orb_false_r. destruct (nth i used false); [reflexivity |].
  rewrite (fold_left_ext (Main.group_inner_step cfg words spans i)
             (claim_step (list bool) (fun j u => nth j u false)
                         (fun j u => Main.setUsed u j) (mainAccept cfg words spans) i)).
  - now destruct (fold_left _ _ _).
  - intros [grp u] j. unfold Main.group_inner_step, claim_step, mainAccept.
    cbn [fst snd]. destruct (nth j u false); [reflexivity |].
    destruct (String.eqb _ _); [reflexivity |]. cbn [negb andb].
    destruct (Main.multiMatch _ _); [reflexivity |]. cbn [orb].
    now destruct (Qle_bool _ _).
Qed.

Lemma assonance_loop_is_greedy (cfg : Main.settings) (words : list Main.word) :
  Main.highlightAssonance cfg = true ->
  Main.assonancePass cfg words
  = greedy (list bool) (fun j u => nth j u false) (fun j u => Main.setUsed u j)
           3 (Main.isStop words) (assonanceAccept words) (length words)
           (repeat false (length words)).
Proof.
  intros H. unfold Main.assonancePass, greedy. rewrite H. f_equal.
  apply fold_left_ext.
  intros [gs used] i. unfold Main.asso_outer_step, seed_step. cbn [fst snd].
  destruct (nth i used false || Main.isStop words i); [reflexivity |].
  rewrite (fold_left_ext (Main.asso_inner_step words i)
             (claim_step (list bool) (fun j u => nth j u false)
                         (fun j u => Main.setUsed u j) (assonanceAccept words) i)).
  - now destruct (fold_left _ _ _).
  - intros [grp u] j. unfold Main.asso_inner_step, claim_step, assonanceAccept.
    cbn [fst snd]. destruct (nth j u false); [reflexivity |]. cbn [orb].
    destruct (Main.isStop words j); [reflexivity |]. cbn [negb andb].
    destruct (String.eqb _ _); [reflexivity |]. cbn [negb andb].
    now destruct (Main.detectAssonance _ _).
Qed.

Lemma minimal_loop_is_greedy (allWords : list Minimal.word) (threshold : Q) :
  Minimal.findGroups allWords threshold
  = greedy (list nat) (fun j u => existsb (Nat.eqb j) u) cons
           2 (fun _ => false) (minimalAccept allWords threshold)
           (length allWords) [].
Proof.
  unfold Minimal.findGroups, greedy. f_equal. apply fold_left_ext.
  intros [gs used] i. unfold Minimal.outer_step, seed_step. cbn [fst snd].
  rewrite orb_false_r. destruct (existsb (Nat.eqb i) used); [reflexivity |].
  rewrite (fold_left_ext (Minimal.inner_step allWords threshold i)
             (claim_step (list nat) (fun j u => existsb (Nat.eqb j) u) cons
                         (minimalAccept allWords threshold) i)).
  - now destruct (fold_left _ _ _).
  - intros [grp u] j. unfold Minimal.inner_step, claim_step, minimalAccept.
    cbn [fst snd]. destruct (existsb (Nat.eqb j) u); [reflexivity |].
    now destruct (_ && _).
Qed.

Lemma enhanced_loop_is_greedy (perfectThreshold : Q) (spans : list Enhanced.wordSpan) :
  Enhanced.groupLoop perfectThreshold spans
  = greedy (list nat) (fun j u => existsb (Nat.eqb j) u) cons
           2 (fun _ => false) (enhancedAccept perfectThreshold spans)
           (length spans) [].
Proof.
  unfold Enhanced.groupLoop, greedy. f_equal. apply fold_left_ext.
  intros [gs used] i. unfold Enhanced.outer_step, seed_step. cbn [fst snd].
  rewrite orb_false_r. destruct (existsb (Nat.eqb i) used); [reflexivity |].
  rewrite (fold_left_ext (Enhanced.inner_step perfectThreshold spans i)
             (claim_step (list nat) (fun j u => existsb (Nat.eqb j) u) cons
                         (enhancedAccept perfectThreshold spans) i)).
  - now destruct (fold_left _ _ _).
  - intros [grp u] j. unfold Enhanced.inner_step, claim_step, enhancedAccept.
    cbn [fst snd]. destruct (existsb (Nat.eqb j) u); [reflexivity |].
    now destruct (Qle_bool _ _).
Qed.

(** X3. The grouping loop of [RhymeAnalyzer.analyze], on any words and
    spans: every group has at least two members, lists span indices
    in increasing order, starts with a seed whose text differs from
    the text of every other member and which matches each of them (by
    a shared multi-syllable key or by a distance within the threshold
    of the pair); no span is in two groups. *)
Theorem main_groups_partition (cfg : Main.settings) (words : list Main.word)
  (spans : list Main.span) :
  goodGroups 2 (fun _ => false) (mainAccept cfg words spans) (length spans)
             (Main.groupIndices cfg words spans).
Proof. rewrite main_loop_is_greedy. apply flags_good. Qed.

(** X4. The assonance pass, when it is switched on: every group has at
    least three members in increasing order, no member is a stop
    word, every member shares the stressed vowel or its family with
    the seed and has another text; no word is in two groups. *)
Theorem assonance_groups_partition (cfg : Main.settings) (words : list Main.word) :
  Main.highlightAssonance cfg = true ->
  goodGroups 3 (Main.isStop words) (assonanceAccept words) (length words)
             (Main.assonancePass cfg words).
Proof. intros H. rewrite (assonance_loop_is_greedy cfg words H). apply flags_good. Qed.

Lemma assonance_groups_partition_witness :
  Main.highlightAssonance Main.defaults = true
  /\ goodGroups 3 (Main.isStop three_words) (assonanceAccept three_words) 3
                (Main.assonancePass Main.defaults three_words).
Proof.
  split; [reflexivity |].
  exact (assonance_groups_partition Main.defaults three_words eq_refl).
Defined.

(** X5. The groups of the minimal build, for every list of words and
    every threshold: at least two members, increasing indices, every
    member scores at least the threshold against the seed and has
    another lower-cased text; no word is in two groups. *)
Theorem minimal_groups_partition (allWords : list Minimal.word) (threshold : Q) :
  goodGroups 2 (fun _ => false) (minimalAccept allWords threshold)
             (length allWords) (Minimal.findGroups allWords threshold).
Proof. rewrite minimal_loop_is_greedy. apply set_good. Qed.

(** ** The groups and the statistics of main-hiphop.js *)

Lemma insertByLength_perm {A} (g : list A) (l : list (list A)) :
  Permutation (Enhanced.insertByLength g l) (g :: l).
Proof.
  induction l as [|h t IH]; cbn [Enhanced.insertByLength]; [reflexivity |].
  destruct (length h <? length g); [reflexivity |].
  rewrite IH. apply perm_swap.
Qed.

Lemma sortByLength_perm_acc {A} (l acc : list (list A)) :
  Permutation (fold_left (fun sorted g => Enhanced.insertByLength g sorted) l acc)
              (acc ++ l).
Proof.
  revert acc. induction l as [|g l IH]; intros acc; cbn [fold_left].
  - now rewrite app_nil_r.
  - rewrite IH, insertByLength_perm. apply Permutation_middle.
Qed.

Lemma sortByLength_perm {A} (l : list (list A)) :
  Permutation (Enhanced.sortByLength l) l.
Proof. unfold Enhanced.sortByLength. apply (sortByLength_perm_acc l []). Qed.

Lemma insertByLength_sorted {A} (g : list A) (l : list (list A)) :
  StronglySorted longerFirst l ->
  StronglySorted longerFirst (Enhanced.insertByLength g l).
Proof.
  induction 1 as [|h t Hs IH Hh]; cbn [Enhanced.insertByLength].
  - repeat constructor.
  - destruct (Nat.ltb_spec (length h) (length g)) as [Hlt | Hge].
    + constructor; [now constructor |].
      constructor; [unfold longerFirst; lia |].
      eapply Forall_impl; [| exact Hh]. unfold longerFirst. intros x Hx. lia.
    + constructor; [exact IH |].
      rewrite (insertByLength_perm g t). constructor; [exact Hge | exact Hh].
Qed.

Lemma sortByLength_sorted {A} (l : list (list A)) :
  StronglySorted longerFirst (Enhanced.sortByLength l).
Proof.
  unfold Enhanced.sortByLength.
  apply (fold_left_invariant _ _ _ (StronglySorted longerFirst)).
  - constructor.
  - intros acc g H _. now apply insertByLength_sorted.
Qed.

Lemma sum_lengths {A} (gs : list (list A)) (acc : nat) :
  fold_left (fun sum g => sum + length g) gs acc = acc + length (List.concat gs).
Proof.
  revert acc. induction gs as [|g gs IH]; intros acc; cbn [fold_left List.concat].
  - cbn. lia.
  - rewrite IH, length_app. lia.
Qed.

Lemma concat_length_perm {A} (l1 l2 : list (list A)) :
  Permutation l1 l2 -> length (List.concat l1) = length (List.concat l2).
Proof.
  induction 1; cbn [List.concat]; rewrite ?length_app; try lia.
Qed.

Lemma concat_map_length {A B} (f : A -> B) (gs : list (list A)) :
  length (List.concat (map (map f) gs)) = length (List.concat gs).
Proof.
  induction gs as [|g gs IH]; [reflexivity |].
  cbn [map List.concat]. rewrite !length_app, length_map. lia.
Qed.

Lemma NoDup_below_length (l : list nat) (n : nat) :
  NoDup l -> Forall (fun x => x < n) l -> length l <= n.
Proof.
  intros Hnd Hall.
  apply Nat.le_trans with (length (seq 0 n)); [| rewrite length_seq; lia].
  apply NoDup_incl_length; [exact Hnd |].
  intros x Hx. rewrite Forall_forall in Hall. apply in_seq. specialize (Hall x Hx). lia.
Qed.

Lemma good_concat_below (minSize : nat) (skip : nat -> bool)
  (accept : nat -> nat -> bool) (n : nat) (gs : list (list nat)) :
  goodGroups minSize skip accept n gs -> length (List.concat gs) <= n.
Proof.
  intros [Hgood Hnd]. apply NoDup_below_length; [exact Hnd |].
  apply Forall_concat. eapply Forall_impl; [| exact Hgood].
  intros g [_ [_ [H _]]]. exact H.
Qed.

Lemma good_sizes (minSize : nat) (skip : nat -> bool)
  (accept : nat -> nat -> bool) (n : nat) (gs : list (list nat)) :
  goodGroups minSize skip accept n gs -> Forall (fun g => minSize <= length g) gs.
Proof.
  intros [Hgood _]. eapply Forall_impl; [| exact Hgood]. now intros g [H _].
Qed.

Lemma sizes_sum {A} (gs : list (list A)) :
  Forall (fun g => 2 <= length g) gs -> 2 * length gs <= length (List.concat gs).
Proof.
  induction 1 as [|g gs Hg _ IH]; cbn [length List.concat]; [lia |].
  rewrite length_app. lia.
Qed.

Lemma sizes_filter {A} (gs : list (list A)) :
  Forall (fun g => 2 <= length g) gs ->
  length (filter (fun g => 2 <=? length g) gs) = length gs.
Proof.
  induction 1 as [|g gs Hg _ IH]; cbn [length filter]; [reflexivity |].
  apply Nat.leb_le in Hg. rewrite Hg. cbn [length]. now rewrite IH.
Qed.

Lemma groupRhymes_perm (perfectThreshold : Q) (spans : list Enhanced.wordSpan) :
  Permutation (Enhanced.groupRhymes perfectThreshold spans)
              (map (map (fun i => nth i spans Enhanced.dummy_span))
                   (Enhanced.groupLoop perfectThreshold spans)).
Proof.
  unfold Enhanced.groupRhymes. destruct spans as [|sp spans].
  - reflexivity.
  - cbn [length Nat.eqb]. apply sortByLength_perm.
Qed.

(** X6. [groupRhymes] of main-hiphop.js, on any spans and threshold: the
    groups come longest first, each holds at least two spans, and
    together they hold at most as many spans as there are. *)
Theorem enhanced_groups_sorted (perfectThreshold : Q) (spans : list Enhanced.wordSpan) :
  StronglySorted longerFirst (Enhanced.groupRhymes perfectThreshold spans)
  /\ Forall (fun g => 2 <= length g) (Enhanced.groupRhymes perfectThreshold spans)
  /\ length (List.concat (Enhanced.groupRhymes perfectThreshold spans)) <= length spans.
Proof.
  pose proof (set_good 2 (fun _ => false) (enhancedAccept perfectThreshold spans)
                (length spans)) as G.
  rewrite <- enhanced_loop_is_greedy in G.
  pose proof (groupRhymes_perm perfectThreshold spans) as P.
  split; [| split].
  - unfold Enhanced.groupRhymes. destruct (length spans =? 0); [constructor |].
    apply sortByLength_sorted.
  - rewrite Forall_forall. intros g Hg.
    apply (Permutation_in _ P) in Hg. apply in_map_iff in Hg.
    destruct Hg as [g0 [<- Hg0]]. rewrite length_map.
    pose proof (good_sizes _ _ _ _ _ G) as Sz. rewrite Forall_forall in Sz.
    now apply Sz.
  - rewrite (concat_length_perm _ _ P), concat_map_length.
    exact (good_concat_below _ _ _ _ _ G).
Qed.

(** X7. The statistics [calculateStats] derives from the groups of
    [groupRhymes] are consistent: the rhymed words are at most the
    words, at least two per group, and every group is counted as a
    perfect rhyme. *)
Theorem enhanced_stats_consistent (perfectThreshold : Q)
  (spans : list Enhanced.wordSpan) :
  let st := Enhanced.calculateStats spans (Enhanced.groupRhymes perfectThreshold spans) in
  Enhanced.rhymedWords st <= Enhanced.totalWords st
  /\ 2 * Enhanced.rhymeGroups st <= Enhanced.rhymedWords st
  /\ Enhanced.perfectRhymes st = Enhanced.rhymeGroups st.
Proof.
  pose proof (set_good 2 (fun _ => false) (enhancedAccept perfectThreshold spans)
                (length spans)) as G.
  rewrite <- enhanced_loop_is_greedy in G.
  pose proof (groupRhymes_perm perfectThreshold spans) as P.
  assert (Sz : Forall (fun g => 2 <= length g)
                      (Enhanced.groupRhymes perfectThreshold spans)).
  { rewrite Forall_forall. intros g Hg.
    apply (Permutation_in _ P) in Hg. apply in_map_iff in Hg.
    destruct Hg as [g0 [<- Hg0]]. rewrite length_map.
    pose proof (good_sizes _ _ _ _ _ G) as Sz. rewrite Forall_forall in Sz.
    now apply Sz. }
  cbn [Enhanced.calculateStats Enhanced.rhymedWords Enhanced.totalWords
       Enhanced.rhymeGroups Enhanced.perfectRhymes].
  rewrite sum_lengths. cbn [Nat.add].
  split; [| split].
  - rewrite (concat_length_perm _ _ P), concat_map_length.
    exact (good_concat_below _ _ _ _ _ G).
  - now apply sizes_sum.
  - now apply sizes_filter.
Qed.

(** ** The distance of main-hiphop.js *)

Lemma similarity_step_sym (c1 c2 : list string) (s : Q) (i : nat) :
  Enhanced.similarity_step c1 c2 s i = Enhanced.similarity_step c2 c1 s i.
Proof.
  unfold Enhanced.similarity_step.
  destruct (nth_error c1 i) as [a |], (nth_error c2 i) as [b |]; try reflexivity.
  rewrite (String.eqb_sym a b), (equivalent_sym a b).
  now rewrite (andb_comm (Enhanced.nonEmpty a)).
Qed.

Lemma codaSimilarity_sym (c1 c2 : list string) :
  Enhanced.calculateCodaSimilarity c1 c2 = Enhanced.calculateCodaSimilarity c2 c1.
Proof.
  unfold Enhanced.calculateCodaSimilarity.
  rewrite (andb_comm (length c1 =? 0)), (orb_comm (length c1 =? 0)),
    (Nat.max_comm (length c1)).
  now rewrite (fold_left_ext (Enhanced.similarity_step c1 c2)
                 (Enhanced.similarity_step c2 c1))
    by (intros; apply similarity_step_sym).
Qed.

Lemma sameNucleus_sym (a b : option string) :
  Enhanced.sameNucleus a b = Enhanced.sameNucleus b a.
Proof. destruct a, b; cbn; try reflexivity. apply String.eqb_sym. Qed.

Lemma similarity_loop_range (c1 c2 : list string) (l : list nat) (s : Q) :
  (0 <= s)%Q ->
  (0 <= fold_left (Enhanced.similarity_step c1 c2) l s
   <= s + inject_Z (Z.of_nat (length l)))%Q.
Proof.
  revert s. induction l as [|i l IH]; intros s Hs.
  - cbn [fold_left length]. change (inject_Z (Z.of_nat 0)) with 0%Q. lra.
  - cbn [fold_left length]. rewrite Nat2Z.inj_succ, <- Z.add_1_r, inject_Z_plus.
    assert (Hstep : (s <= Enhanced.similarity_step c1 c2 s i <= s + 1)%Q).
    { unfold Enhanced.similarity_step.
      destruct (nth_error c1 i), (nth_error c2 i); try lra.
      destruct (String.eqb _ _); [lra |]. destruct (_ && _); lra. }
    destruct (IH (Enhanced.similarity_step c1 c2 s i) ltac:(lra)) as [L R].
    change (inject_Z 1) with 1%Q. split; lra.
Qed.

Lemma codaSimilarity_range (c1 c2 : list string) :
  (0 <= Enhanced.calculateCodaSimilarity c1 c2 <= 1)%Q.
Proof.
  unfold Enhanced.calculateCodaSimilarity.
  destruct (_ && _); [split; discriminate |].
  destruct ((length c1 =? 0) || (length c2 =? 0)) eqn:E; [split; discriminate |].
  apply orb_false_iff in E. destruct E as [E1 E2].
  apply Nat.eqb_neq in E1.
  set (m := Nat.max (length c1) (length c2)).
  assert (Hm : (0 < inject_Z (Z.of_nat m))%Q).
  { change 0%Q with (inject_Z 0). rewrite <- Zlt_Qlt. lia. }
  destruct (similarity_loop_range c1 c2 (seq 0 m) 0%Q (Qle_refl 0)) as [L R].
  rewrite length_seq in R. split.
  - apply Qle_shift_div_l; [exact Hm | lra].
  - apply Qle_shift_div_r; [exact Hm | lra].
Qed.

Lemma enhanced_distance_self (k : Enhanced.rhymeKey) :
  Enhanced.calculateRhymeDistance (Some k) (Some k) = 0%Q.
Proof.
  unfold Enhanced.calculateRhymeDistance, Main.same_array.
  assert (N : Enhanced.sameNucleus (Enhanced.nucleus k) (Enhanced.nucleus k) = true).
  { destruct (Enhanced.nucleus k); cbn; [apply String.eqb_refl | reflexivity]. }
  rewrite N. destruct (list_eq_dec string_dec _ _); [reflexivity | congruence].
Qed.

(** X8. [calculateRhymeDistance] does not depend on the order of the two
    keys, lies between 0 and 1, is 1 when a key is missing and 0
    between a key and itself. *)
Theorem enhanced_distance_measure (key1 key2 : option Enhanced.rhymeKey)
  (k : Enhanced.rhymeKey) :
  Enhanced.calculateRhymeDistance key1 key2 = Enhanced.calculateRhymeDistance key2 key1
  /\ (0 <= Enhanced.calculateRhymeDistance key1 key2 <= 1)%Q
  /\ Enhanced.calculateRhymeDistance None key2 = 1%Q
  /\ Enhanced.calculateRhymeDistance (Some k) (Some k) = 0%Q.
Proof.
  split; [| split; [| split]].
  - destruct key1 as [k1 |], key2 as [k2 |]; try reflexivity.
    unfold Enhanced.calculateRhymeDistance.
    now rewrite (sameNucleus_sym (Enhanced.nucleus k1)),
      (Nat.eqb_sym (Enhanced.vowelFamily k1)),
      (same_array_sym (Enhanced.coda k1)), (codaSimilarity_sym (Enhanced.coda k1)).
  - destruct key1 as [k1 |], key2 as [k2 |]; try (split; discriminate).
    unfold Enhanced.calculateRhymeDistance.
    apply Math_min_range; [discriminate |].
    pose proof (codaSimilarity_range (Enhanced.coda k1) (Enhanced.coda k2)).
    destruct (negb (Enhanced.sameNucleus _ _)); [destruct (_ =? _) |];
      destruct (negb (Main.same_array _ _)); lra.
  - reflexivity.
  - apply enhanced_distance_self.
Qed.

(** X9. Unlike main.js and the minimal build, [groupRhymes] has no test
    on the text: two spans with one key form a group whatever their
    words are, also for a word said twice. *)
Theorem enhanced_groups_repeated_word (perfectThreshold : Q)
  (a b : Enhanced.wordSpan) :
  (0 <= perfectThreshold)%Q ->
  Enhanced.key a = Enhanced.key b ->
  Enhanced.groupRhymes perfectThreshold [a; b] = [[a; b]].
Proof.
  intros Hthr Hk.
  assert (D : Qle_bool (Enhanced.calculateRhymeDistance
                          (Enhanced.keyOf [a; b] 0) (Enhanced.keyOf [a; b] 1))
                       perfectThreshold = true).
  { cbn [Enhanced.keyOf nth_error option_map]. rewrite Hk.
    rewrite enhanced_distance_self.
    now apply Qle_bool_iff. }
  unfold Enhanced.groupRhymes, Enhanced.groupLoop.
  cbn [length Nat.eqb seq fold_left Nat.add Nat.sub].
  unfold Enhanced.outer_step at 2. cbn [existsb length Nat.add Nat.sub seq fold_left].
  unfold Enhanced.inner_step. cbn [existsb Nat.eqb orb].
  rewrite D. cbn [app length Nat.leb].
  unfold Enhanced.outer_step. cbn [existsb Nat.eqb orb fst map nth].
  reflexivity.
Qed.

Lemma enhanced_groups_repeated_word_witness :
  (0 <= 10 # 100)%Q
  /\ Enhanced.groupRhymes (10 # 100) [Enhanced.dummy_span; Enhanced.dummy_span]
     = [[Enhanced.dummy_span; Enhanced.dummy_span]].
Proof.
  assert (H : (0 <= 10 # 100)%Q) by discriminate.
  split; [exact H |].
  exact (enhanced_groups_repeated_word (10 # 100) Enhanced.dummy_span
           Enhanced.dummy_span H eq_refl).
Defined.

(** ** No word of main-hiphop.js gets a span *)

Lemma enhanced_wordToPhones_only_W (word : string) :
  Forall (eq "W") (Enhanced.wordToPhones word).
Proof.
  unfold Enhanced.wordToPhones.
  rewrite (lookup_outside Main.cleanWord_class Enhanced.ENHANCED_CUSTOM_ARPA);
    [| vm_compute; reflexivity | apply cleanWord_in_class].
  apply g2pHeuristic_only_W, cleanWord_in_class.
Qed.

Lemma enhanced_key_no_nucleus (ps : list string) :
  noVowel ps ->
  match Enhanced.getRhymeKey (fst (Main.syllabify ps)) (snd (Main.syllabify ps)) with
  | Some k => Enhanced.nucleus k = None
  | None => True
  end.
Proof.
  intros H. rewrite (syllabify_noVowel ps H).
  destruct ps as [|p ps]; [exact I |].
  unfold Enhanced.getRhymeKey.
  cbn [fst snd length Nat.eqb Nat.sub Nat.min Nat.max nth].
  now rewrite (extract_fold_noVowel _ H).
Qed.

Lemma enhanced_word_step_none (ln : string) (lineNum : nat) (charOffset : Z)
  (wordOffset : nat) (word : string) :
  fst (Enhanced.word_step ln lineNum charOffset ([], wordOffset) word) = [].
Proof.
  unfold Enhanced.word_step. cbn [fst].
  destruct (_ && _); [| reflexivity].
  destruct (0 <? length _); [| reflexivity].
  pose proof (enhanced_key_no_nucleus
                (Enhanced.wordToPhones (Main.cleanWord word))
                (only_W_noVowel _ (enhanced_wordToPhones_only_W _))) as K.
  destruct (Main.syllabify (Enhanced.wordToPhones (Main.cleanWord word))) as [syls st].
  cbn [fst snd] in K.
  destruct (Enhanced.getRhymeKey syls st) as [k |]; [| reflexivity].
  now rewrite K.
Qed.

Lemma enhanced_collect_none (text : string) : Enhanced.collectSpans text = [].
Proof.
  unfold Enhanced.collectSpans.
  apply (fold_left_invariant _ _ _
           (fun st : list Enhanced.wordSpan * Z * nat => fst (fst st) = [])).
  - reflexivity.
  - intros [[sps off] ln] line H _. cbn [fst] in H. subst sps.
    unfold Enhanced.line_step.
    assert (E : fst (fold_left (Enhanced.word_step line ln off)
                               (Enhanced.splitWords line false "") ([], 0)) = []).
    { apply (fold_left_invariant _ _ _
               (fun st : list Enhanced.wordSpan * nat => fst st = [])).
      - reflexivity.
      - intros [sps wo] w H _. cbn [fst] in H. subst sps.
        apply enhanced_word_step_none. }
    destruct (fold_left _ _ _) as [sps' wo']. cbn [fst] in E. now subst sps'.
Qed.

(** X10. [performStandardAnalysis] of main-hiphop.js finds nothing in any
    text: [cleanWord] leaves no letter but w, no word gets a nucleus,
    so there is no span, no group, and every statistic is 0. *)
Theorem enhanced_analysis_empty (perfectThreshold : Q) (text : string) :
  Enhanced.performStandardAnalysis perfectThreshold text
  = ([], {| Enhanced.totalWords := 0; Enhanced.rhymedWords := 0;
            Enhanced.rhymeGroups := 0; Enhanced.avgGroupSize := 0%Q;
            Enhanced.perfectRhymes := 0; Enhanced.slantRhymes := 0 |}).
Proof.
  unfold Enhanced.performStandardAnalysis.
  rewrite enhanced_collect_none. reflexivity.
Qed.

Example splitWords_backslash_s :
  Enhanced.splitWords ("a b" ++ String JS.backslash "sssc" ++ String JS.backslash "x")%string
                      false ""
  = ["a b"; ("c" ++ String JS.backslash "x")%string].
Proof. vm_compute. reflexivity. Qed.

(** ** The simplified build *)

Lemma simple_loop_is_greedy (words : list Simple.word) :
  Simple.findGroups words
  = greedy (list nat) (fun j u => existsb (Nat.eqb j) u) cons
           2 (fun _ => false) (simpleAccept words) (length words) [].
Proof.
  unfold Simple.findGroups, greedy. f_equal. apply fold_left_ext.
  intros [gs used] i. unfold Simple.outer_step, seed_step. cbn [fst snd].
  rewrite orb_false_r. destruct (existsb (Nat.eqb i) used); [reflexivity |].
  rewrite (fold_left_ext (Simple.inner_step words i)
             (claim_step (list nat) (fun j u => existsb (Nat.eqb j) u) cons
                         (simpleAccept words) i)).
  - now destruct (fold_left _ _ _).
  - intros [g u] j. unfold Simple.inner_step, claim_step, simpleAccept.
    cbn [fst snd]. destruct (existsb (Nat.eqb j) u); [reflexivity |].
    destruct (Simple.phones (nth i words Simple.dummy_word)) as [p1 |];
      [| reflexivity].
    destruct (Simple.phones (nth j words Simple.dummy_word)) as [p2 |];
      [| reflexivity].
    destruct ((2 <=? length p1) && (2 <=? length p2)); [| reflexivity].
    cbn [andb]. now destruct (_ && _).
Qed.

(** X11. The groups of [analyzeRhymes] (main-simple.js) partition a part of
    the words: every group has at least two members, lists word
    indices in increasing order, none twice; each member has, like the
    seed, at least two phonemes, the same last two phonemes and a
    different text. *)
Theorem simple_groups_partition (words : list Simple.word) :
  goodGroups 2 (fun _ => false) (simpleAccept words)
             (length words) (Simple.findGroups words).
Proof. rewrite simple_loop_is_greedy. apply set_good. Qed.

Lemma ratio_half (g n : nat) : 2 * g <= n -> (Main.ratio g (Nat.max 1 n) <= 1 # 2)%Q.
Proof.
  intros H. unfold Main.ratio.
  apply Qle_shift_div_r.
  - change 0%Q with (inject_Z 0). rewrite <- Zlt_Qlt. lia.
  - unfold Qle, Qmult, inject_Z. cbn [Qnum Qden]. lia.
Qed.

(** X12. The metrics of [analyzeRhymes]: the groups hold at most the words,
    so there are at most half as many groups as words and the density
    never exceeds one half. *)
Theorem simple_density_bound (text : string) :
  let m := Simple.metricsOf (Simple.analyzeRhymes text) in
  Simple.totalWords m = length (Simple.words (Simple.analyzeRhymes text))
  /\ 2 * Simple.rhymeGroups m <= Simple.totalWords m
  /\ (0 <= Simple.density m <= 1 # 2)%Q.
Proof.
  cbv zeta. unfold Simple.analyzeRhymes, Simple.analyzeWords.
  cbn [Simple.metricsOf Simple.totalWords Simple.rhymeGroups Simple.density Simple.words].
  set (ws := Simple.extractWords text).
  pose proof (simple_loop_is_greedy ws) as E.
  pose proof (set_good 2 (fun _ => false) (simpleAccept ws) (length ws)) as G.
  rewrite <- E in G.
  assert (H : 2 * length (Simple.findGroups ws) <= length ws).
  { apply Nat.le_trans with (length (List.concat (Simple.findGroups ws))).
    - apply sizes_sum. exact (good_sizes _ _ _ _ _ G).
    - exact (good_concat_below _ _ _ _ _ G). }
  split; [reflexivity | split; [exact H | split]].
  - unfold Main.ratio. apply Qle_shift_div_l.
    + change 0%Q with (inject_Z 0). rewrite <- Zlt_Qlt. lia.
    + rewrite Qmult_0_l. change 0%Q with (inject_Z 0). rewrite <- Zle_Qle. lia.
  - now apply ratio_half.
Qed.

(** ** The minimal engine: tails and scores in general *)

Lemma last_vowel_index_some (phones : list string) (n i : nat) :
  Minimal.last_vowel_index phones n = Some i ->
  i < n
  /\ Minimal.is_vowel (nth i phones "") = true
  /\ forall k, i < k < n -> Minimal.is_vowel (nth k phones "") = false.
Proof.
  induction n as [|m IH]; cbn [Minimal.last_vowel_index]; [discriminate |].
  destruct (Minimal.is_vowel (nth m phones "")) eqn:E.
  - intros [= <-]. split; [lia | split; [exact E |]]. intros k Hk. lia.
  - intros H. destruct (IH H) as [Hi [Hv Hk]].
    split; [lia | split; [exact Hv |]].
    intros k Hk'. destruct (Nat.eq_dec k m) as [-> | Hne]; [exact E |].
    apply Hk. lia.
Qed.

Lemma last_vowel_index_none_inv (phones : list string) (n : nat) :
  Minimal.last_vowel_index phones n = None ->
  forall k, k < n -> Minimal.is_vowel (nth k phones "") = false.
Proof.
  induction n as [|m IH]; cbn [Minimal.last_vowel_index]; [intros _ k Hk; lia |].
  destruct (Minimal.is_vowel (nth m phones "")) eqn:E; [discriminate |].
  intros H k Hk. destruct (Nat.eq_dec k m) as [-> | Hne]; [exact E |].
  apply IH; [exact H | lia].
Qed.

Lemma Forall_nth_below (P : string -> Prop) (l : list string) :
  (forall k, k < length l -> P (nth k l "")) -> Forall P l.
Proof.
  intros H. apply Forall_forall. intros x Hx.
  destruct (In_nth l x "" Hx) as [k [Hk <-]]. now apply H.
Qed.

(** The tail that starts at the last vowel: the vowel, then
    consonants only. *)
Lemma tail_from_last_vowel (phones : list string) (i : nat) :
  Minimal.last_vowel_index phones (length phones) = Some i ->
  exists v cs,
    skipn i phones = v :: cs
    /\ Minimal.is_vowel v = true
    /\ Forall (fun p => Minimal.is_vowel p = false) cs.
Proof.
  intros H. destruct (last_vowel_index_some _ _ _ H) as [Hi [Hv Hk]].
  destruct (skipn i phones) as [|v cs] eqn:E.
  - apply (f_equal (@length string)) in E. rewrite length_skipn in E.
    cbn in E. lia.
  - exists v, cs. split; [reflexivity |].
    assert (Hn : forall k, nth k (v :: cs) "" = nth (i + k) phones "").
    { intros k. rewrite <- E. now rewrite nth_skipn. }
    split.
    + specialize (Hn 0). cbn [nth] in Hn. rewrite Hn, Nat.add_0_r. exact Hv.
    + apply Forall_nth_below. intros k Hk'.
      specialize (Hn (S k)). cbn [nth] in Hn. rewrite Hn. apply Hk.
      assert (L : length (v :: cs) = length phones - i)
        by (rewrite <- E; apply length_skipn).
      cbn [length] in L. lia.
Qed.

Lemma last_vowel_index_head (v : string) (cs : list string) :
  Minimal.is_vowel v = true ->
  Forall (fun p => Minimal.is_vowel p = false) cs ->
  Minimal.last_vowel_index (v :: cs) (length (v :: cs)) = Some 0.
Proof.
  intros Hv Hcs.
  destruct (Minimal.last_vowel_index (v :: cs) (length (v :: cs))) as [j |] eqn:E.
  - destruct (last_vowel_index_some _ _ _ E) as [Hj [Hvj _]].
    destruct j as [|j]; [reflexivity |].
    cbn [nth length] in Hvj, Hj. rewrite Forall_forall in Hcs.
    rewrite (Hcs (nth j cs "")) in Hvj by (apply nth_In; lia). discriminate.
  - pose proof (last_vowel_index_none_inv _ _ E 0) as H.
    cbn [nth length] in H. rewrite Hv in H. discriminate H. lia.
Qed.

(** X13. [getRhymeTail] returns a suffix of its argument, and applying it
    to its own result changes nothing. *)
Theorem minimal_tail_idempotent (phones : list string) :
  (exists front, phones = front ++ Minimal.getRhymeTail phones)
  /\ Minimal.getRhymeTail (Minimal.getRhymeTail phones) = Minimal.getRhymeTail phones.
Proof.
  unfold Minimal.getRhymeTail at 1 3 4.
  destruct (Minimal.last_vowel_index phones (length phones)) as [i |] eqn:E.
  - split.
    + exists (firstn i phones). unfold JS.slice_from. symmetry. apply firstn_skipn.
    + destruct (tail_from_last_vowel _ _ E) as [v [cs [Es [Hv Hcs]]]].
      unfold JS.slice_from. rewrite Es. unfold Minimal.getRhymeTail.
      now rewrite (last_vowel_index_head v cs Hv Hcs).
  - split.
    + exists (firstn (length phones - 2) phones). unfold JS.slice_last2.
      symmetry. apply firstn_skipn.
    + assert (Hall : Forall (fun p => Minimal.is_vowel p = false) phones).
      { apply Forall_nth_below. intros k Hk.
        exact (last_vowel_index_none_inv _ _ E k Hk). }
      assert (Htail : Forall (fun p => Minimal.is_vowel p = false)
                             (JS.slice_last2 phones))
        by (apply Forall_skipn_keep; exact Hall).
      unfold Minimal.getRhymeTail.
      rewrite (last_vowel_index_none _ _ Htail (Nat.le_refl _)).
      unfold JS.slice_last2 at 1.
      replace (length (JS.slice_last2 phones) - 2) with 0
        by (rewrite slice_last2_length; lia).
      reflexivity.
Qed.

(** X14. When some phoneme is a vowel, the tail is the last vowel followed
    by the consonants after it. *)
Theorem minimal_tail_from_vowel (phones : list string) :
  Exists (fun p => Minimal.is_vowel p = true) phones ->
  exists v cs,
    Minimal.getRhymeTail phones = v :: cs
    /\ Minimal.is_vowel v = true
    /\ Forall (fun p => Minimal.is_vowel p = false) cs.
Proof.
  intros Hex. unfold Minimal.getRhymeTail.
  destruct (Minimal.last_vowel_index phones (length phones)) as [i |] eqn:E.
  - exact (tail_from_last_vowel _ _ E).
  - exfalso. apply Exists_exists in Hex. destruct Hex as [x [Hx Hv]].
    destruct (In_nth phones x "" Hx) as [k [Hk Ek]].
    pose proof (last_vowel_index_none_inv _ _ E k Hk) as H.
    rewrite Ek in H. congruence.
Qed.

Lemma minimal_tail_from_vowel_witness :
  exists v cs,
    Minimal.getRhymeTail ["K"; "AE1"; "T"; "S"] = v :: cs
    /\ Minimal.is_vowel v = true
    /\ Forall (fun p => Minimal.is_vowel p = false) cs.
Proof.
  apply (minimal_tail_from_vowel ["K"; "AE1"; "T"; "S"]).
  apply Exists_cons_tl, Exists_cons_hd. reflexivity.
Defined.

Lemma score_step_sym (tail1 tail2 : list string) (score : Q) (i : nat) :
  Minimal.score_step tail1 tail2 score i = Minimal.score_step tail2 tail1 score i.
Proof.
  unfold Minimal.score_step.
  rewrite String.eqb_sym.
  destruct (String.eqb _ _); [reflexivity |].
  destruct (JS.lookup _ VOWEL_CLASSES), (JS.lookup _ VOWEL_CLASSES);
    try reflexivity.
  - now rewrite String.eqb_sym.
  - now rewrite andb_comm.
Qed.

Lemma score_step_nonneg (tail1 tail2 : list string) (l : list nat) (score : Q) :
  (0 <= score)%Q -> (0 <= fold_left (Minimal.score_step tail1 tail2) l score)%Q.
Proof.
  revert score. induction l as [|i l IH]; intros score H; [exact H |].
  cbn [fold_left]. apply IH. unfold Minimal.score_step.
  assert (P : (0 < inject_Z (Z.of_nat (i + 1)))%Q).
  { change 0%Q with (inject_Z 0). rewrite <- Zlt_Qlt. lia. }
  assert (A : (0 <= 1 / inject_Z (Z.of_nat (i + 1)))%Q).
  { apply Qle_shift_div_l; [exact P |]. rewrite Qmult_0_l. discriminate. }
  assert (B : (0 <= q0_5 / inject_Z (Z.of_nat (i + 1)))%Q).
  { apply Qle_shift_div_l; [exact P |]. rewrite Qmult_0_l. discriminate. }
  set (x := (1 / inject_Z (Z.of_nat (i + 1)))%Q) in *.
  set (y := (q0_5 / inject_Z (Z.of_nat (i + 1)))%Q) in *.
  destruct (String.eqb _ _); [lra |].
  match goal with |- context [if ?b then _ else _] => destruct b end; lra.
Qed.

(** X15. [scoreRhyme] does not depend on the order of its arguments and
    lies between 0 and 1. *)
Theorem minimal_score_symmetric (tail1 tail2 : list string) :
  Minimal.scoreRhyme tail1 tail2 = Minimal.scoreRhyme tail2 tail1
  /\ (0 <= Minimal.scoreRhyme tail1 tail2 <= 1)%Q.
Proof.
  split.
  - unfold Minimal.scoreRhyme.
    rewrite orb_comm, String.eqb_sym, Nat.min_comm.
    now rewrite (fold_left_ext _ _ _ _ (score_step_sym tail1 tail2)).
  - unfold Minimal.scoreRhyme.
    destruct (_ || _); [split; discriminate |].
    destruct (String.eqb _ _); [split; discriminate |].
    pose proof (Math_min_range q0_95
                  (fold_left (Minimal.score_step tail1 tail2)
                             (seq 0 (Nat.min (length tail1) (length tail2))) 0%Q)) as R.
    destruct R as [R1 R2]; [discriminate | apply score_step_nonneg; discriminate |].
    split; [exact R1 |]. apply Qle_trans with q0_95; [exact R2 | discriminate].
Qed.

(** ** The letter loop of the minimal and the simplified build *)

Lemma letter_vowel_stress (ch : string) :
  primaryStress (Minimal.letter_vowel ch ++ "1") = true
  /\ primaryStress (Minimal.letter_vowel ch ++ "0") = false.
Proof.
  unfold Minimal.letter_vowel.
  repeat match goal with
         | |- context [String.eqb ch ?k] => destruct (String.eqb ch k)
         end; split; reflexivity.
Qed.

Lemma consonant_not_stressed (ch p : string) :
  JS.lookup ch Minimal.consonantMap = Some p -> primaryStress p = false.
Proof.
  intros H. apply lookup_In in H. unfold Minimal.consonantMap in H.
  repeat (destruct H as [[= <- <-] | H]; [reflexivity |]). destruct H.
Qed.

(** X16. The letter loop marks exactly one phoneme as stressed: its
    output holds exactly one code ending in 1 when the cleaned word
    has a vowel letter, and none otherwise; once the flag [stressed]
    is set no further code ends in 1. *)
Theorem letter_loop_single_stress (cleaned : string) :
  filter primaryStress (Minimal.phones_loop cleaned true) = []
  /\ length (filter primaryStress (Minimal.phones_loop cleaned false))
     = if JS.all_chars (fun c => negb (vowelLetter c)) cleaned then 0 else 1.
Proof.
  assert (T : forall s, filter primaryStress (Minimal.phones_loop s true) = []).
  { induction s as [|c r IH]; [reflexivity |].
    cbn [Minimal.phones_loop]. cbv zeta.
    destruct (JS.has (JS.one c) _).
    - cbn [negb filter].
      destruct (letter_vowel_stress (JS.one c)) as [_ E]. now rewrite E.
    - destruct (JS.lookup (JS.one c) Minimal.consonantMap) as [p |] eqn:L;
        [| exact IH].
      cbn [filter]. now rewrite (consonant_not_stressed _ _ L). }
  split; [apply T |].
  induction cleaned as [|c r IH]; [reflexivity |].
  cbn [Minimal.phones_loop JS.all_chars]. cbv zeta. unfold vowelLetter at 1.
  destruct (JS.has (JS.one c) _).
  - cbn [negb filter andb].
    destruct (letter_vowel_stress (JS.one c)) as [E _]. rewrite E.
    cbn [length]. now rewrite T.
  - cbn [negb andb].
    destruct (JS.lookup (JS.one c) Minimal.consonantMap) as [p |] eqn:L;
      [| exact IH].
    cbn [filter]. now rewrite (consonant_not_stressed _ _ L).
Qed.

(** ** When the minimal build raises *)

Lemma minimal_wordToPhones_none (w : string) :
  Minimal.wordToPhones w = None <-> JS.inherited (Minimal.clean w) = true.
Proof.
  unfold Minimal.wordToPhones.
  destruct (JS.inherited (Minimal.clean w)).
  - split; reflexivity.
  - destruct (JS.lookup _ _); split; discriminate.
Qed.

Lemma word_fold_none (ln : string) (lineIndex : nat) (globalPos : Z)
  (ws : list string) (st : option (list Minimal.word * Z)) :
  fold_left (Minimal.word_step ln lineIndex globalPos) ws st = None
  <-> st = None \/ Exists (fun w => Minimal.wordToPhones w = None) ws.
Proof.
  revert st. induction ws as [|w ws IH]; intros st; cbn [fold_left].
  - split; [now left | intros [H | H]; [exact H | inversion H]].
  - rewrite IH. unfold Minimal.word_step at 1. split.
    + intros [H | H]; [| right; now apply Exists_cons_tl].
      destruct st as [[allWords linePos] |]; [| now left].
      right. apply Exists_cons_hd.
      now destruct (Minimal.wordToPhones w).
    + intros [-> | H]; [now left |].
      inversion H as [? ? Hw | ? ? Hws]; subst; [| now right].
      left. destruct st as [[allWords linePos] |]; [| reflexivity].
      now rewrite Hw.
Qed.

Lemma line_fold_none (lns : list string)
  (st : option (list Minimal.word * Z * nat)) :
  fold_left Minimal.line_step lns st = None
  <-> st = None
      \/ Exists (fun ln => Exists (fun w => Minimal.wordToPhones w = None)
                                  (JS.match_bounded_token ln)) lns.
Proof.
  revert st. induction lns as [|ln lns IH]; intros st; cbn [fold_left].
  - split; [now left | intros [H | H]; [exact H | inversion H]].
  - rewrite IH.
    assert (S1 : Minimal.line_step st ln = None
                 <-> st = None
                     \/ Exists (fun w => Minimal.wordToPhones w = None)
                               (JS.match_bounded_token ln)).
    { unfold Minimal.line_step.
      destruct st as [[[allWords globalPos] lineIndex] |];
        [| split; [now left | reflexivity]].
      pose proof (word_fold_none ln lineIndex globalPos (JS.match_bounded_token ln)
                                 (Some (allWords, 0%Z))) as W.
      destruct (fold_left _ _ _) as [[aw lp] |].
      - split; [discriminate |]. intros [H | H]; [discriminate |].
        destruct W as [_ W]. discriminate (W (or_intror H)).
      - split; [| reflexivity]. intros _. right.
        destruct W as [W _]. destruct (W eq_refl) as [H | H];
          [discriminate | exact H]. }
    rewrite S1. split.
    + intros [[H | H] | H]; [now left | right; now apply Exists_cons_hd
                            | right; now apply Exists_cons_tl].
    + intros [H | H]; [left; now left |].
      inversion H; subst; [left; now right | now right].
Qed.

(** X17. [analyzeText] of the minimal build raises exactly when some token
    of some line, lower-cased, is a name the pronunciation table
    inherits (such as [constructor]); on every other text it returns
    an analysis. *)
Theorem minimal_analyze_raises (text : string) (threshold : Q) :
  Minimal.analyzeText text threshold = None
  <-> Exists (fun ln => Exists (fun w => JS.inherited (Minimal.clean w) = true)
                               (JS.match_bounded_token ln))
             (JS.split Minimal.nl text).
Proof.
  unfold Minimal.analyzeText, Minimal.tokenize.
  pose proof (line_fold_none (JS.split (JS.one JS.newline) text)
                             (Some ([], 0%Z, 0))) as L.
  change (JS.split Minimal.nl text) with (JS.split (JS.one JS.newline) text).
  assert (R : Exists (fun ln => Exists (fun w => Minimal.wordToPhones w = None)
                                       (JS.match_bounded_token ln))
                     (JS.split (JS.one JS.newline) text)
              <-> Exists (fun ln => Exists (fun w => JS.inherited (Minimal.clean w) = true)
                                           (JS.match_bounded_token ln))
                         (JS.split (JS.one JS.newline) text)).
  { split; intros H; eapply Exists_impl; try exact H; intros ln Hl;
      eapply Exists_impl; try exact Hl; intros w; apply minimal_wordToPhones_none. }
  rewrite <- R.
  destruct (fold_left Minimal.line_step _ _) as [[[aw gp] li] |].
  - split; [discriminate |]. intros H.
    destruct L as [_ L]. discriminate (L (or_intror H)).
  - split; [| reflexivity]. intros _.
    destruct L as [L _]. destruct (L eq_refl) as [H | H]; [discriminate | exact H].
Qed.

Example minimal_raises_on_constructor :
  Minimal.analyzeText "The Constructor" q0_5 = None.
Proof. vm_compute. reflexivity. Qed.

(** ** The phoneme functions of main.js in general *)

Lemma syllabify_fold_concat (ps : list string) (syls : list (list string))
  (cur : list string) (st : option nat) :
  List.concat (fst (fst (fold_left Main.syllabify_step ps (syls, cur, st))))
  ++ snd (fst (fold_left Main.syllabify_step ps (syls, cur, st)))
  = List.concat syls ++ cur ++ ps.
Proof.
  revert syls cur st. induction ps as [|p ps IH]; intros syls cur st.
  - cbn [fold_left fst snd]. now rewrite app_nil_r.
  - cbn [fold_left].
    destruct (Main.isVowelPhone p) eqn:Hp.
    + assert (E : Main.syllabify_step (syls, cur, st) p
                  = (if 0 <? length cur then syls ++ [cur] else syls, [p],
                     if JS.endsWith p "1"
                     then Some (length (if 0 <? length cur then syls ++ [cur] else syls))
                     else st))
        by (unfold Main.syllabify_step; now rewrite Hp).
      rewrite E, IH. destruct cur as [|c cur]; cbn [length Nat.ltb Nat.leb].
      * reflexivity.
      * rewrite concat_app. cbn [List.concat]. rewrite app_nil_r.
        now rewrite <- !app_assoc.
    + rewrite (syllabify_step_consonant syls cur st p Hp), IH.
      now rewrite <- app_assoc.
Qed.

(** X18. [syllabify] only cuts the sequence: the syllables, put end to
    end, are the phonemes it was given, in their order. *)
Theorem syllabify_concat (phones : list string) :
  List.concat (fst (Main.syllabify phones)) = phones.
Proof.
  unfold Main.syllabify.
  pose proof (syllabify_fold_concat phones [] [] None) as H.
  destruct (fold_left Main.syllabify_step phones ([], [], None)) as [[syls cur] st].
  cbn [fst snd List.concat app] in *.
  destruct cur as [|c cur]; cbn [length Nat.ltb Nat.leb].
  - now rewrite app_nil_r in H.
  - rewrite concat_app. cbn [List.concat]. now rewrite app_nil_r.
Qed.

Lemma Forall_removelast {A} (P : A -> Prop) (l : list A) :
  Forall P l -> Forall P (removelast l).
Proof.
  induction 1 as [|x l Hx Hl IH]; [constructor |].
  cbn [removelast]. destruct l; [constructor | now constructor].
Qed.

Lemma removelast_length {A} (l : list A) : length (removelast l) = length l - 1.
Proof.
  induction l as [|x l IH]; [reflexivity |].
  cbn [removelast]. destruct l as [|y l]; [reflexivity |].
  cbn [length] in *. lia.
Qed.

(** X19. [normalizeCoda] leaves no consonant that its folding table
    rewrites, and drops at most one phoneme (a final HH). *)
Theorem normalizeCoda_voiceless (coda : list string) :
  Forall (fun c => voiced c = false) (Main.normalizeCoda coda)
  /\ length coda - 1 <= length (Main.normalizeCoda coda) <= length coda.
Proof.
  unfold Main.normalizeCoda.
  set (result := map _ coda).
  assert (F : Forall (fun c => voiced c = false) result).
  { subst result. apply Forall_forall. intros x Hx.
    apply in_map_iff in Hx. destruct Hx as [c [<- _]].
    destruct (JS.lookup (Main.normalizePhone c) Main.fold_table) as [v |] eqn:L.
    - apply lookup_In in L. unfold Main.fold_table in L.
      repeat (destruct L as [[= _ <-] | L]; [reflexivity |]). destruct L.
    - unfold voiced. now rewrite L. }
  assert (Len : length result = length coda) by (subst result; apply length_map).
  destruct (_ && _).
  - split; [now apply Forall_removelast |]. rewrite removelast_length. lia.
  - split; [exact F | lia].
Qed.

(** X20. [detectAssonance] does not depend on the order of the two words. *)
Theorem detectAssonance_symmetric (w1 w2 : Main.word) :
  Main.detectAssonance w1 w2 = Main.detectAssonance w2 w1.
Proof.
  unfold Main.detectAssonance. rewrite orb_comm.
  destruct (_ || _); [reflexivity |].
  destruct (Main.getStressedVowel w1), (Main.getStressedVowel w2); try reflexivity.
  now rewrite String.eqb_sym, Nat.eqb_sym.
Qed.

(** ** The end of a line *)

Lemma isLineEnd_next (i : nat) (words : list Main.word) :
  Main.isLineEnd i words
  = match nth_error words (i + 1) with
    | Some w => negb (Main.line w =? Main.line (nth i words Main.dummy_word))
    | None => true
    end.
Proof.
  unfold Main.isLineEnd.
  destruct (nth_error words (i + 1)) as [w |] eqn:E.
  - apply nth_error_split in E. destruct E as [l1 [l2 [-> Hl]]].
    rewrite <- Hl. rewrite skipn_app, skipn_all, Nat.sub_diag. cbn [app skipn].
    cbn [Main.isLineEnd_loop].
    now destruct (Main.line w =? _).
  - apply nth_error_None in E. now rewrite skipn_all2.
Qed.

Lemma linesAscend_nth (words : list Main.word) (i j : nat) :
  linesAscend words -> i <= j -> j < length words ->
  Main.line (nth i words Main.dummy_word) <= Main.line (nth j words Main.dummy_word).
Proof.
  unfold linesAscend. intros H. revert i j.
  induction H as [|w ws Hs IH Hall]; intros i j Hij Hj; [cbn in Hj; lia |].
  destruct j as [|j].
  - replace i with 0 by lia. lia.
  - destruct i as [|i].
    + cbn [nth]. rewrite Forall_forall in Hall. apply Hall.
      apply nth_In. cbn [length] in Hj. lia.
    + cbn [nth]. apply IH; [lia | cbn [length] in Hj; lia].
Qed.

(** X21. On words whose line numbers never decrease, [isLineEnd] holds
    exactly for the last word of each line, although its loop only
    looks at the next word. *)
Theorem isLineEnd_last_of_line (words : list Main.word) (i : nat) :
  linesAscend words ->
  (Main.isLineEnd i words = true
   <-> forall j, i < j < length words ->
         Main.line (nth j words Main.dummy_word)
         <> Main.line (nth i words Main.dummy_word)).
Proof.
  intros Hs. rewrite isLineEnd_next.
  destruct (nth_error words (i + 1)) as [w |] eqn:E.
  - assert (Hlen : i + 1 < length words)
      by (apply nth_error_Some; congruence).
    assert (Ew : nth (i + 1) words Main.dummy_word = w)
      by (now apply nth_error_nth).
    rewrite negb_true_iff, Nat.eqb_neq. split.
    + intros Hne j Hj.
      pose proof (linesAscend_nth words i (i + 1) Hs ltac:(lia) Hlen) as H1.
      pose proof (linesAscend_nth words (i + 1) j Hs ltac:(lia) ltac:(lia)) as H2.
      rewrite Ew in H1, H2. lia.
    + intros H. rewrite <- Ew. apply H. lia.
  - apply nth_error_None in E. split; [| reflexivity].
    intros _ j Hj. lia.
Qed.

Lemma isLineEnd_last_of_line_witness :
  linesAscend three_words
  /\ (Main.isLineEnd 1 three_words = true
      <-> forall j, 1 < j < length three_words ->
            Main.line (nth j three_words Main.dummy_word)
            <> Main.line (nth 1 three_words Main.dummy_word)).
Proof.
  assert (H : linesAscend three_words).
  { unfold linesAscend, three_words.
    repeat (constructor; [| repeat constructor; cbn; lia]). constructor. }
  split; [exact H |].
  exact (isLineEnd_last_of_line three_words 1 H).
Defined.

Lemma sorted_snoc (ws : list Main.word) (w : Main.word) :
  linesAscend ws ->
  Forall (fun a => Main.line a <= Main.line w) ws ->
  linesAscend (ws ++ [w]).
Proof.
  unfold linesAscend. intros Hs Hall.
  induction Hs as [|a ws Hs IH Ha]; cbn [app].
  - repeat constructor.
  - inversion Hall; subst. constructor; [now apply IH |].
    apply Forall_app. split; [exact Ha | now repeat constructor].
Qed.

(** X22. [analyze] collects the words line by line: in the list of words
    the line numbers never decrease, so the hypothesis above holds
    for the words of every text. *)
Theorem tokenize_lines_ascend (text : string) : linesAscend (Main.tokenize text).
Proof.
  unfold Main.tokenize.
  assert (G : forall lns ws n,
             linesAscend ws /\ Forall (fun a => Main.line a <= n) ws ->
             linesAscend (fst (fold_left Main.line_step lns (ws, n)))).
  { induction lns as [|ln lns IH]; intros ws n [Hs Hb]; [exact Hs |].
    cbn [fold_left]. unfold Main.line_step at 2. apply IH.
    assert (K : linesAscend (fold_left (Main.match_step n) (JS.matchAll_token ln) ws)
                /\ Forall (fun a => Main.line a <= n)
                          (fold_left (Main.match_step n) (JS.matchAll_token ln) ws)).
    { apply (fold_left_invariant _ _ _
               (fun ws => linesAscend ws /\ Forall (fun a => Main.line a <= n) ws)).
      - now split.
      - intros ws' [index w] [Hs' Hb'] _. unfold Main.match_step.
        destruct (_ && _); [now split |].
        destruct (Main.syllabify _) as [syls st]. split.
        + apply sorted_snoc; [exact Hs' | exact Hb'].
        + apply Forall_app. split; [exact Hb' |]. repeat constructor. }
    destruct K as [K1 K2]. split; [exact K1 |].
    eapply Forall_impl; [| exact K2]. intros a Ha. cbn beta in Ha. lia. }
  apply G. split; constructor.
Qed.

(** ** The spans and the scheme *)

Lemma span_fold_indices (words : list Main.word) (l : list nat)
  (acc : list Main.span) :
  map Main.wordIndex (fold_left (Main.span_step words) l acc)
  = map Main.wordIndex acc
    ++ filter (fun i => hasKey (nth i words Main.dummy_word)) l.
Proof.
  revert acc. induction l as [|i l IH]; intros acc; cbn [fold_left filter].
  - now rewrite app_nil_r.
  - rewrite IH. unfold Main.span_step, hasKey.
    destruct (Main.getRhymeKey _ _); [| reflexivity].
    rewrite map_app. cbn [map Main.wordIndex]. now rewrite <- app_assoc.
Qed.

(** X23. [allSpans] holds one span for each word that has a rhyme key, in
    the order of the words, and the span carries the key of its
    word. *)
Theorem buildSpans_indices (words : list Main.word) :
  map Main.wordIndex (Main.buildSpans words)
  = filter (fun i => hasKey (nth i words Main.dummy_word)) (seq 0 (length words))
  /\ Forall (fun sp =>
               Main.getRhymeKey
                 (Main.syllables (nth (Main.wordIndex sp) words Main.dummy_word))
                 (Main.stress (nth (Main.wordIndex sp) words Main.dummy_word))
               = Some (Main.key sp))
            (Main.buildSpans words).
Proof.
  split.
  - unfold Main.buildSpans. now rewrite span_fold_indices.
  - unfold Main.buildSpans.
    apply (fold_left_invariant _ _ _
             (Forall (fun sp =>
                        Main.getRhymeKey
                          (Main.syllables (nth (Main.wordIndex sp) words Main.dummy_word))
                          (Main.stress (nth (Main.wordIndex sp) words Main.dummy_word))
                        = Some (Main.key sp)))).
    + constructor.
    + intros sps i H _. unfold Main.span_step.
      destruct (Main.getRhymeKey _ _) as [k |] eqn:E; [| exact H].
      apply Forall_app. split; [exact H |].
      constructor; [exact E | constructor].
Qed.

Lemma string_length_app (a b : string) :
  String.length (a ++ b) = String.length a + String.length b.
Proof. induction a as [|c a IH]; cbn; [reflexivity | now rewrite IH]. Qed.

Lemma join_empty_length (l : list string) :
  Forall (fun s => String.length s = 1) l ->
  String.length (JS.join "" l) = length l.
Proof.
  unfold JS.join.
  induction 1 as [|x l Hx Hl IH]; [reflexivity |].
  cbn [String.concat]. destruct l as [|y l]; [exact Hx |].
  rewrite string_length_app. cbn [append]. rewrite IH, Hx. reflexivity.
Qed.

Lemma lookupNat_In {V} (k : nat) (t : list (nat * V)) (v : V) :
  Main.lookupNat k t = Some v -> In v (map snd t).
Proof.
  induction t as [|[k' v'] t IH]; cbn [Main.lookupNat map snd]; [discriminate |].
  destruct (k =? k').
  - intros [= ->]. now left.
  - intros H. right. now apply IH.
Qed.

Lemma scheme_step_letters (words : list Main.word) (wordToGroup : Main.wordToGroupMap)
  (st : list (nat * string) * nat * list string) (ln k : nat) :
  Forall (fun s => String.length s = 1) (map snd (fst (fst st))) ->
  Forall (fun s => String.length s = 1) (snd st) ->
  length (snd st) = k ->
  let st' := Main.scheme_step words wordToGroup st ln in
  Forall (fun s => String.length s = 1) (map snd (fst (fst st')))
  /\ Forall (fun s => String.length s = 1) (snd st')
  /\ length (snd st') = S k.
Proof.
  destruct st as [[letters code] sequence]. cbn [fst snd]. intros Hl Hs Hk. cbv zeta.
  assert (Push : forall x, String.length x = 1 ->
                   Forall (fun s => String.length s = 1) (sequence ++ [x])
                   /\ length (sequence ++ [x]) = S k).
  { intros x Hx. split.
    - apply Forall_app. split; [exact Hs | now repeat constructor].
    - rewrite length_app. cbn [length]. lia. }
  unfold Main.scheme_step.
  destruct (Main.lastWordOfLine words ln (length words)) as [lastWordIndex |];
    [| cbn [fst snd]; split; [exact Hl | now apply Push]].
  destruct (Main.entriesOf wordToGroup lastWordIndex) as [|[[groupId t] ty] es];
    [cbn [fst snd]; split; [exact Hl | now apply Push] |].
  destruct (Main.lookupNat groupId letters) as [letter |] eqn:L; cbn [fst snd].
  - split; [exact Hl |]. apply Push.
    rewrite Forall_forall in Hl. apply Hl. exact (lookupNat_In _ _ _ L).
  - split; [| now apply Push].
    rewrite map_app. apply Forall_app. split; [exact Hl | now repeat constructor].
Qed.

Lemma scheme_fold_letters (words : list Main.word) (wordToGroup : Main.wordToGroupMap)
  (lns : list nat) (st : list (nat * string) * nat * list string) (k : nat) :
  Forall (fun s => String.length s = 1) (map snd (fst (fst st))) ->
  Forall (fun s => String.length s = 1) (snd st) ->
  length (snd st) = k ->
  let st' := fold_left (Main.scheme_step words wordToGroup) lns st in
  Forall (fun s => String.length s = 1) (snd st')
  /\ length (snd st') = k + length lns.
Proof.
  revert st k. induction lns as [|ln lns IH]; intros st k Hl Hs Hk; cbv zeta.
  - cbn [fold_left length]. split; [exact Hs | lia].
  - cbn [fold_left length].
    destruct (scheme_step_letters words wordToGroup st ln k Hl Hs Hk) as [A [B C]].
    destruct (IH _ (S k) A B C) as [D E]. split; [exact D | lia].
Qed.

(** X24. The rhyme scheme has one character for each line from the first
    to the last line that holds a word, whatever the groups are. *)
Theorem buildScheme_length (words : list Main.word)
  (wordToGroup : Main.wordToGroupMap) :
  String.length (Main.buildScheme words wordToGroup)
  = Z.to_nat (Main.maxLine words + 1).
Proof.
  unfold Main.buildScheme.
  pose proof (scheme_fold_letters words wordToGroup
                (seq 0 (Z.to_nat (Main.maxLine words + 1))) ([], 65, []) 0
                (Forall_nil _) (Forall_nil _) eq_refl) as H.
  cbv zeta in H.
  destruct (fold_left _ _ _) as [[letters code] sequence].
  cbn [snd] in H. destruct H as [A B].
  rewrite (join_empty_length _ A), B, length_seq. reflexivity.
Qed.

(** ** What main.js makes of a word and of a text *)

Lemma class_not_space (c : ascii) :
  Main.cleanWord_class c = true -> JS.is_space c = false.
Proof. intros H. destruct (class_cases c H) as [-> | [-> | ->]]; reflexivity. Qed.

Lemma trim_in_class (s : string) :
  JS.all_chars Main.cleanWord_class s = true -> JS.trim s = s.
Proof.
  intros H. unfold JS.trim.
  assert (E : JS.trimStart s = s).
  { destruct s as [|c r]; [reflexivity |].
    cbn [JS.all_chars] in H. apply andb_true_iff in H. destruct H as [Hc _].
    cbn [JS.trimStart]. now rewrite (class_not_space c Hc). }
  rewrite E. clear E.
  induction s as [|c r IH]; [reflexivity |].
  cbn [JS.all_chars] in H. apply andb_true_iff in H. destruct H as [Hc Hr].
  cbn [JS.trimEnd JS.all_space]. rewrite (class_not_space c Hc). cbn [andb].
  now rewrite (IH Hr).
Qed.

Lemma contains_w_keep (s : string) :
  JS.contains_char "w" (JS.keep_chars Main.cleanWord_class s)
  = JS.contains_char "w" s.
Proof.
  induction s as [|c r IH]; [reflexivity |].
  cbn [JS.keep_chars JS.contains_char].
  destruct (Main.cleanWord_class c) eqn:E.
  - cbn [JS.contains_char]. now rewrite IH.
  - rewrite IH. destruct (Ascii.eqb_spec c "w") as [-> | _]; [discriminate E | reflexivity].
Qed.

Lemma g2p_loop_nil_iff (s : string) (stressed : bool) :
  JS.all_chars Main.cleanWord_class s = true ->
  Main.g2p_loop s 0 stressed = [] <-> JS.contains_char "w" s = false.
Proof.
  induction s as [|c r IH]; intros H; [split; reflexivity |].
  cbn [JS.all_chars] in H. apply andb_true_iff in H. destruct H as [Hc Hr].
  rewrite (g2p_loop_in_class c r stressed Hc Hr). cbn [JS.contains_char].
  destruct (Ascii.eqb c "w"); cbn [app orb].
  - split; discriminate.
  - now apply IH.
Qed.

Lemma dedupe_W (l : list string) :
  Forall (eq "W") l -> fold_left Main.dedupe_step l ["W"] = ["W"].
Proof.
  induction 1 as [|x l <- _ IH]; [reflexivity |].
  cbn [fold_left]. exact IH.
Qed.

Lemma filter_W (l : list string) :
  Forall (eq "W") l -> filter (fun p => negb (String.eqb p "")) l = l.
Proof.
  induction 1 as [|x l <- _ IH]; [reflexivity |].
  cbn [filter]. cbn. now rewrite IH.
Qed.

(** X25. The phonemes main.js gives to a word: the list is empty, or holds
    the single code W when the word has a letter w, small or
    capital.  No other letter survives [cleanWord], and no entry of
    the table of pronunciations is found. *)
Theorem main_wordToPhones_exact (word : string) :
  Main.wordToPhones word
  = if JS.contains_char "w" (JS.toLowerCase word) then ["W"] else [].
Proof.
  rewrite wordToPhones_is_heuristic.
  pose proof (cleanWord_in_class word) as C.
  assert (K : JS.contains_char "w" (Main.cleanWord word)
              = JS.contains_char "w" (JS.toLowerCase word)).
  { unfold Main.cleanWord. rewrite trim_in_class by apply keep_chars_all.
    apply contains_w_keep. }
  rewrite <- K. unfold Main.g2pHeuristic.
  rewrite (toLowerCase_in_class _ C).
  pose proof (g2p_loop_only_W (Main.cleanWord word) 0 false C) as W.
  pose proof (g2p_loop_nil_iff (Main.cleanWord word) false C) as N.
  rewrite (filter_W _ W).
  destruct (Main.g2p_loop (Main.cleanWord word) 0 false) as [|p l].
  - destruct N as [N _]. now rewrite (N eq_refl).
  - destruct (JS.contains_char "w" (Main.cleanWord word)).
    + inversion W as [|? ? <- Wl]; subst. cbn [fold_left]. exact (dedupe_W l Wl).
    + destruct N as [_ N]. discriminate (N eq_refl).
Qed.

Lemma firstVowelClass_noVowel (syl : list string) :
  noVowel syl -> Main.firstVowelClass syl = None.
Proof.
  induction 1 as [|p syl Hp _ IH]; [reflexivity |].
  cbn [Main.firstVowelClass]. unfold Main.isVowelPhone in Hp. now rewrite Hp.
Qed.

Lemma stressedVowel_vowelless (w : Main.word) :
  vowelless w -> Main.getStressedVowel w = None.
Proof.
  intros H. unfold Main.getStressedVowel.
  destruct (_ <? _) eqn:E; [| reflexivity].
  apply Nat.ltb_lt in E. apply firstVowelClass_noVowel.
  unfold vowelless in H. rewrite Forall_forall in H. apply H. now apply nth_In.
Qed.

Lemma detectAssonance_vowelless (w1 w2 : Main.word) :
  vowelless w1 -> Main.detectAssonance w1 w2 = false.
Proof.
  intros H. unfold Main.detectAssonance.
  destruct (_ || _); [reflexivity |].
  now rewrite (stressedVowel_vowelless w1 H).
Qed.

Lemma match_step_vowelless (lineIndex : nat) (words : list Main.word)
  (m : nat * string) :
  Forall vowelless words -> Forall vowelless (Main.match_step lineIndex words m).
Proof.
  intros H. destruct m as [index w]. unfold Main.match_step.
  destruct (_ && _); [exact H |].
  assert (V : noVowel (Main.wordToPhones (Main.cleanWord w))).
  { apply only_W_noVowel. rewrite wordToPhones_is_heuristic.
    apply g2pHeuristic_only_W, cleanWord_in_class. }
  rewrite (syllabify_noVowel _ V).
  destruct (Main.wordToPhones (Main.cleanWord w)) as [|p ps] eqn:E;
    (apply Forall_app; split; [exact H |]);
    (apply Forall_cons; [| apply Forall_nil]); unfold vowelless; cbn [Main.syllables].
  - apply Forall_nil.
  - apply Forall_cons; [exact V | apply Forall_nil].
Qed.

Lemma tokenize_vowelless (text : string) : Forall vowelless (Main.tokenize text).
Proof.
  unfold Main.tokenize.
  apply (fold_left_invariant _ _ _
           (fun st : list Main.word * nat => Forall vowelless (fst st))).
  - constructor.
  - intros [ws n] ln H _. cbn [fst] in H. unfold Main.line_step. cbn [fst].
    apply (fold_left_invariant _ _ _ (Forall vowelless)); [exact H |].
    intros ws' m H' _. now apply match_step_vowelless.
Qed.

Lemma nth_vowelless (words : list Main.word) (i : nat) :
  Forall vowelless words -> vowelless (nth i words Main.dummy_word).
Proof.
  intros H. destruct (Nat.lt_ge_cases i (length words)) as [Hi | Hi].
  - rewrite Forall_forall in H. apply H. now apply nth_In.
  - rewrite nth_overflow by exact Hi. constructor.
Qed.

Lemma assonancePass_vowelless (cfg : Main.settings) (words : list Main.word) :
  Forall vowelless words -> Main.assonancePass cfg words = [].
Proof.
  intros V. destruct (Main.highlightAssonance cfg) eqn:Hc;
    [| unfold Main.assonancePass; now rewrite Hc].
  rewrite (assonance_loop_is_greedy cfg words Hc).
  pose proof (flags_good 3 (Main.isStop words) (assonanceAccept words) (length words))
    as [G _].
  destruct (greedy _ _ _ _ _ _ _ _) as [|g gs]; [reflexivity |].
  exfalso. inversion G as [|? ? Hg _]; subst.
  destruct Hg as [Hlen [_ [_ [seed [rest [-> [_ Hacc]]]]]]].
  destruct rest as [|j rest]; [cbn in Hlen; lia |].
  inversion Hacc as [|? ? Hj _]; subst.
  unfold assonanceAccept in Hj.
  rewrite (detectAssonance_vowelless _ _ (nth_vowelless words seed V)) in Hj.
  now rewrite andb_false_r in Hj.
Qed.

Lemma nth_pair_keyless (lineWords : list (nat * Main.word)) (i : nat) :
  Forall (fun iw => keyless (snd iw)) lineWords ->
  keyless (snd (nth i lineWords (0, Main.dummy_word))).
Proof.
  intros H. destruct (Nat.lt_ge_cases i (length lineWords)) as [Hi | Hi].
  - rewrite Forall_forall in H. apply H. now apply nth_In.
  - rewrite nth_overflow by exact Hi. reflexivity.
Qed.

Lemma linePairs_keyless (cfg : Main.settings) (lineWords : list (nat * Main.word)) :
  Forall (fun iw => keyless (snd iw)) lineWords ->
  Main.linePairs cfg lineWords = [].
Proof.
  intros H. unfold Main.linePairs.
  apply (fold_left_invariant _ _ _ (fun pairs : list (nat * nat) => pairs = []));
    [reflexivity |].
  intros pairs i -> _.
  apply (fold_left_invariant _ _ _ (fun pairs : list (nat * nat) => pairs = []));
    [reflexivity |].
  intros pairs j -> _.
  pose proof (nth_pair_keyless lineWords i H) as K.
  destruct (nth i lineWords (0, Main.dummy_word)) as [wi1 w1].
  destruct (nth j lineWords (0, Main.dummy_word)) as [wi2 w2].
  cbn [snd] in K. unfold keyless in K. rewrite K.
  now destruct (String.eqb _ _).
Qed.

Lemma internalPass_keyless (cfg : Main.settings) (words : list Main.word) :
  Forall keyless words -> Main.internalPass cfg words = [].
Proof.
  intros H. unfold Main.internalPass.
  destruct (Main.showInternalRhymes cfg); [| reflexivity].
  apply (fold_left_invariant _ _ _
           (fun acc : list (nat * list (nat * nat)) => acc = []));
    [reflexivity |].
  intros acc lineIndex -> _.
  rewrite linePairs_keyless; [reflexivity |].
  apply Forall_forall. intros [i w] Hin.
  apply filter_In in Hin. destruct Hin as [Hin _].
  apply in_combine_r in Hin. rewrite Forall_forall in H. now apply H.
Qed.

(** X26. [analyze] of main.js finds nothing in any text, with any
    settings: no span, no rhyme group, no assonance group, no
    internal rhyme, and no word is given a group. *)
Theorem main_analyze_finds_nothing (cfg : Main.settings) (text : string) :
  let r := Main.analyze cfg text in
  Main.allSpans r = []
  /\ Main.groups r = []
  /\ Main.assonanceGroups r = []
  /\ Main.internalRhymes r = []
  /\ Main.wordToGroup r = repeat [] (length (Main.words r)).
Proof.
  cbv zeta.
  assert (E : Main.buildSpans (Main.tokenize text) = [])
    by apply buildSpans_keyless, tokenize_keyless.
  assert (A : Main.assonancePass cfg (Main.tokenize text) = [])
    by apply assonancePass_vowelless, tokenize_vowelless.
  unfold Main.analyze, Main.analyzeWords.
  cbn [Main.allSpans Main.groups Main.assonanceGroups Main.internalRhymes
       Main.wordToGroup Main.words].
  rewrite E, A.
  split; [reflexivity | split; [reflexivity | split; [reflexivity | split]]].
  - apply internalPass_keyless, tokenize_keyless.
  - reflexivity.
Qed.

(** ** The helpers of hip-hop-enhancements.js *)

Lemma areConsonantsSimilar_sym (c1 c2 : string) :
  Enhancements.areConsonantsSimilar c1 c2 = Enhancements.areConsonantsSimilar c2 c1.
Proof.
  unfold Enhancements.areConsonantsSimilar.
  induction Enhancements.similarPairs as [|ab l IH]; [reflexivity |].
  cbn [existsb]. rewrite IH. f_equal.
  rewrite orb_comm. f_equal; apply andb_comm.
Qed.

(** X27. [areConsonantsSimilar] is symmetric, and it holds for every pair
    of consonants that main.js treats as equivalent: the table of
    similar pairs extends the table of consonant pairs. *)
Theorem consonants_similar_extends (c1 c2 : string) :
  Enhancements.areConsonantsSimilar c1 c2 = Enhancements.areConsonantsSimilar c2 c1
  /\ implb (Main.equivalent c1 c2) (Enhancements.areConsonantsSimilar c1 c2) = true.
Proof.
  split; [apply areConsonantsSimilar_sym |].
  rewrite equivalent_spec.
  destruct (Spec.recognizedPair c1 c2) eqn:E; [| reflexivity].
  cbn [implb]. unfold Spec.recognizedPair in E.
  apply existsb_exists in E. destruct E as [[x y] [Hin E]].
  cbn [fst snd] in E.
  assert (S : (c1 = x /\ c2 = y) \/ (c1 = y /\ c2 = x)).
  { apply orb_true_iff in E. destruct E as [E | E];
      apply andb_true_iff in E; destruct E as [E1 E2];
      apply String.eqb_eq in E1; apply String.eqb_eq in E2; auto. }
  unfold Main.CONSONANT_PAIRS in Hin.
  repeat (destruct Hin as [[= <- <-] | Hin];
          [destruct S as [[-> ->] | [-> ->]]; reflexivity |]).
  destruct Hin.
Qed.

Lemma listed_plain (p q : string) :
  Enhancements.listed p q = true -> JS.inherited p = false /\ JS.inherited q = false.
Proof.
  unfold Enhancements.listed.
  destruct (JS.lookup p Enhancements.vowelClasses) as [l |] eqn:L; [| discriminate].
  intros H. apply has_In in H. apply lookup_In in L.
  unfold Enhancements.vowelClasses in L.
  repeat (destruct L as [[= <- <-] | L];
          [destruct H as [<- | [<- | []]]; split; reflexivity |]).
  destruct L.
Qed.

Lemma listed_not_inherited (p q : string) :
  JS.inherited p = true \/ JS.inherited q = true -> Enhancements.listed p q = false.
Proof.
  intros H. destruct (Enhancements.listed p q) eqn:E; [| reflexivity].
  destruct (listed_plain p q E) as [A B]. destruct H; congruence.
Qed.

(** X28. [arePhonemesSimilar] gives the same answer in both orders, and it
    raises exactly when one of the two codes is a name the table of
    vowel neighbours inherits. *)
Theorem phonemes_similar_symmetric (p1 p2 : string) :
  Enhancements.arePhonemesSimilar p1 p2 = Enhancements.arePhonemesSimilar p2 p1
  /\ (Enhancements.arePhonemesSimilar p1 p2 = None
      <-> JS.inherited p1 || JS.inherited p2 = true).
Proof.
  unfold Enhancements.arePhonemesSimilar.
  destruct (JS.inherited p1) eqn:I1.
  - rewrite (listed_not_inherited p2 p1 (or_intror I1)).
    split; [now destruct (JS.inherited p2) | split; reflexivity].
  - destruct (JS.inherited p2) eqn:I2.
    + rewrite (listed_not_inherited p1 p2 (or_intror I2)).
      split; [reflexivity | split; reflexivity].
    + rewrite (areConsonantsSimilar_sym p2 p1). cbn [orb].
      destruct (Enhancements.listed p1 p2), (Enhancements.listed p2 p1);
        (split; [reflexivity | split; discriminate]).
Qed.

(** ** The flow styles *)

Lemma join_empty_cons (x : string) (l : list string) :
  JS.join "" (x :: l) = (x ++ JS.join "" l)%string.
Proof.
  unfold JS.join. cbn [String.concat].
  destruct l; [now rewrite append_empty_r | reflexivity].
Qed.

Lemma includes_tail (sub : string) (c : ascii) (s : string) :
  Enhancements.includes sub (String c s) = false ->
  Enhancements.includes sub s = false.
Proof.
  cbn [Enhancements.includes]. intros H.
  apply orb_false_iff in H. now destruct H.
Qed.

Lemma no_triple (p : list bool) (m c : nat) (front : string) :
  m <= 2 ->
  (c = 0 /\ front = "") \/ (c = 1 /\ front = "1") \/ (c = 2 /\ front = "11") ->
  Enhancements.includes "111" (front ++ JS.join "" (map Enhancements.digit p)) = false ->
  fst (fold_left Enhancements.consecutive_step p (m, c)) <= 2.
Proof.
  revert m c front. induction p as [|b p IH]; intros m c front Hm Hc H.
  - exact Hm.
  - cbn [fold_left]. cbn [map] in H. rewrite join_empty_cons in H.
    unfold Enhancements.consecutive_step at 2.
    destruct b; cbn [Enhancements.digit] in H.
    + destruct Hc as [[-> ->] | [[-> ->] | [-> ->]]].
      * apply (IH _ 1 "1"); [lia | auto | exact H].
      * apply (IH _ 2 "11"); [lia | auto | exact H].
      * exfalso. cbn [append Enhancements.includes] in H.
        apply orb_false_iff in H. destruct H as [H _].
        revert H. generalize (JS.join "" (map Enhancements.digit p)).
        intros s H. destruct s; vm_compute in H; discriminate H.
    + apply (IH m 0 ""); [exact Hm | auto |].
      destruct Hc as [[-> ->] | [[-> ->] | [-> ->]]].
      * now apply includes_tail in H.
      * now apply includes_tail, includes_tail in H.
      * now apply includes_tail, includes_tail, includes_tail in H.
Qed.

(** X29. [classifyFlowStyle] never answers with the style "aggressive":
    three stresses in a row make the pattern hold 111, for which an
    earlier test has already returned. *)
Theorem flow_style_never_aggressive (stressPattern : list bool) :
  Enhancements.classifyFlowStyle stressPattern <> Enhancements.aggressive.
Proof.
  unfold Enhancements.classifyFlowStyle.
  destruct (Enhancements.includes "1010" _); [discriminate |].
  destruct (Enhancements.includes "1001" _); [discriminate |].
  destruct (Enhancements.includes "111" _) eqn:E; [discriminate |].
  destruct (Enhancements.includes "10001000" _); [discriminate |].
  destruct (Enhancements.includes "110110" _); [discriminate |].
  pose proof (no_triple stressPattern 0 0 "" ltac:(lia) ltac:(auto) E) as H.
  destruct (fold_left Enhancements.consecutive_step stressPattern (0, 0))
    as [maxConsecutive current].
  cbn [fst] in H.
  destruct (Nat.leb_spec 3 maxConsecutive); [lia |].
  destruct (maxConsecutive =? 0); discriminate.
Qed.

Lemma map_below (k n : nat) :
  n <= k -> map (fun i => i =? k) (seq 0 n) = repeat false n.
Proof.
  induction n as [|n IH]; intros H; [reflexivity |].
  rewrite seq_S, map_app, IH by lia. cbn [map plus].
  destruct (Nat.eqb_spec n k); [lia |].
  cbn [repeat]. symmetry. apply repeat_cons.
Qed.

(** X30. The stress pattern [analyzeFlowPattern] builds for one word from
    the result of [syllabify]: a single stress, on the last
    syllable. *)
Theorem flow_pattern_of_word (phones : list string) :
  Enhancements.wordPattern (fst (Main.syllabify phones)) (snd (Main.syllabify phones))
  = match length (fst (Main.syllabify phones)) with
    | O => []
    | S k => repeat false k ++ [true]
    end.
Proof.
  rewrite syllabify_stress_default.
  destruct (fst (Main.syllabify phones)) as [|s syls]; [reflexivity |].
  unfold Enhancements.wordPattern.
  change (length (s :: syls)) with (S (length syls)).
  rewrite Nat.sub_succ, Nat.sub_0_r.
  rewrite seq_S, map_app, map_below by lia.
  cbn [map plus]. now rewrite Nat.eqb_refl.
Qed.

(** ** Raising the slant threshold *)

Section GreedyMaximal.

Variables (U : Type) (mem : nat -> U -> bool) (add : nat -> U -> U).
Variables (minSize : nat) (skip : nat -> bool) (accept : nat -> nat -> bool).
Variable n : nat.
Variable ok : U -> Prop.

Hypothesis add_ok : forall u j, ok u -> j < n -> ok (add j u).
Hypothesis mem_add_same : forall u j, ok u -> j < n -> mem j (add j u) = true.
Hypothesis mem_add_other :
  forall u j x, ok u -> j < n -> x <> j -> mem x (add j u) = mem x u.
Hypothesis pairs_suffice : minSize <= 2.






End GreedyMaximal.








